(** * AT32-WebISP: bootloader protocol engine, serial transport and
      firmware parsers

    A shallow embedding of [AT32Protocol], [WebSerialInterface] and
    [FileParsers], together with the properties of the specification that
    concern them.

    Conventions.  A JavaScript [number] is modelled by [number] below: the
    code only ever produces integers, [NaN] and (through [parseInt] on a
    very long digit string) an infinity, so no fractional value is needed.
    A [Uint8Array] is a [list Z] whose elements lie in [0, 256).  Reading
    an array out of range yields [undefined], modelled by [None]. *)

From Stdlib Require Import ZArith Lia String Ascii.
From Stdlib Require Import HexadecimalString DecimalString.
From stdpp Require Import base list.

Local Open Scope Z_scope.

(* ================================================================== *)
(** * JavaScript primitives used by the code *)
(* ================================================================== *)

Module JS.

(** A JavaScript number, restricted to the values the code can produce.
    [-0] is identified with [0]: the two are indistinguishable by [===],
    [+], [<], the bit operators and typed-array stores, which are the only
    operations applied to them here. *)
Inductive number : Type :=
| NaN
| Num (z : Z)
| Infinity (negative : bool).

(** Thrown values.  Every [throw] of the source constructs a plain
    [Error] with a message; the runtime itself raises [TypeError] (method
    call on [undefined]) and [RangeError] (access outside a buffer). *)
Inductive exn : Type :=
| Error (msg : string)
| TypeError
| RangeError.

(** The completion of a call: a returned value or a thrown one. *)
Inductive outcome (A : Type) : Type :=
| Returns (a : A)
| Throws (e : exn).
Global Arguments Returns {A} a.
Global Arguments Throws {A} e.

Definition two32 : Z := 4294967296.
Definition two31 : Z := 2147483648.

(** [ToInt32]: NaN and the infinities map to 0, integers wrap modulo
    2^32 into [-2^31, 2^31). *)
Definition wrap32 (z : Z) : Z := (z + two31) mod two32 - two31.

Definition ToInt32 (x : number) : Z :=
  match x with
  | Num z => wrap32 z
  | NaN | Infinity _ => 0
  end.

(** [ToUint8], the conversion of a typed-array store. *)
Definition ToUint8 (x : number) : Z :=
  match x with
  | Num z => z mod 256
  | NaN | Infinity _ => 0
  end.

(** [ToNumber] of an array element: [undefined] becomes [NaN]. *)
Definition ToNumber (e : option Z) : number :=
  match e with
  | Some z => Num z
  | None => NaN
  end.

(** The 32-bit operators.  The shift count is taken modulo 32. *)
Definition shl (a : number) (k : Z) : Z :=
  wrap32 (Z.shiftl (ToInt32 a) (k mod 32)).
Definition sar (a : number) (k : Z) : Z :=
  Z.shiftr (ToInt32 a) (k mod 32).
Definition band (a b : number) : Z := Z.land (ToInt32 a) (ToInt32 b).
Definition bor (a b : number) : Z := Z.lor (ToInt32 a) (ToInt32 b).
Definition bxor (a b : number) : Z := Z.lxor (ToInt32 a) (ToInt32 b).
(** [x >>> 0] *)
Definition ushr0 (a : number) : Z := ToInt32 a mod two32.

(** [a + b] and [a * b] on numbers. *)
Definition add (a b : number) : number :=
  match a, b with
  | NaN, _ | _, NaN => NaN
  | Num x, Num y => Num (x + y)
  | Infinity s, Num _ | Num _, Infinity s => Infinity s
  | Infinity s, Infinity t => if Bool.eqb s t then Infinity s else NaN
  end.

Definition mul (a b : number) : number :=
  match a, b with
  | NaN, _ | _, NaN => NaN
  | Num x, Num y => Num (x * y)
  | Infinity s, Num y | Num y, Infinity s =>
      if y =? 0 then NaN else Infinity (xorb s (y <? 0))
  | Infinity s, Infinity t => Infinity (xorb s t)
  end.

(** [a === b] on numbers: [NaN] equals nothing. *)
Definition strict_eq (a b : number) : bool :=
  match a, b with
  | Num x, Num y => x =? y
  | Infinity s, Infinity t => Bool.eqb s t
  | _, _ => false
  end.

(** [a < b] on numbers: false as soon as one side is [NaN]. *)
Definition lt (a b : number) : bool :=
  match a, b with
  | Num x, Num y => x <? y
  | Infinity true, Num _ | Num _, Infinity false => true
  | Infinity true, Infinity false => true
  | _, _ => false
  end.

(** [e === c] for an array element [e] and an integer constant [c]. *)
Definition elem_is (e : option Z) (c : Z) : bool :=
  match e with
  | Some z => z =? c
  | None => false
  end.

(** [new Uint8Array([x0, x1, ...])] *)
Definition Uint8Array_of (xs : list number) : list Z := map ToUint8 xs.

(** [new Uint8Array(n)]: [n] zero bytes. *)
Definition Uint8Array_new (n : nat) : list Z := replicate n 0.

(** [a[i] = v] on a [Uint8Array]: a store outside the array is ignored. *)
Definition store (a : list Z) (i : nat) (v : number) : list Z :=
  <[i := ToUint8 v]> a.

(** [z.toString(16)] and [String(z)] for an integer [z]. *)
Definition toString16 (z : Z) : string :=
  HexadecimalString.NilZero.string_of_int (Z.to_hex_int z).
Definition toString10 (z : Z) : string :=
  DecimalString.NilZero.string_of_int (Z.to_int z).

(** [a <= b] and [a - b] on numbers. *)
Definition le (a b : number) : bool :=
  match a, b with
  | Num x, Num y => x <=? y
  | Infinity true, Num _ | Num _, Infinity false => true
  | Infinity s, Infinity t => s || negb t
  | _, _ => false
  end.

Definition sub (a b : number) : number :=
  match a, b with
  | NaN, _ | _, NaN => NaN
  | Num x, Num y => Num (x - y)
  | Infinity s, Num _ => Infinity s
  | Num _, Infinity s => Infinity (negb s)
  | Infinity s, Infinity t => if Bool.eqb s t then NaN else Infinity s
  end.

End JS.
Export JS.

Coercion Num : Z >-> number.

Infix "+++" := String.append (at level 60, right associativity).

(* ================================================================== *)
(** * The serial interface, seen from the protocol engine *)
(* ================================================================== *)

(** [AT32Protocol] talks to its [ISerialInterface] only through [flush],
    [write] and [read]; a method of the engine is a finite tree of such
    calls.  [Read c t k] is [await serial.read(c, t)] followed by [k] applied
    to the array that was read; [t = None] when the argument is omitted. *)
Inductive proto (A : Type) : Type :=
| Ret (a : A)
| Throw (e : exn)
| Flush (k : proto A)
| Write (data : list Z) (k : proto A)
| Read (count : number) (timeoutMs : option Z) (k : list Z -> proto A).
Arguments Ret {A} a.
Arguments Throw {A} e.
Arguments Flush {A} k.
Arguments Write {A} data k.
Arguments Read {A} count timeoutMs k.

Fixpoint proto_bind {A B} (f : A -> proto B) (m : proto A) : proto B :=
  match m with
  | Ret a => f a
  | Throw e => Throw e
  | Flush k => Flush (proto_bind f k)
  | Write d k => Write d (proto_bind f k)
  | Read c t k => Read c t (fun resp => proto_bind f (k resp))
  end.

Global Instance proto_ret : MRet proto := fun _ a => Ret a.
Global Instance proto_mbind : MBind proto := fun _ _ f m => proto_bind f m.

Definition flush : proto unit := Flush (Ret tt).
Definition write (data : list Z) : proto unit := Write data (Ret tt).
Definition read (count : number) (timeoutMs : option Z) : proto (list Z) :=
  Read count timeoutMs Ret.

(** What an execution makes visible on the interface. *)
Inductive event : Type :=
| EvFlush
| EvWrite (data : list Z)
| EvRead (count : number) (timeoutMs : option Z) (resp : list Z).

(** [exec p tr o]: against some serial interface, [p] performs the calls
    [tr], all of them fulfilled, and completes with [o].  A call of the
    interface may also reject; the rejection propagates, since the engine
    has no handler. *)
Inductive exec {A : Type} : proto A -> list event -> outcome A -> Prop :=
| exec_Ret a : exec (Ret a) [] (Returns a)
| exec_Throw e : exec (Throw e) [] (Throws e)
| exec_Flush k tr o :
    exec k tr o -> exec (Flush k) (EvFlush :: tr) o
| exec_Flush_rejects k e : exec (Flush k) [] (Throws e)
| exec_Write d k tr o :
    exec k tr o -> exec (Write d k) (EvWrite d :: tr) o
| exec_Write_rejects d k e : exec (Write d k) [] (Throws e)
| exec_Read c t k resp tr o :
    exec (k resp) tr o -> exec (Read c t k) (EvRead c t resp :: tr) o
| exec_Read_rejects c t k e : exec (Read c t k) [] (Throws e).

(** The arrays handed to [write], in order. *)
Fixpoint writes (tr : list event) : list (list Z) :=
  match tr with
  | [] => []
  | EvWrite d :: tr' => d :: writes tr'
  | _ :: tr' => writes tr'
  end.

(* ================================================================== *)
(** * AT32Protocol *)
(* ================================================================== *)

Module AT32Protocol.

Module CMD.
Definition GET_COMMANDS : Z := 0x00.
Definition GET_VERSION : Z := 0x01.
Definition GET_ID : Z := 0x02.
Definition READ_MEMORY : Z := 0x11.
Definition GO : Z := 0x21.
Definition WRITE_MEMORY : Z := 0x31.
Definition ERASE : Z := 0x44.
Definition FIRMWARE_CRC : Z := 0xAC.
End CMD.

Definition ACK : Z := 0x79.
Definition NACK : Z := 0x1F.

(** [resp[0].toString(16)]: a [TypeError] when [resp[0]] is [undefined]. *)
Definition elem_toString16 (e : option Z) : outcome string :=
  match e with
  | Some b => Returns (toString16 b)
  | None => Throws TypeError
  end.

Definition sync : proto unit :=
  flush;;
  write (Uint8Array_of [Num 0x7F]);;
  resp ← read 1 (Some 1000);
  if negb (elem_is (resp !! 0%nat) ACK) then
    if elem_is (resp !! 0%nat) NACK then
      Throw (Error "Received NACK during sync")
    else
      match elem_toString16 (resp !! 0%nat) with
      | Returns h => Throw (Error ("Sync failed. Expected 0x79, got 0x" +++ h))
      | Throws e => Throw e
      end
  else Ret tt.

Definition sendCommand (cmd : Z) : proto unit :=
  let frame := Uint8Array_of [Num cmd; Num (bxor cmd 0xFF)] in
  write frame;;
  resp ← read 1 None;
  if negb (elem_is (resp !! 0%nat) ACK) then
    match elem_toString16 (resp !! 0%nat) with
    | Returns h =>
        Throw (Error ("Command 0x" +++ toString16 cmd +++ " failed. Got 0x" +++ h))
    | Throws e => Throw e
    end
  else Ret tt.

Definition sendAddress (addr : number) : proto unit :=
  let b3 := band (sar addr 24) 0xFF in
  let b2 := band (sar addr 16) 0xFF in
  let b1 := band (sar addr 8) 0xFF in
  let b0 := band addr 0xFF in
  let checksum := bxor (bxor (bxor b3 b2) b1) b0 in
  write (Uint8Array_of [Num b3; Num b2; Num b1; Num b0; Num checksum]);;
  ack ← read 1 None;
  if negb (elem_is (ack !! 0%nat) ACK) then Throw (Error "Address NACK")
  else Ret tt.

Record ChipID : Type := { pid : Z; projectID : option Z }.

Definition getID : proto ChipID :=
  sendCommand CMD.GET_ID;;
  lenBuf ← read 1 None;
  let n := lenBuf !! 0%nat in
  let totalBytes := add (ToNumber n) 1 in
  idBytes ← read totalBytes None;
  ack ← read 1 None;
  if negb (elem_is (ack !! 0%nat) ACK) then
    Throw (Error "GetID: Missing final ACK")
  else
    let pid :=
      bor (bor (bor (shl (ToNumber (idBytes !! 2%nat)) 24)
                    (shl (ToNumber (idBytes !! 3%nat)) 16))
               (shl (ToNumber (idBytes !! 0%nat)) 8))
          (ToNumber (idBytes !! 1%nat)) in
    Ret {| pid := ushr0 pid; projectID := idBytes !! 4%nat |}.

(** The body of the [for] loop of [writeMemory], run from index [i] for
    [fuel] iterations; the loop guard is [i < data.length]. *)
Fixpoint writeMemory_loop (data : list Z) (fuel : nat) (i : nat)
    (frame : list Z) (checksum : Z) : list Z * Z :=
  match fuel with
  | O => (frame, checksum)
  | S fuel' =>
      if (Z.of_nat i <? Z.of_nat (length data)) then
        let d := ToNumber (data !! i) in
        writeMemory_loop data fuel' (S i)
          (store frame (i + 1)%nat d) (bxor checksum d)
      else (frame, checksum)
  end.

(** The frame that [writeMemory] assembles for [data]. *)
Definition writeMemory_frame (data : list Z) : list Z :=
  let n := Z.of_nat (length data) - 1 in
  let frame := Uint8Array_new (length data + 2) in
  let frame := store frame 0 n in
  let '(frame, checksum) :=
    writeMemory_loop data (length data) 0 frame n in
  store frame (length data + 1)%nat checksum.

Definition writeMemory (address : number) (data : list Z) : proto unit :=
  if (Z.of_nat (length data) >? 256) || (Z.of_nat (length data) =? 0) then
    Throw (Error "Invalid write length")
  else
    sendCommand CMD.WRITE_MEMORY;;
    sendAddress address;;
    write (writeMemory_frame data);;
    ack ← read 1 None;
    if negb (elem_is (ack !! 0%nat) ACK) then
      Throw (Error "WriteMemory: NACK during data write")
    else Ret tt.

Record Version : Type := { version : option Z; optionBytes : list (option Z) }.

Definition getVersion : proto Version :=
  sendCommand CMD.GET_VERSION;;
  ver ← read 1 None;
  opt1 ← read 1 None;
  opt2 ← read 1 None;
  ack ← read 1 None;
  if negb (elem_is (ack !! 0%nat) ACK) then
    Throw (Error "GetVersion: Missing final ACK")
  else
    Ret {| version := ver !! 0%nat;
           optionBytes := [opt1 !! 0%nat; opt2 !! 0%nat] |}.

Definition readMemory (address length_ : number) : proto (list Z) :=
  if le length_ 0 || lt 256 length_ then Throw (Error "Invalid read length")
  else
    sendCommand CMD.READ_MEMORY;;
    sendAddress address;;
    let n := sub length_ 1 in
    let checksum := bxor 0xFF n in
    write (Uint8Array_of [n; Num checksum]);;
    ack ← read 1 None;
    if negb (elem_is (ack !! 0%nat) ACK) then
      Throw (Error "ReadMemory: Length NACK")
    else
      data ← read length_ None;
      Ret data.

Definition eraseAll : proto unit :=
  sendCommand CMD.ERASE;;
  let code1 := 0xFF in
  let code2 := 0xFF in
  let checksum := bxor code1 code2 in
  write (Uint8Array_of [Num code1; Num code2; Num checksum]);;
  ack ← read 1 (Some 10000);
  if negb (elem_is (ack !! 0%nat) ACK) then Throw (Error "Erase All failed")
  else Ret tt.

Definition firmwareCRC (startAddress sectorCount : number) : proto Z :=
  if le sectorCount 0 || lt 0x10000 sectorCount then
    Throw (Error "Invalid sector count")
  else
    sendCommand CMD.FIRMWARE_CRC;;
    sendAddress startAddress;;
    let n := sub sectorCount 1 in
    let msb := band (sar n 8) 0xFF in
    let lsb := band n 0xFF in
    let checksum := bxor (bxor msb lsb) 0xFF in
    write (Uint8Array_of [Num msb; Num lsb; Num checksum]);;
    ack ← read 1 None;
    if negb (elem_is (ack !! 0%nat) ACK) then
      Throw (Error "Firmware CRC: NACK during sector count")
    else
      crcBytes ← read 4 (Some 10000);
      let crc :=
        bor (bor (bor (shl (ToNumber (crcBytes !! 0%nat)) 24)
                      (shl (ToNumber (crcBytes !! 1%nat)) 16))
                 (shl (ToNumber (crcBytes !! 2%nat)) 8))
            (ToNumber (crcBytes !! 3%nat)) in
      Ret (ushr0 crc).

End AT32Protocol.

(* ================================================================== *)
(** * WebSerialInterface *)
(* ================================================================== *)

Module WebSerialInterface.

(** The fields of the object that [write], [read], [flush] and the
    background [readLoop] use.  [now] is the value of [Date.now()];
    [wire] collects the arrays handed to the port's writer. *)
Record state : Type := {
  portOpen : bool;
  keepReading : bool;
  buffer : list Z;
  now : Z;
  wire : list (list Z)
}.

(** JavaScript runs one flow at a time: the other flows advance only while
    [read] is suspended in its 10 ms sleep.  A [tick] says what happened
    during one such sleep: how much time passed, which chunks [readLoop]
    received, and whether [disconnect] cleared [keepReading]. *)
Record tick : Type := {
  elapsed : Z;
  arrived : list (list Z);
  stopped : bool
}.

(** The completion of an asynchronous call within a finite schedule of
    ticks: settled, or still pending when the schedule ends. *)
Inductive completion (A : Type) : Type :=
| Settled (o : outcome A)
| Pending.
Global Arguments Settled {A} o.
Global Arguments Pending {A}.

(** [for (i...) this.buffer.push(value[i])] of [readLoop]. *)
Fixpoint push_all (buffer : list Z) (value : list Z) : list Z :=
  match value with
  | [] => buffer
  | v :: value' => push_all (buffer ++ [v]) value'
  end.

Definition readLoop_chunk (value : list Z) (st : state) : state :=
  {| portOpen := portOpen st; keepReading := keepReading st;
     buffer := push_all (buffer st) value;
     now := now st; wire := wire st |}.

Definition sleep (t : tick) (st : state) : state :=
  let st' := fold_left (fun s value => readLoop_chunk value s) (arrived t) st in
  {| portOpen := portOpen st';
     keepReading := keepReading st' && negb (stopped t);
     buffer := buffer st';
     now := now st' + elapsed t; wire := wire st' |}.

(** The relative index of [Array.prototype.slice], resolved against an
    array of length [len]. *)
Definition relative_index (len : nat) (c : number) : nat :=
  match c with
  | NaN => 0%nat
  | Infinity true => 0%nat
  | Infinity false => len
  | Num z =>
      if z <? 0 then Z.to_nat (Z.max (Z.of_nat len + z) 0)
      else Z.to_nat (Z.min z (Z.of_nat len))
  end.

(** [a.slice(0, c)] and [a.slice(c)] *)
Definition slice_to (a : list Z) (c : number) : list Z :=
  take (relative_index (length a) c) a.
Definition slice_from (a : list Z) (c : number) : list Z :=
  drop (relative_index (length a) c) a.

(** [String(x)] *)
Definition number_toString (x : number) : string :=
  match x with
  | NaN => "NaN"
  | Num z => toString10 z
  | Infinity false => "Infinity"
  | Infinity true => "-Infinity"
  end.

(** The [while] loop of [read]: one iteration per tick of the schedule. *)
Fixpoint read_wait (count : number) (timeoutMs startTime : Z)
    (sched : list tick) (st : state)
    : completion unit * state * list tick :=
  if lt (Num (Z.of_nat (length (buffer st)))) count then
    if negb (keepReading st) then
      (Settled (Throws (Error "Port disconnected during read")), st, sched)
    else if now st - startTime >? timeoutMs then
      (Settled (Throws (Error
         ("Timeout reading " +++ number_toString count +++ " bytes. Got "
          +++ toString10 (Z.of_nat (length (buffer st))) +++ "."))),
       st, sched)
    else
      match sched with
      | [] => (Pending, st, [])
      | t :: sched' => read_wait count timeoutMs startTime sched' (sleep t st)
      end
  else (Settled (Returns tt), st, sched).

Definition read (count : number) (timeoutMs : option Z)
    (st : state) (sched : list tick)
    : completion (list Z) * state * list tick :=
  let timeoutMs := default 1000 timeoutMs in
  let startTime := now st in
  match read_wait count timeoutMs startTime sched st with
  | (Settled (Returns _), st', sched') =>
      let result := Uint8Array_of (map Num (slice_to (buffer st') count)) in
      (Settled (Returns result),
       {| portOpen := portOpen st'; keepReading := keepReading st';
          buffer := slice_from (buffer st') count;
          now := now st'; wire := wire st' |},
       sched')
  | (Settled (Throws e), st', sched') => (Settled (Throws e), st', sched')
  | (Pending, st', sched') => (Pending, st', sched')
  end.

Definition write (data : list Z) (st : state) : outcome unit * state :=
  if negb (portOpen st) then (Throws (Error "Port not open"), st)
  else
    (Returns tt,
     {| portOpen := portOpen st; keepReading := keepReading st;
        buffer := buffer st; now := now st;
        wire := wire st ++ [data] |}).

Definition flush (st : state) : state :=
  {| portOpen := portOpen st; keepReading := keepReading st;
     buffer := []; now := now st; wire := wire st |}.

(** Running a method of the protocol engine on this interface. *)
Fixpoint run {A} (p : proto A) (st : state) (sched : list tick)
    : completion A * state * list tick :=
  match p with
  | Ret a => (Settled (Returns a), st, sched)
  | Throw e => (Settled (Throws e), st, sched)
  | Flush k => run k (flush st) sched
  | Write d k =>
      match write d st with
      | (Returns _, st') => run k st' sched
      | (Throws e, st') => (Settled (Throws e), st', sched)
      end
  | Read c t k =>
      match read c t st sched with
      | (Settled (Returns resp), st', sched') => run (k resp) st' sched'
      | (Settled (Throws e), st', sched') => (Settled (Throws e), st', sched')
      | (Pending, st', sched') => (Pending, st', sched')
      end
  end.

(** A user of the interface: calls of [read], interleaved with what the
    other flows do in between (chunks received, time passing). *)
Inductive action : Type :=
| DoRead (count : number) (timeoutMs : option Z)
| Background (t : tick).

(** Runs the actions in order.  Returns the arrays that the fulfilled
    reads returned, the ticks that went by (those of the schedule that the
    reads slept through and the background ones, in the order in which they
    happened), the final state and the unused schedule.  A rejected read
    does not stop the user; a pending one does. *)
Fixpoint run_actions (acts : list action) (st : state) (sched : list tick)
    : list (list Z) * list tick * state * list tick :=
  match acts with
  | [] => ([], [], st, sched)
  | Background t :: acts' =>
      let '(rs, past, st', sched') := run_actions acts' (sleep t st) sched in
      (rs, t :: past, st', sched')
  | DoRead c t :: acts' =>
      let '(res, st1, sched1) := read c t st sched in
      let slept := take (length sched - length sched1) sched in
      match res with
      | Settled (Returns r) =>
          let '(rs, past, st', sched') := run_actions acts' st1 sched1 in
          (r :: rs, slept ++ past, st', sched')
      | Settled (Throws _) =>
          let '(rs, past, st', sched') := run_actions acts' st1 sched1 in
          (rs, slept ++ past, st', sched')
      | Pending => ([], slept, st1, sched1)
      end
  end.

(** The bytes that [readLoop] received during the given ticks. *)
Definition arrivals (ticks : list tick) : list Z :=
  concat (concat (map arrived ticks)).

End WebSerialInterface.

(* ================================================================== *)
(** * String primitives of the HEX parser *)
(* ================================================================== *)

(** Texts are strings of code units below 256. *)
Module JSString.

Definition code (c : ascii) : Z := Z.of_N (N_of_ascii c).

(** White space skipped by [parseInt]: TAB, LF, VT, FF, CR, SP, NBSP. *)
Definition is_whitespace (c : ascii) : bool :=
  let n := code c in
  ((9 <=? n) && (n <=? 13)) || (n =? 32) || (n =? 160).

Fixpoint trim_start (s : string) : string :=
  match s with
  | String c s' => if is_whitespace c then trim_start s' else s
  | EmptyString => s
  end.

Definition hex_digit (c : ascii) : option Z :=
  let n := code c in
  if (48 <=? n) && (n <=? 57) then Some (n - 48)
  else if (65 <=? n) && (n <=? 70) then Some (n - 55)
  else if (97 <=? n) && (n <=? 102) then Some (n - 87)
  else None.

(** The value of the longest prefix of hexadecimal digits of [s], read
    after the digits already accumulated in [acc]. *)
Fixpoint hex_digits (s : string) (acc : option Z) : option Z :=
  match s with
  | EmptyString => acc
  | String c s' =>
      match hex_digit c with
      | Some d => hex_digits s' (Some (16 * default 0 acc + d))
      | None => acc
      end
  end.

(** The number nearest to the integer [m >= 0]: [m] itself below 2^53,
    else [m] rounded to 53 significant bits, ties to even, and infinite
    from 2^1024 on. *)
Definition nearest_number (m : Z) : number :=
  if m <? 2 ^ 53 then Num m
  else
    let k := Z.log2 m - 52 in
    let q := Z.shiftr m k in
    let r := m - Z.shiftl q k in
    let half := 2 ^ (k - 1) in
    let q' := if (half <? r) || ((r =? half) && Z.odd q) then q + 1 else q in
    let v := Z.shiftl q' k in
    if 2 ^ 1024 <=? v then Infinity false else Num v.

Definition negate (x : number) : number :=
  match x with
  | NaN => NaN
  | Num z => Num (- z)
  | Infinity s => Infinity (negb s)
  end.

(** [parseInt(s, 16)] *)
Definition parseInt16 (s : string) : number :=
  let s := trim_start s in
  let '(negative, s) :=
    match s with
    | String "-" s' => (true, s')
    | String "+" s' => (false, s')
    | _ => (false, s)
    end in
  let s :=
    match s with
    | String "0" (String "x" s') => s'
    | String "0" (String "X" s') => s'
    | _ => s
    end in
  match hex_digits s None with
  | None => NaN
  | Some m => if negative then negate (nearest_number m) else nearest_number m
  end.

(** An argument of [substring] resolved against a string of length [len]:
    [NaN] counts as 0 and the value is clamped to [0, len]. *)
Definition clamp_index (len : Z) (x : number) : Z :=
  match x with
  | NaN => 0
  | Num z => Z.min (Z.max z 0) len
  | Infinity true => 0
  | Infinity false => len
  end.

(** [s.substring(a, b)]: the arguments are swapped when [a > b]. *)
Definition substring (s : string) (a b : number) : string :=
  let len := Z.of_nat (String.length s) in
  let a' := clamp_index len a in
  let b' := clamp_index len b in
  let from := Z.min a' b' in
  let to := Z.max a' b' in
  String.substring (Z.to_nat from) (Z.to_nat (to - from)) s.

(** [line.startsWith(':')] *)
Definition startsWith_colon (line : string) : bool :=
  match line with
  | String ":" _ => true
  | _ => false
  end.

(** [text.split(/\r?\n/)] *)
Fixpoint split_lines (text : string) : list string :=
  match text with
  | EmptyString => [EmptyString]
  | String c rest =>
      let keep :=
        match split_lines rest with
        | l :: ls => String c l :: ls
        | [] => [String c EmptyString]
        end in
      if (code c =? 10) then EmptyString :: split_lines rest
      else if (code c =? 13) then
        match rest with
        | String c' rest' =>
            if (code c' =? 10) then EmptyString :: split_lines rest'
            else keep
        | EmptyString => keep
        end
      else keep
  end.

End JSString.

(* ================================================================== *)
(** * FileParsers *)
(* ================================================================== *)

Module FileParsers.
Import JSString.

Record FirmwareSegment : Type := {
  address : number;
  data : list Z
}.

(** ** parseBin *)

Definition parseBin (buffer : list Z) (baseAddress : option number)
    : list FirmwareSegment :=
  let baseAddress := default (Num 0x08000000) baseAddress in
  [ {| address := baseAddress; data := buffer |} ].

(** ** parseHex *)

(** The variables of [parseHex] that its loop updates. *)
Record hex_state : Type := {
  segments : list FirmwareSegment;
  extendedAddress : Z;
  currentData : list number;
  currentAddress : number
}.

Definition hex_init : hex_state :=
  {| segments := []; extendedAddress := 0;
     currentData := []; currentAddress := Num (-1) |}.

Definition commitSegment (st : hex_state) : hex_state :=
  if (0 <? Z.of_nat (length (currentData st)))
     && negb (strict_eq (currentAddress st) (Num (-1))) then
    {| segments := segments st ++
         [ {| address := currentAddress st;
              data := Uint8Array_of (currentData st) |} ];
       extendedAddress := extendedAddress st;
       currentData := [];
       currentAddress := Num (-1) |}
  else st.

Definition set_currentAddress (a : number) (st : hex_state) : hex_state :=
  {| segments := segments st; extendedAddress := extendedAddress st;
     currentData := currentData st; currentAddress := a |}.

Definition set_extendedAddress (e : Z) (st : hex_state) : hex_state :=
  {| segments := segments st; extendedAddress := e;
     currentData := currentData st; currentAddress := currentAddress st |}.

(** [for (let i = 0; i < len; i++) currentData.push(parseInt(...))],
    from index [i] on. *)
Fixpoint push_data (fuel : nat) (i : Z) (len : number) (dataStr : string)
    (currentData : list number) : list number :=
  match fuel with
  | O => currentData
  | S fuel' =>
      if lt (Num i) len then
        push_data fuel' (i + 1) len dataStr
          (currentData ++
             [parseInt16 (substring dataStr (Num (i * 2)) (Num (i * 2 + 2)))])
      else currentData
  end.

(** The number of iterations of a loop [for (i = 0; i < len; i++)]. *)
Definition iterations (len : number) : nat :=
  match len with
  | Num z => Z.to_nat z
  | _ => 0%nat
  end.

(** One line that starts with a colon.  The result says whether the loop
    goes on ([true]) or leaves by [break] ([false]). *)
Definition hex_record (line : string) (st : hex_state) : hex_state * bool :=
  let len := parseInt16 (substring line (Num 1) (Num 3)) in
  let addr := parseInt16 (substring line (Num 3) (Num 7)) in
  let type := parseInt16 (substring line (Num 7) (Num 9)) in
  let dataStr := substring line (Num 9) (add (Num 9) (mul len (Num 2))) in
  if strict_eq type (Num 0x00) then
    let absoluteAddr := add (Num (extendedAddress st)) addr in
    let st :=
      if strict_eq (currentAddress st) (Num (-1)) then
        set_currentAddress absoluteAddr st
      else if negb (strict_eq absoluteAddr
                      (add (currentAddress st)
                           (Num (Z.of_nat (length (currentData st)))))) then
        set_currentAddress absoluteAddr (commitSegment st)
      else st in
    ({| segments := segments st; extendedAddress := extendedAddress st;
        currentData := push_data (iterations len) 0 len dataStr (currentData st);
        currentAddress := currentAddress st |}, true)
  else if strict_eq type (Num 0x02) then
    let segment := parseInt16 dataStr in
    (commitSegment (set_extendedAddress (shl segment 4) st), true)
  else if strict_eq type (Num 0x04) then
    let highAddr := parseInt16 dataStr in
    (commitSegment (set_extendedAddress (shl highAddr 16) st), true)
  else if strict_eq type (Num 0x01) then
    (commitSegment st, false)
  else (st, true).

(** [for (const line of lines)] *)
Fixpoint hex_lines (lines : list string) (st : hex_state) : hex_state :=
  match lines with
  | [] => st
  | line :: lines' =>
      if negb (startsWith_colon line) then hex_lines lines' st
      else
        match hex_record line st with
        | (st', true) => hex_lines lines' st'
        | (st', false) => st'
        end
  end.

Definition parseHex (text : string) : list FirmwareSegment :=
  let lines := split_lines text in
  segments (commitSegment (hex_lines lines hex_init)).

(** ** parseElf *)

Global Instance outcome_ret : MRet outcome := fun _ a => Returns a.
Global Instance outcome_bind : MBind outcome := fun _ _ f m =>
  match m with
  | Returns a => f a
  | Throws e => Throws e
  end.

(** The [size] bytes of a [DataView] at [byteOffset]; a [RangeError] when
    they do not lie within the buffer. *)
Definition view_bytes (buffer : list Z) (byteOffset : Z) (size : nat)
    : outcome (list Z) :=
  if (byteOffset <? 0)
     || (Z.of_nat (length buffer) <? byteOffset + Z.of_nat size) then
    Throws RangeError
  else Returns (take size (drop (Z.to_nat byteOffset) buffer)).

(** The unsigned value of a byte sequence, most significant byte first. *)
Definition big_endian (bs : list Z) : Z :=
  fold_left (fun acc b => acc * 256 + b) bs 0.

Definition getUint (size : nat) (buffer : list Z) (byteOffset : Z)
    (littleEndian : bool) : outcome Z :=
  bs ← view_bytes buffer byteOffset size;
  Returns (big_endian (if littleEndian then reverse bs else bs)).

Definition getUint8 (buffer : list Z) (byteOffset : Z) : outcome Z :=
  getUint 1 buffer byteOffset false.
Definition getUint16 := getUint 2.
Definition getUint32 := getUint 4.

(** [new Uint8Array(buffer, byteOffset, length)] *)
Definition Uint8Array_view (buffer : list Z) (byteOffset length_ : Z)
    : outcome (list Z) :=
  if Z.of_nat (length buffer) <? byteOffset + length_ then Throws RangeError
  else Returns (take (Z.to_nat length_) (drop (Z.to_nat byteOffset) buffer)).

(** The body of the loop over the program headers, for index [i]. *)
Definition elf_header (buffer : list Z) (littleEndian : bool)
    (phOff phEntSize : Z) (i : Z) (segments : list FirmwareSegment)
    : outcome (list FirmwareSegment) :=
  let offset := phOff + i * phEntSize in
  pType ← getUint32 buffer offset littleEndian;
  if pType =? 1 then
    pOffset ← getUint32 buffer (offset + 4) littleEndian;
    pPaddr ← getUint32 buffer (offset + 12) littleEndian;
    pFilesz ← getUint32 buffer (offset + 16) littleEndian;
    if pFilesz >? 0 then
      segmentData ← Uint8Array_view buffer pOffset pFilesz;
      Returns (segments ++ [ {| address := Num pPaddr; data := segmentData |} ])
    else Returns segments
  else Returns segments.

(** [for (let i = 0; i < phNum; i++)], from index [i] on. *)
Fixpoint elf_headers (fuel : nat) (buffer : list Z) (littleEndian : bool)
    (phOff phEntSize phNum : Z) (i : Z) (segments : list FirmwareSegment)
    : outcome (list FirmwareSegment) :=
  match fuel with
  | O => Returns segments
  | S fuel' =>
      if i <? phNum then
        segments' ← elf_header buffer littleEndian phOff phEntSize i segments;
        elf_headers fuel' buffer littleEndian phOff phEntSize phNum (i + 1)
          segments'
      else Returns segments
  end.

Definition parseElf (buffer : list Z) : outcome (list FirmwareSegment) :=
  magic ← getUint32 buffer 0 false;
  if negb (magic =? 0x7F454C46) then Throws (Error "Invalid ELF Magic")
  else
    class ← getUint8 buffer 4;
    let is64Bit := class =? 2 in
    encoding ← getUint8 buffer 5;
    let littleEndian := encoding =? 1 in
    if negb is64Bit then
      phOff ← getUint32 buffer 28 littleEndian;
      phEntSize ← getUint16 buffer 42 littleEndian;
      phNum ← getUint16 buffer 44 littleEndian;
      elf_headers (Z.to_nat phNum) buffer littleEndian phOff phEntSize phNum 0 []
    else
      Throws (Error
        "64-bit ELF not supported yet (Target is likely 32-bit MCU)").

End FileParsers.

(* ================================================================== *)
(** * MockSerialInterface *)
(* ================================================================== *)

Module MockSerialInterface.

Inductive ConnectionStatus : Type :=
| disconnected
| connecting
| connected
| error.

(** The fields of the object, the clock, and the callbacks registered
    with [setTimeout] that have not run yet.  The only callback the class
    registers pushes a fixed list of bytes, so a pending callback is its
    due time and the bytes it will push. *)
Record state : Type := {
  status : ConnectionStatus;
  buffer : list Z;
  now : Z;
  timers : list (Z * list Z)
}.

Definition initial (t : Z) : state :=
  {| status := disconnected; buffer := []; now := t; timers := [] |}.

Definition connect (st : state) : state :=
  {| status := connected; buffer := buffer st; now := now st;
     timers := timers st |}.

Definition disconnect (st : state) : state :=
  {| status := disconnected; buffer := buffer st; now := now st;
     timers := timers st |}.

(** [bytes.forEach(b => this.buffer.push(b))] *)
Definition push (bytes : list Z) (st : state) : state :=
  {| status := status st;
     buffer := fold_left (fun b x => b ++ [x]) bytes (buffer st);
     now := now st; timers := timers st |}.

(** [setTimeout(() => this.push(bytes), delay)] *)
Definition setTimeout (bytes : list Z) (delay : Z) (st : state) : state :=
  {| status := status st; buffer := buffer st; now := now st;
     timers := timers st ++ [(now st + delay, bytes)] |}.

Definition processCommand (data : list Z) (st : state) : state :=
  if Z.of_nat (length data) =? 0 then st
  else
    let byte := data !! 0%nat in
    if elem_is byte 0x7F then push [0x79] st
    else if elem_is byte 0x02 && elem_is (data !! 1%nat) 0xFD then
      let pid := [0x41; 0x54; 0x33; 0x32] in
      let prid := 0x01 in
      setTimeout ([0x04] ++ pid ++ [prid; 0x79]) 50 (push [0x79] st)
    else if (Z.of_nat (length data) =? 2)
            && (bxor (ToNumber (data !! 0%nat)) (ToNumber (data !! 1%nat))
                =? 0xFF) then
      push [0x79] st
    else st.

Definition write (data : list Z) (st : state) : state :=
  processCommand data st.

Definition flush (st : state) : state :=
  {| status := status st; buffer := []; now := now st; timers := timers st |}.

(** One sleep of [read], begun at time [now st] and lasting [elapsed]
    milliseconds.  The sleep is itself a timer, due at [now st + 10]; the
    pending callbacks that are due no later run before [read] resumes, in
    the order in which they were registered, and the others stay
    pending. *)
Definition is_due (t : Z) (timer : Z * list Z) : bool := fst timer <=? t.

Definition sleep (elapsed : Z) (st : state) : state :=
  let fired := filter (fun timer => is_due (now st + 10) timer) (timers st) in
  let st' := fold_left (fun s timer => push (snd timer) s) fired st in
  {| status := status st'; buffer := buffer st';
     now := now st + elapsed;
     timers :=
       filter (fun timer => negb (is_due (now st + 10) timer)) (timers st) |}.

(** The [while] loop of [read]: one iteration per sleep of the schedule,
    which gives the duration of each sleep. *)
Fixpoint read_wait (count : number) (timeoutMs startTime : Z)
    (sched : list Z) (st : state)
    : WebSerialInterface.completion unit * state * list Z :=
  if lt (Num (Z.of_nat (length (buffer st)))) count then
    if now st - startTime >? timeoutMs then
      (WebSerialInterface.Settled (Throws (Error "Mock Timeout")), st, sched)
    else
      match sched with
      | [] => (WebSerialInterface.Pending, st, [])
      | elapsed :: sched' =>
          read_wait count timeoutMs startTime sched' (sleep elapsed st)
      end
  else (WebSerialInterface.Settled (Returns tt), st, sched).

Definition read (count : number) (timeoutMs : option Z)
    (st : state) (sched : list Z)
    : WebSerialInterface.completion (list Z) * state * list Z :=
  let timeoutMs := default 1000 timeoutMs in
  let startTime := now st in
  match read_wait count timeoutMs startTime sched st with
  | (WebSerialInterface.Settled (Returns _), st', sched') =>
      let result :=
        Uint8Array_of
          (map Num (WebSerialInterface.slice_to (buffer st') count)) in
      (WebSerialInterface.Settled (Returns result),
       {| status := status st';
          buffer := WebSerialInterface.slice_from (buffer st') count;
          now := now st'; timers := timers st' |},
       sched')
  | (WebSerialInterface.Settled (Throws e), st', sched') =>
      (WebSerialInterface.Settled (Throws e), st', sched')
  | (WebSerialInterface.Pending, st', sched') =>
      (WebSerialInterface.Pending, st', sched')
  end.

(** Running a method of the protocol engine on this interface. *)
Fixpoint run {A} (p : proto A) (st : state) (sched : list Z)
    : WebSerialInterface.completion A * state * list Z :=
  match p with
  | Ret a => (WebSerialInterface.Settled (Returns a), st, sched)
  | Throw e => (WebSerialInterface.Settled (Throws e), st, sched)
  | Flush k => run k (flush st) sched
  | Write d k => run k (write d st) sched
  | Read c t k =>
      match read c t st sched with
      | (WebSerialInterface.Settled (Returns resp), st', sched') =>
          run (k resp) st' sched'
      | (WebSerialInterface.Settled (Throws e), st', sched') =>
          (WebSerialInterface.Settled (Throws e), st', sched')
      | (WebSerialInterface.Pending, st', sched') =>
          (WebSerialInterface.Pending, st', sched')
      end
  end.

End MockSerialInterface.

(* ================================================================== *)
(** * App: the calls that the user interface makes on the protocol engine *)
(* ================================================================== *)

(** Of [connect] and [program] only the calls on [AT32Protocol] are kept;
    the updates of the displayed state (status, progress, log) do not
    influence them and are left out, as is the handler that logs a thrown
    error. *)
Module App.
Import AT32Protocol.

(** [await protocol.sync(); id = await protocol.getID();
     ver = await protocol.getVersion()] of [connect]. *)
Definition connect_exchange : proto (ChipID * Version) :=
  sync;;
  id ← getID;
  ver ← getVersion;
  Ret (id, ver).

Definition chunkSize : Z := 256.
Definition baseAddress : Z := 0x08000000.

(** [Math.ceil(a / b)] for integers [a] and [b > 0] ([b] is 256 here,
    so the quotient is computed exactly). *)
Definition ceil_div (a b : Z) : Z := - ((- a) / b).

(** [a.slice(start, end)] on a [Uint8Array]. *)
Definition slice (a : list Z) (start end_ : number) : list Z :=
  let from := WebSerialInterface.relative_index (length a) start in
  let to := WebSerialInterface.relative_index (length a) end_ in
  take (to - from) (drop from a).

(** The [for] loop of [program], from index [i] on. *)
Fixpoint program_loop (data : list Z) (totalChunks : Z) (fuel : nat) (i : Z)
    : proto unit :=
  match fuel with
  | O => Ret tt
  | S fuel' =>
      if i <? totalChunks then
        let start := i * chunkSize in
        let end_ := Z.min (start + chunkSize) (Z.of_nat (length data)) in
        let chunk := slice data (Num start) (Num end_) in
        let addr := baseAddress + start in
        writeMemory (Num addr) chunk;;
        program_loop data totalChunks fuel' (i + 1)
      else Ret tt
  end.

Definition program (data : list Z) : proto unit :=
  let totalChunks := ceil_div (Z.of_nat (length data)) chunkSize in
  program_loop data totalChunks (Z.to_nat totalChunks) 0.

End App.

(* ================================================================== *)
(** * Arithmetic of the 32-bit operators *)
(* ================================================================== *)

Definition is_byte (z : Z) : Prop := 0 <= z < 256.

Module JSFacts.

(** The operators are kept folded by [cbn] and [simpl]; the lemmas below
    give their values. *)
#[global] Arguments wrap32 : simpl never.
#[global] Arguments ToInt32 : simpl never.
#[global] Arguments ToUint8 : simpl never.
#[global] Arguments shl : simpl never.
#[global] Arguments sar : simpl never.
#[global] Arguments band : simpl never.
#[global] Arguments bor : simpl never.
#[global] Arguments bxor : simpl never.
#[global] Arguments ushr0 : simpl never.
#[global] Arguments toString16 : simpl never.
#[global] Arguments toString10 : simpl never.

Lemma wrap32_id z : - two31 <= z < two31 -> wrap32 z = z.
Proof.
  unfold wrap32, two31, two32. intros H.
  rewrite Z.mod_small by lia. lia.
Qed.

Lemma wrap32_range z : - two31 <= wrap32 z < two31.
Proof.
  unfold wrap32, two31, two32.
  pose proof (Z.mod_pos_bound (z + 2147483648) 4294967296). lia.
Qed.

Lemma wrap32_mod z : wrap32 z mod two32 = z mod two32.
Proof.
  unfold wrap32, two31, two32.
  rewrite Zminus_mod_idemp_l. f_equal. lia.
Qed.

Lemma wrap32_idemp z : wrap32 (wrap32 z) = wrap32 z.
Proof. apply wrap32_id, wrap32_range. Qed.

(** A byte field of a wrapped value is the byte field of the value. *)
Lemma wrap32_field z s :
  0 <= s <= 24 -> (wrap32 z / 2 ^ s) mod 256 = (z / 2 ^ s) mod 256.
Proof.
  intros Hs.
  assert (Hq : exists q, wrap32 z = z + q * two32).
  { exists ((wrap32 z - z) / two32).
    pose proof (wrap32_mod z) as Hm.
    pose proof (Z.div_mod (wrap32 z - z) two32 ltac:(unfold two32; lia)) as Hd.
    assert ((wrap32 z - z) mod two32 = 0).
    { rewrite Zminus_mod, Hm, Z.sub_diag. reflexivity. }
    lia. }
  destruct Hq as [q ->].
  replace (q * two32) with (q * 2 ^ (32 - s) * 2 ^ s).
  2:{ rewrite <- Z.mul_assoc, <- Z.pow_add_r by lia.
      replace (32 - s + s) with 32 by lia. reflexivity. }
  rewrite Z.div_add by (apply Z.pow_nonzero; lia).
  replace (2 ^ (32 - s)) with (2 ^ (24 - s) * 256).
  2:{ change 256 with (2 ^ 8). rewrite <- Z.pow_add_r by lia.
      f_equal. lia. }
  rewrite Z.mul_assoc, Z.mod_add by lia. reflexivity.
Qed.

Lemma land_255 z : Z.land z 255 = z mod 256.
Proof. change 255 with (Z.ones 8). rewrite Z.land_ones by lia. reflexivity. Qed.

Lemma band_255 (z : Z) : band z 0xFF = z mod 256.
Proof.
  unfold band, ToInt32. rewrite (wrap32_id 255) by (unfold two31; lia).
  rewrite land_255.
  pose proof (wrap32_field z 0 ltac:(lia)) as H.
  rewrite !Z.pow_0_r, !Z.div_1_r in H. exact H.
Qed.

Lemma sar_field (z : Z) s :
  0 <= s <= 24 -> band (sar z s) 0xFF = (z / 2 ^ s) mod 256.
Proof.
  intros Hs. rewrite band_255. unfold sar, ToInt32.
  rewrite (Z.mod_small s 32) by lia.
  rewrite Z.shiftr_div_pow2 by lia. apply wrap32_field, Hs.
Qed.

Lemma lxor_byte a b : is_byte a -> is_byte b -> is_byte (Z.lxor a b).
Proof.
  unfold is_byte. intros Ha Hb. split.
  - apply Z.lxor_nonneg. lia.
  - destruct (Z.eq_dec (Z.lxor a b) 0) as [->|Hne]; [lia|].
    assert (0 <= Z.lxor a b) by (apply Z.lxor_nonneg; lia).
    change 256 with (2 ^ 8). apply Z.log2_lt_pow2; [lia|].
    pose proof (Z.log2_lxor a b ltac:(lia) ltac:(lia)) as Hl.
    assert (forall x, 0 <= x < 256 -> Z.log2 x < 8) as Hlog.
    { intros x Hx. destruct (Z.eq_dec x 0) as [->|]; [reflexivity|].
      apply Z.log2_lt_pow2; lia. }
    pose proof (Hlog a Ha). pose proof (Hlog b Hb). lia.
Qed.

Lemma ToInt32_byte b : is_byte b -> ToInt32 (Num b) = b.
Proof. unfold is_byte. intros H. apply wrap32_id. unfold two31. lia. Qed.

Lemma bxor_bytes (a b : Z) : is_byte a -> is_byte b -> bxor a b = Z.lxor a b.
Proof. intros Ha Hb. unfold bxor. rewrite !ToInt32_byte by assumption. reflexivity. Qed.

Lemma ToUint8_byte b : is_byte b -> ToUint8 (Num b) = b.
Proof. unfold is_byte. intros H. apply Z.mod_small. lia. Qed.

Lemma mod_256_byte z : is_byte (z mod 256).
Proof. unfold is_byte. apply Z.mod_pos_bound. lia. Qed.

End JSFacts.

(* ================================================================== *)
(** * Executions of the protocol engine *)
(* ================================================================== *)

Module ExecFacts.

Lemma writes_app tr1 tr2 : writes (tr1 ++ tr2) = writes tr1 ++ writes tr2.
Proof.
  induction tr1 as [|ev tr1 IH]; [reflexivity|].
  destruct ev; simpl; rewrite IH; reflexivity.
Qed.

Section Inversion.
Context {A : Type}.
Implicit Types (k : proto A) (o : outcome A).

Lemma exec_Ret_inv (a : A) tr o :
  exec (Ret a) tr o -> tr = [] /\ o = Returns a.
Proof. inversion 1; subst; auto. Qed.

Lemma exec_Throw_inv e tr o :
  exec (@Throw A e) tr o -> tr = [] /\ o = Throws e.
Proof. inversion 1; subst; auto. Qed.

Lemma exec_Flush_inv k tr o :
  exec (Flush k) tr o ->
  (exists tr', tr = EvFlush :: tr' /\ exec k tr' o)
  \/ (tr = [] /\ exists e, o = Throws e).
Proof. inversion 1; subst; eauto. Qed.

Lemma exec_Write_inv d k tr o :
  exec (Write d k) tr o ->
  (exists tr', tr = EvWrite d :: tr' /\ exec k tr' o)
  \/ (tr = [] /\ exists e, o = Throws e).
Proof. inversion 1; subst; eauto. Qed.

Lemma exec_Read_inv c t (k : list Z -> proto A) tr o :
  exec (Read c t k) tr o ->
  (exists resp tr', tr = EvRead c t resp :: tr' /\ exec (k resp) tr' o)
  \/ (tr = [] /\ exists e, o = Throws e).
Proof. inversion 1; subst; eauto. Qed.
End Inversion.

Section Bind.
Context {A B : Type} (f : A -> proto B).

Lemma exec_bind m tr1 a tr2 o :
  exec m tr1 (Returns a) -> exec (f a) tr2 o ->
  exec (m ≫= f) (tr1 ++ tr2) o.
Proof.
  unfold mbind, proto_mbind. intros Hm Hf.
  remember (Returns a) as oa eqn:Hoa.
  induction Hm; try discriminate Hoa; simpl.
  - injection Hoa as ->. exact Hf.
  - constructor. auto.
  - constructor. auto.
  - constructor. auto.
Qed.

Lemma exec_bind_Throws m tr e :
  exec m tr (Throws e) -> exec (m ≫= f) tr (Throws e).
Proof.
  unfold mbind, proto_mbind. intros Hm.
  remember (Throws e) as oe eqn:Hoe.
  induction Hm; try discriminate Hoe; simpl;
    try (injection Hoe as ->); constructor; auto.
Qed.

Lemma exec_bind_inv m tr o :
  exec (m ≫= f) tr o ->
  (exists e, exec m tr (Throws e) /\ o = Throws e)
  \/ (exists a tr1 tr2,
        tr = tr1 ++ tr2 /\ exec m tr1 (Returns a) /\ exec (f a) tr2 o).
Proof.
  unfold mbind, proto_mbind. revert tr o.
  induction m as [a|e|k IH|d k IH|c t k IH]; simpl; intros tr o H.
  - right. exists a, [], tr. repeat split; [constructor | exact H].
  - apply exec_Throw_inv in H as [-> ->].
    left. eexists. split; [constructor | reflexivity].
  - apply exec_Flush_inv in H as [(tr' & -> & H)|(-> & e & ->)].
    + destruct (IH _ _ H) as [(e & He & ->)|(a & tr1 & tr2 & -> & Ha & Hf)].
      * left. exists e. split; [constructor; exact He | reflexivity].
      * right. exists a, (EvFlush :: tr1), tr2.
        repeat split; [constructor; exact Ha | exact Hf].
    + left. exists e. split; [constructor | reflexivity].
  - apply exec_Write_inv in H as [(tr' & -> & H)|(-> & e & ->)].
    + destruct (IH _ _ H) as [(e & He & ->)|(a & tr1 & tr2 & -> & Ha & Hf)].
      * left. exists e. split; [constructor; exact He | reflexivity].
      * right. exists a, (EvWrite d :: tr1), tr2.
        repeat split; [constructor; exact Ha | exact Hf].
    + left. exists e. split; [constructor | reflexivity].
  - apply exec_Read_inv in H as [(resp & tr' & -> & H)|(-> & e & ->)].
    + destruct (IH _ _ _ H) as [(e & He & ->)|(a & tr1 & tr2 & -> & Ha & Hf)].
      * left. exists e. split; [constructor; exact He | reflexivity].
      * right. exists a, (EvRead c t resp :: tr1), tr2.
        repeat split; [constructor; exact Ha | exact Hf].
    + left. exists e. split; [constructor | reflexivity].
Qed.
End Bind.

(** Peels the interface calls off an execution of a known tree. *)
Ltac exec_inv :=
  repeat match goal with
    | H : exec (Ret _) _ _ |- _ => apply exec_Ret_inv in H as [-> ->]
    | H : exec (Throw _) _ _ |- _ => apply exec_Throw_inv in H as [-> ->]
    | H : exec (Flush _) _ _ |- _ =>
        apply exec_Flush_inv in H as [(? & -> & H)|(-> & ? & ->)]
    | H : exec (Write _ _) _ _ |- _ =>
        apply exec_Write_inv in H as [(? & -> & H)|(-> & ? & ->)]
    | H : exec (Read _ _ _) _ _ |- _ =>
        apply exec_Read_inv in H as [(? & ? & -> & H)|(-> & ? & ->)];
        [cbn in H|]
    end.

(** A write followed by a read of one acknowledgement byte: the shape of
    [sendCommand], [sendAddress] and the tail of [writeMemory]. *)
Inductive acked (frame : list Z) (tr : list event) (o : outcome unit) : Prop :=
| acked_write_rejected e : tr = [] -> o = Throws e -> acked frame tr o
| acked_read_rejected e : tr = [EvWrite frame] -> o = Throws e -> acked frame tr o
| acked_nack resp e :
    tr = [EvWrite frame; EvRead (Num 1) None resp] ->
    resp !! 0%nat <> Some AT32Protocol.ACK -> o = Throws e -> acked frame tr o
| acked_ack resp :
    tr = [EvWrite frame; EvRead (Num 1) None resp] ->
    resp !! 0%nat = Some AT32Protocol.ACK -> o = Returns tt -> acked frame tr o.

Lemma elem_is_spec (e : option Z) c :
  elem_is e c = true <-> e = Some c.
Proof.
  destruct e as [z|]; simpl; [|split; discriminate].
  rewrite Z.eqb_eq. split; congruence.
Qed.

Lemma elem_is_false (e : option Z) c :
  elem_is e c = false <-> e <> Some c.
Proof.
  rewrite <- elem_is_spec. destruct (elem_is e c); split; congruence.
Qed.

Lemma acked_writes frame tr o :
  acked frame tr o ->
  (writes tr = [] /\ exists e, o = Throws e) \/ writes tr = [frame].
Proof. intros [e -> ->|e -> ->|resp e -> _ ->|resp -> _ ->]; simpl; eauto. Qed.

Lemma acked_Returns frame tr a :
  acked frame tr (Returns a) ->
  exists resp, tr = [EvWrite frame; EvRead (Num 1) None resp]
               /\ resp !! 0%nat = Some AT32Protocol.ACK.
Proof. intros [e _ ?|e _ ?|resp e _ _ ?|resp -> ? _]; try discriminate; eauto. Qed.

End ExecFacts.

(* ================================================================== *)
(** * Properties of AT32Protocol *)
(* ================================================================== *)

Module AT32ProtocolFacts.
Import AT32Protocol ExecFacts JSFacts.

(** ** sync *)

(** C7.  [sync] flushes the transport, writes the single byte 0x7F and
    reads one byte with a timeout of 1000 ms.  Once these three calls are
    fulfilled it succeeds if and only if the byte read is ACK (0x79); the
    byte NACK (0x1F) gives the error "Received NACK during sync", any other
    byte gives an error whose message ends with the hexadecimal value of
    that byte, and the two errors are never equal. *)
Theorem sync_handshake :
  (forall tr o, exec sync tr o ->
     (exists e, o = Throws e /\
        (tr = [] \/ tr = [EvFlush] \/ tr = [EvFlush; EvWrite [0x7F]]))
     \/ exists resp,
          tr = [EvFlush; EvWrite [0x7F]; EvRead (Num 1) (Some 1000) resp]
          /\ (o = Returns tt <-> resp !! 0%nat = Some ACK)
          /\ (resp !! 0%nat = Some NACK ->
              o = Throws (Error "Received NACK during sync"))
          /\ (forall b, resp !! 0%nat = Some b -> b <> ACK -> b <> NACK ->
              o = Throws (Error ("Sync failed. Expected 0x79, got 0x"
                                 +++ toString16 b))))
  /\ (forall resp, exists o,
        exec sync [EvFlush; EvWrite [0x7F]; EvRead (Num 1) (Some 1000) resp] o)
  /\ (forall b, Error "Received NACK during sync"
                <> Error ("Sync failed. Expected 0x79, got 0x" +++ toString16 b))
  /\ ACK = 0x79 /\ NACK = 0x1F.
Proof.
  split; [|split; [|split; [|split; reflexivity]]].
  - intros tr o H. unfold sync in H. cbn in H.
    apply exec_Flush_inv in H as [(tr1 & -> & H)|(-> & e & ->)]; [|eauto 6].
    apply exec_Write_inv in H as [(tr2 & -> & H)|(-> & e & ->)]; [|eauto 6].
    apply exec_Read_inv in H as [(resp & tr3 & -> & H)|(-> & e & ->)];
      [|eauto 7].
    cbn in H. right. exists resp.
    destruct (resp !! 0%nat) as [b|] eqn:Hb; cbn in H.
    + destruct (b =? ACK) eqn:Hack; cbn in H.
      * apply Z.eqb_eq in Hack as ->. exec_inv.
        split; [reflexivity|]. split; [tauto|]. split.
        -- intros [=].
        -- intros b0 [= <-] Hne. congruence.
      * apply Z.eqb_neq in Hack.
        destruct (b =? NACK) eqn:Hnack; exec_inv.
        -- apply Z.eqb_eq in Hnack as ->.
           split; [reflexivity|]. split; [split; [discriminate|congruence]|].
           split; [reflexivity|]. intros b0 [= <-] _ Hne. congruence.
        -- apply Z.eqb_neq in Hnack.
           split; [reflexivity|]. split; [split; [discriminate|congruence]|].
           split; [congruence|]. intros b0 [= <-] _ _. reflexivity.
    + exec_inv.
      split; [reflexivity|]. split; [split; discriminate|].
      split; [discriminate|]. intros b0 [=].
  - intros resp. unfold sync. cbn.
    destruct (resp !! 0%nat) as [b|] eqn:Hb;
      [destruct (b =? ACK) eqn:Hack; [|destruct (b =? NACK) eqn:Hnack]|];
      eexists; do 3 constructor; rewrite Hb; cbn;
      rewrite ?Hack, ?Hnack; cbn; constructor.
  - intros b. cbn. discriminate.
Qed.

Lemma sync_handshake_witness :
  exec sync [EvFlush; EvWrite [0x7F]; EvRead (Num 1) (Some 1000) [0x79]]
    (Returns tt).
Proof.
  destruct sync_handshake as (Hall & Hsome & _).
  destruct (Hsome [0x79]) as [o Ho].
  destruct (Hall _ _ Ho) as [(e & _ & [E|[E|E]])|(resp & E & Hiff & _)];
    try discriminate E.
  injection E as <-.
  assert (o = Returns tt) as -> by (apply Hiff; reflexivity).
  exact Ho.
Defined.

(** ** sendCommand and sendAddress *)

Definition command_frame (cmd : Z) : list Z :=
  Uint8Array_of [Num cmd; Num (bxor cmd 0xFF)].

Lemma exec_sendCommand cmd tr o :
  exec (sendCommand cmd) tr o -> acked (command_frame cmd) tr o.
Proof.
  intros H. unfold sendCommand in H. cbn in H.
  apply exec_Write_inv in H as [(tr1 & -> & H)|(-> & e & ->)];
    [|eapply acked_write_rejected; reflexivity].
  apply exec_Read_inv in H as [(resp & tr2 & -> & H)|(-> & e & ->)];
    [|eapply acked_read_rejected; reflexivity].
  cbn in H.
  destruct (elem_is (resp !! 0%nat) ACK) eqn:Hack; cbn in H.
  - exec_inv. eapply acked_ack; [reflexivity| |reflexivity].
    apply elem_is_spec, Hack.
  - apply elem_is_false in Hack.
    destruct (resp !! 0%nat) eqn:E; cbn in H; exec_inv;
      (eapply acked_nack; [reflexivity|rewrite E; exact Hack|reflexivity]).
Qed.

Lemma exec_sendCommand_ack cmd :
  exec (sendCommand cmd)
    [EvWrite (command_frame cmd); EvRead (Num 1) None [ACK]] (Returns tt).
Proof. unfold sendCommand. cbn. repeat constructor. Qed.

(** The five bytes that [sendAddress] hands to [write]. *)
Definition address_frame (addr : number) : list Z :=
  let b3 := band (sar addr 24) 0xFF in
  let b2 := band (sar addr 16) 0xFF in
  let b1 := band (sar addr 8) 0xFF in
  let b0 := band addr 0xFF in
  Uint8Array_of
    [Num b3; Num b2; Num b1; Num b0; Num (bxor (bxor (bxor b3 b2) b1) b0)].

Lemma exec_sendAddress addr tr o :
  exec (sendAddress addr) tr o -> acked (address_frame addr) tr o.
Proof.
  intros H. unfold sendAddress in H. cbn in H.
  apply exec_Write_inv in H as [(tr1 & -> & H)|(-> & e & ->)];
    [|eapply acked_write_rejected; reflexivity].
  apply exec_Read_inv in H as [(resp & tr2 & -> & H)|(-> & e & ->)];
    [|eapply acked_read_rejected; reflexivity].
  cbn in H.
  destruct (elem_is (resp !! 0%nat) ACK) eqn:Hack; cbn in H; exec_inv.
  - eapply acked_ack; [reflexivity| |reflexivity].
    apply elem_is_spec, Hack.
  - apply elem_is_false in Hack.
    eapply acked_nack; [reflexivity| |reflexivity]. congruence.
Qed.

Lemma exec_sendAddress_ack addr :
  exec (sendAddress addr)
    [EvWrite (address_frame addr); EvRead (Num 1) None [ACK]] (Returns tt).
Proof. unfold sendAddress. cbn. repeat constructor. Qed.

Lemma address_frame_32bit (a : Z) :
  0 <= a < 2 ^ 32 ->
  let b3 := a / 2 ^ 24 in
  let b2 := (a / 2 ^ 16) mod 256 in
  let b1 := (a / 2 ^ 8) mod 256 in
  let b0 := a mod 256 in
  address_frame (Num a)
  = [b3; b2; b1; b0; Z.lxor (Z.lxor (Z.lxor b3 b2) b1) b0]
  /\ Forall is_byte [b3; b2; b1; b0].
Proof.
  intros Ha b3 b2 b1 b0.
  assert (Hb3 : is_byte b3).
  { unfold is_byte, b3. split.
    - apply Z.div_pos; lia.
    - apply Z.div_lt_upper_bound; lia. }
  assert (Hb2 : is_byte b2) by apply mod_256_byte.
  assert (Hb1 : is_byte b1) by apply mod_256_byte.
  assert (Hb0 : is_byte b0) by apply mod_256_byte.
  split; [|repeat (apply Forall_cons_2; [assumption|]); apply Forall_nil_2].
  unfold address_frame.
  rewrite !sar_field by lia. rewrite band_255.
  rewrite (Z.mod_small (a / 2 ^ 24) 256) by exact Hb3.
  fold b3 b2 b1 b0.
  rewrite (bxor_bytes b3 b2) by assumption.
  rewrite (bxor_bytes _ b1) by (try apply lxor_byte; assumption).
  rewrite (bxor_bytes _ b0) by (repeat apply lxor_byte; assumption).
  unfold Uint8Array_of. cbn [map].
  rewrite !ToUint8_byte by (repeat apply lxor_byte; assumption).
  reflexivity.
Qed.

(** C4.  For every 32-bit address, [sendAddress] writes exactly five
    bytes: the four address bytes, most significant first, followed by the
    XOR of the four; it writes nothing else, and then reads one byte.  For
    the address 0x08000000 the bytes are 08 00 00 00 08. *)
Theorem sendAddress_bytes (a : Z) :
  0 <= a < 2 ^ 32 ->
  let b3 := a / 2 ^ 24 in
  let b2 := (a / 2 ^ 16) mod 256 in
  let b1 := (a / 2 ^ 8) mod 256 in
  let b0 := a mod 256 in
  let frame := [b3; b2; b1; b0; Z.lxor (Z.lxor (Z.lxor b3 b2) b1) b0] in
  Forall is_byte frame
  /\ a = b3 * 2 ^ 24 + b2 * 2 ^ 16 + b1 * 2 ^ 8 + b0
  /\ (exists k, sendAddress (Num a) = Write frame (Read (Num 1) None k))
  /\ (forall tr o, exec (sendAddress (Num a)) tr o ->
        (tr = [] /\ exists e, o = Throws e) \/ writes tr = [frame])
  /\ exec (sendAddress (Num a))
       [EvWrite frame; EvRead (Num 1) None [ACK]] (Returns tt)
  /\ (a = 0x08000000 -> frame = [0x08; 0x00; 0x00; 0x00; 0x08]).
Proof.
  intros Ha b3 b2 b1 b0 frame.
  destruct (address_frame_32bit a Ha) as [Hframe Hbytes].
  fold b3 b2 b1 b0 in Hframe, Hbytes. fold frame in Hframe.
  split; [|split; [|split; [|split; [|split]]]].
  - unfold frame. apply Forall_app with (l1 := [b3; b2; b1; b0]) (l2 := [_]).
    split; [exact Hbytes|]. constructor; [|constructor].
    inversion Hbytes as [|? ? H3 Hbytes']; subst.
    inversion Hbytes' as [|? ? H2 Hbytes'']; subst.
    inversion Hbytes'' as [|? ? H1 Hbytes''']; subst.
    inversion Hbytes''' as [|? ? H0 _]; subst.
    repeat apply lxor_byte; assumption.
  - unfold b3, b2, b1, b0.
    pose proof (Z.div_mod a (2 ^ 8) ltac:(lia)) as E0.
    pose proof (Z.div_mod (a / 2 ^ 8) (2 ^ 8) ltac:(lia)) as E1.
    pose proof (Z.div_mod (a / 2 ^ 8 / 2 ^ 8) (2 ^ 8) ltac:(lia)) as E2.
    rewrite !Z.div_div in E1, E2 by lia.
    rewrite !Z.div_div in E2 by lia.
    change (2 ^ 8 * 2 ^ 8) with (2 ^ 16) in *.
    change (2 ^ 16 * 2 ^ 8) with (2 ^ 24) in *.
    change (2 ^ 8) with 256 in *.
    assert (a / 2 ^ 24 < 256) by (apply Z.div_lt_upper_bound; lia).
    assert (0 <= a / 2 ^ 24) by (apply Z.div_pos; lia).
    lia.
  - eexists. unfold sendAddress. fold (address_frame (Num a)).
    rewrite Hframe. reflexivity.
  - intros tr o H. apply exec_sendAddress in H. rewrite Hframe in H.
    destruct H as [e -> ->|e -> ->|resp e -> _ ->|resp -> _ ->]; eauto.
  - rewrite <- Hframe. apply exec_sendAddress_ack.
  - intros ->. reflexivity.
Qed.

Lemma sendAddress_bytes_witness :
  exec (sendAddress (Num 0x08000000))
    [EvWrite [0x08; 0x00; 0x00; 0x00; 0x08]; EvRead (Num 1) None [ACK]]
    (Returns tt).
Proof.
  pose proof (sendAddress_bytes 0x08000000 ltac:(lia)) as H.
  cbv zeta in H. destruct H as (_ & _ & _ & _ & H & _).
  exact H.
Defined.

(** ** writeMemory *)

#[global] Arguments writeMemory_frame : simpl never.

Lemma writeMemory_loop_spec rest : forall pre n0 cs,
  Forall is_byte rest -> is_byte cs ->
  writeMemory_loop (pre ++ rest) (length rest) (length pre)
    (n0 :: pre ++ replicate (length rest + 1) 0) cs
  = (n0 :: pre ++ rest ++ [0], fold_left Z.lxor rest cs).
Proof.
  induction rest as [|d rest IH]; intros pre n0 cs Hrest Hcs.
  - reflexivity.
  - apply Forall_cons in Hrest as [Hd Hrest].
    cbn [length writeMemory_loop].
    assert (Hlt : (Z.of_nat (length pre)
                   <? Z.of_nat (length (pre ++ d :: rest))) = true).
    { apply Z.ltb_lt. rewrite length_app. cbn [length]. lia. }
    rewrite Hlt.
    rewrite list_lookup_middle by reflexivity. cbn [ToNumber].
    rewrite bxor_bytes by assumption.
    unfold store. rewrite ToUint8_byte by assumption.
    replace (<[(length pre + 1)%nat := d]>
               (n0 :: pre ++ replicate (S (length rest) + 1) 0))
      with (n0 :: (pre ++ [d]) ++ replicate (length rest + 1) 0).
    2:{ change (n0 :: pre ++ replicate (S (length rest) + 1) 0)
          with ((n0 :: pre) ++ 0 :: replicate (length rest + 1) 0).
        replace (length pre + 1)%nat with (length (n0 :: pre) + 0)%nat
          by (cbn [length]; lia).
        rewrite insert_app_r. cbn [insert list_insert].
        rewrite <- app_assoc. reflexivity. }
    replace (S (length pre)) with (length (pre ++ [d]))
      by (rewrite length_app; cbn [length]; lia).
    replace (pre ++ d :: rest) with ((pre ++ [d]) ++ rest)
      by (rewrite <- app_assoc; reflexivity).
    rewrite IH by (try apply lxor_byte; assumption).
    rewrite <- app_assoc. reflexivity.
Qed.

Lemma fold_lxor_byte data : forall cs,
  Forall is_byte data -> is_byte cs -> is_byte (fold_left Z.lxor data cs).
Proof.
  induction data as [|d data IH]; intros cs Hdata Hcs; [exact Hcs|].
  apply Forall_cons in Hdata as [Hd Hdata].
  cbn [fold_left]. apply IH; [assumption|]. apply lxor_byte; assumption.
Qed.

Lemma writeMemory_frame_spec data :
  Forall is_byte data -> (1 <= length data <= 256)%nat ->
  let n := Z.of_nat (length data) - 1 in
  writeMemory_frame data = n :: data ++ [fold_left Z.lxor data n].
Proof.
  intros Hdata Hlen n. unfold writeMemory_frame. fold n.
  assert (Hn : is_byte n) by (unfold is_byte, n; lia).
  unfold Uint8Array_new.
  replace (length data + 2)%nat with (S (length data + 1)) by lia.
  cbn [replicate]. unfold store at 1. cbn [insert list_insert].
  rewrite ToUint8_byte by exact Hn.
  pose proof (writeMemory_loop_spec data [] n n Hdata Hn) as Hloop.
  cbn [app length] in Hloop. rewrite Hloop.
  unfold store. rewrite ToUint8_byte by (apply fold_lxor_byte; assumption).
  change (n :: data ++ [0]) with ((n :: data) ++ [0]).
  replace (length data + 1)%nat with (length (n :: data) + 0)%nat
    by (cbn [length]; lia).
  rewrite insert_app_r. reflexivity.
Qed.

Lemma command_frame_WRITE_MEMORY : command_frame CMD.WRITE_MEMORY = [0x31; 0xCE].
Proof. reflexivity. Qed.

Lemma command_frame_GET_ID : command_frame CMD.GET_ID = [0x02; 0xFD].
Proof. reflexivity. Qed.

Lemma writeMemory_valid address data :
  (1 <= length data <= 256)%nat ->
  writeMemory address data =
    (sendCommand CMD.WRITE_MEMORY;;
     sendAddress address;;
     Write (writeMemory_frame data)
       (Read (Num 1) None (fun ack =>
          if negb (elem_is (ack !! 0%nat) ACK) then
            Throw (Error "WriteMemory: NACK during data write")
          else Ret tt))).
Proof.
  intros Hlen. unfold writeMemory.
  replace (Z.of_nat (length data) >? 256) with false by (symmetry; lia).
  replace (Z.of_nat (length data) =? 0) with false by (symmetry; lia).
  reflexivity.
Qed.

Lemma exec_write_ack frame msg tr o :
  exec (Write frame
          (Read (Num 1) None (fun ack =>
             if negb (elem_is (ack !! 0%nat) ACK) then Throw (Error msg)
             else Ret tt))) tr o ->
  acked frame tr o.
Proof.
  intros H.
  apply exec_Write_inv in H as [(tr1 & -> & H)|(-> & e & ->)];
    [|eapply acked_write_rejected; reflexivity].
  apply exec_Read_inv in H as [(resp & tr2 & -> & H)|(-> & e & ->)];
    [|eapply acked_read_rejected; reflexivity].
  cbn in H.
  destruct (elem_is (resp !! 0%nat) ACK) eqn:Hack; cbn in H; exec_inv.
  - eapply acked_ack; [reflexivity| |reflexivity].
    apply elem_is_spec, Hack.
  - apply elem_is_false in Hack.
    eapply acked_nack; [reflexivity|exact Hack|reflexivity].
Qed.

(** The writes of three acknowledged exchanges in sequence. *)
Lemma exec_writeMemory_writes address data tr o :
  (1 <= length data <= 256)%nat ->
  exec (writeMemory address data) tr o ->
  writes tr `prefix_of`
    [command_frame CMD.WRITE_MEMORY; address_frame address;
     writeMemory_frame data]
  /\ (o = Returns tt ->
      writes tr = [command_frame CMD.WRITE_MEMORY; address_frame address;
                   writeMemory_frame data]).
Proof.
  intros Hlen H. rewrite writeMemory_valid in H by exact Hlen.
  apply exec_bind_inv in H
    as [(e & H & ->)|([] & tr1 & tr' & -> & H1 & H)].
  { apply exec_sendCommand, acked_writes in H as [[-> _]| ->];
      (split; [|discriminate]).
    - apply prefix_nil.
    - exists [address_frame address; writeMemory_frame data]. reflexivity. }
  apply exec_sendCommand, acked_Returns in H1 as (r1 & -> & _).
  apply exec_bind_inv in H
    as [(e & H & ->)|([] & tr2 & tr'' & -> & H2 & H)].
  { apply exec_sendAddress, acked_writes in H as [[Hw _]|Hw];
      cbn [app writes]; rewrite Hw; (split; [|discriminate]).
    - exists [address_frame address; writeMemory_frame data]. reflexivity.
    - exists [writeMemory_frame data]. reflexivity. }
  apply exec_sendAddress, acked_Returns in H2 as (r2 & -> & _).
  apply exec_write_ack in H. cbn [app writes].
  destruct H as [e -> ->|e -> ->|resp e -> _ ->|resp -> _ ->];
    cbn [writes]; (split; [|try discriminate; reflexivity]).
  - exists [writeMemory_frame data]. reflexivity.
  - exists []. reflexivity.
  - exists []. reflexivity.
  - exists []. reflexivity.
Qed.

Lemma exec_writeMemory_ack address data :
  (1 <= length data <= 256)%nat ->
  exec (writeMemory address data)
    [EvWrite (command_frame CMD.WRITE_MEMORY); EvRead (Num 1) None [ACK];
     EvWrite (address_frame address); EvRead (Num 1) None [ACK];
     EvWrite (writeMemory_frame data); EvRead (Num 1) None [ACK]]
    (Returns tt).
Proof.
  intros Hlen. rewrite writeMemory_valid by exact Hlen.
  eapply (exec_bind _ _ [_; _] tt).
  { apply exec_sendCommand_ack. }
  eapply (exec_bind _ _ [_; _] tt).
  { apply exec_sendAddress_ack. }
  repeat constructor.
Qed.

(** C1.  For every address and every array [data] of bytes: when
    [1 <= data.length <= 256], [writeMemory] writes the command frame
    31 CE, then the five address bytes, then exactly one frame
    [n, data..., checksum] with [n = data.length - 1] and [checksum] the
    XOR of [n] and all the data bytes; whatever the device answers, what it
    writes is an initial part of these three arrays, and all three are
    written whenever it returns.  When [data.length] is 0 or exceeds 256 it
    throws the error "Invalid write length" without calling the serial
    interface at all. *)
Theorem writeMemory_frames (address : number) (data : list Z) :
  Forall is_byte data ->
  let n := Z.of_nat (length data) - 1 in
  let checksum := fold_left Z.lxor data n in
  let frame := n :: data ++ [checksum] in
  let sent := [[0x31; 0xCE]; address_frame address; frame] in
  ((1 <= length data <= 256)%nat ->
     Forall is_byte frame
     /\ length (address_frame address) = 5%nat
     /\ (forall tr o, exec (writeMemory address data) tr o ->
           writes tr `prefix_of` sent)
     /\ (forall tr, exec (writeMemory address data) tr (Returns tt) ->
           writes tr = sent)
     /\ exec (writeMemory address data)
          [EvWrite [0x31; 0xCE]; EvRead (Num 1) None [ACK];
           EvWrite (address_frame address); EvRead (Num 1) None [ACK];
           EvWrite frame; EvRead (Num 1) None [ACK]]
          (Returns tt))
  /\ (length data = 0%nat \/ (256 < length data)%nat ->
      writeMemory address data = Throw (Error "Invalid write length")
      /\ forall tr o, exec (writeMemory address data) tr o ->
           tr = [] /\ o = Throws (Error "Invalid write length")).
Proof.
  intros Hdata n checksum frame sent. split.
  - intros Hlen.
    pose proof (writeMemory_frame_spec data Hdata Hlen) as Hframe.
    cbv zeta in Hframe. fold n in Hframe. fold checksum in Hframe.
    fold frame in Hframe.
    assert (Hn : is_byte n) by (unfold is_byte, n; lia).
    split; [|split; [reflexivity|split; [|split]]].
    + unfold frame. apply Forall_cons_2; [exact Hn|].
      apply Forall_app. split; [exact Hdata|].
      apply Forall_cons_2; [|apply Forall_nil_2].
      apply fold_lxor_byte; assumption.
    + intros tr o H.
      apply exec_writeMemory_writes in H as [H _]; [|exact Hlen].
      rewrite Hframe in H. exact H.
    + intros tr H.
      apply exec_writeMemory_writes in H as [_ H]; [|exact Hlen].
      rewrite Hframe in H. apply H. reflexivity.
    + pose proof (exec_writeMemory_ack address data Hlen) as H.
      rewrite Hframe in H. exact H.
  - intros Hlen.
    assert (E : writeMemory address data = Throw (Error "Invalid write length")).
    { unfold writeMemory.
      destruct Hlen as [Hlen|Hlen].
      - rewrite Hlen. reflexivity.
      - replace (Z.of_nat (length data) >? 256) with true by (symmetry; lia).
        reflexivity. }
    split; [exact E|]. intros tr o H. rewrite E in H.
    apply exec_Throw_inv in H. exact H.
Qed.

Lemma writeMemory_frames_witness :
  exec (writeMemory (Num 0x08000000) [1; 2; 3])
    [EvWrite [0x31; 0xCE]; EvRead (Num 1) None [ACK];
     EvWrite [0x08; 0x00; 0x00; 0x00; 0x08]; EvRead (Num 1) None [ACK];
     EvWrite [2; 1; 2; 3; 2]; EvRead (Num 1) None [ACK]]
    (Returns tt).
Proof.
  assert (Hbytes : Forall is_byte [1; 2; 3]).
  { repeat (apply Forall_cons_2; [unfold is_byte; lia|]). apply Forall_nil_2. }
  pose proof (writeMemory_frames (Num 0x08000000) [1; 2; 3] Hbytes) as H.
  cbv zeta in H. destruct H as [H _].
  destruct (H ltac:(cbn; lia)) as (_ & _ & _ & _ & Hexec).
  exact Hexec.
Defined.

(** ** getID *)

Lemma lor_mod32 a b :
  Z.lor a b mod two32 = Z.lor (a mod two32) (b mod two32).
Proof.
  change two32 with (2 ^ 32). rewrite <- !Z.land_ones by lia.
  apply Z.land_lor_distr_l.
Qed.

Lemma ushr0_bor (x y : Z) :
  ushr0 (Num (bor (Num x) (Num y))) = Z.lor (x mod two32) (y mod two32).
Proof.
  unfold ushr0, bor, ToInt32.
  rewrite wrap32_mod, lor_mod32, !wrap32_mod. reflexivity.
Qed.

Lemma bor_mod32 (x y : Z) :
  bor (Num x) (Num y) mod two32 = Z.lor (x mod two32) (y mod two32).
Proof.
  unfold bor, ToInt32. rewrite lor_mod32, !wrap32_mod. reflexivity.
Qed.

Lemma shl_byte_mod32 (b : Z) s :
  is_byte b -> 0 <= s <= 24 ->
  shl (Num b) s mod two32 = Z.shiftl b s.
Proof.
  intros Hb Hs. unfold shl. rewrite ToInt32_byte by exact Hb.
  rewrite (Z.mod_small s 32) by lia. rewrite wrap32_mod.
  apply Z.mod_small. rewrite Z.shiftl_mul_pow2 by lia.
  unfold is_byte in Hb. unfold two32. split; [apply Z.mul_nonneg_nonneg; lia|].
  assert (2 ^ s <= 2 ^ 24) by (apply Z.pow_le_mono_r; lia).
  change 4294967296 with (256 * 2 ^ 24). nia.
Qed.

(** The value [getID] computes from the array [idBytes]. *)
Definition pid_of (idBytes : list Z) : Z :=
  ushr0 (Num
    (bor (Num (bor (Num (bor (Num (shl (ToNumber (idBytes !! 2%nat)) 24))
                              (Num (shl (ToNumber (idBytes !! 3%nat)) 16))))
                   (Num (shl (ToNumber (idBytes !! 0%nat)) 8))))
         (ToNumber (idBytes !! 1%nat)))).

Lemma pid_of_bytes i0 i1 i2 i3 i4 :
  Forall is_byte [i0; i1; i2; i3; i4] ->
  pid_of [i0; i1; i2; i3; i4]
  = Z.lor (Z.lor (Z.lor (Z.shiftl i2 24) (Z.shiftl i3 16)) (Z.shiftl i0 8)) i1
  /\ 0 <= pid_of [i0; i1; i2; i3; i4] < 2 ^ 32.
Proof.
  intros H.
  apply Forall_cons in H as [H0 H]. apply Forall_cons in H as [H1 H].
  apply Forall_cons in H as [H2 H]. apply Forall_cons in H as [H3 H].
  split.
  - unfold pid_of. cbn [lookup list_lookup ToNumber].
    rewrite ushr0_bor, bor_mod32, bor_mod32.
    rewrite !shl_byte_mod32 by (assumption || lia).
    rewrite (Z.mod_small i1) by (unfold is_byte in H1; unfold two32; lia).
    reflexivity.
  - unfold pid_of, ushr0. change (2 ^ 32) with two32.
    apply Z.mod_pos_bound. reflexivity.
Qed.

Lemma exec_getID tr o :
  exec getID tr o ->
  (exists e, o = Throws e)
  \/ exists ack1 lenBuf idBytes ack2,
       tr = [EvWrite [0x02; 0xFD]; EvRead (Num 1) None ack1;
             EvRead (Num 1) None lenBuf;
             EvRead (add (ToNumber (lenBuf !! 0%nat)) (Num 1)) None idBytes;
             EvRead (Num 1) None ack2]
       /\ ack1 !! 0%nat = Some ACK /\ ack2 !! 0%nat = Some ACK
       /\ o = Returns {| pid := pid_of idBytes; projectID := idBytes !! 4%nat |}.
Proof.
  intros H. unfold getID in H.
  apply exec_bind_inv in H
    as [(e & H & ->)|([] & tr1 & tr' & -> & H1 & H)]; [eauto|].
  apply exec_sendCommand, acked_Returns in H1 as (ack1 & -> & Hack1).
  cbn in H.
  apply exec_Read_inv in H as [(lenBuf & tr2 & -> & H)|(-> & e & ->)]; [|eauto].
  cbn in H.
  apply exec_Read_inv in H as [(idBytes & tr3 & -> & H)|(-> & e & ->)]; [|eauto].
  cbn in H.
  apply exec_Read_inv in H as [(ack2 & tr4 & -> & H)|(-> & e & ->)]; [|eauto].
  cbn in H.
  destruct (elem_is (ack2 !! 0%nat) ACK) eqn:Hack2; cbn in H; exec_inv;
    [|eauto].
  right. exists ack1, lenBuf, idBytes, ack2.
  apply elem_is_spec in Hack2.
  split; [reflexivity|]. split; [exact Hack1|]. split; [exact Hack2|].
  unfold pid_of. reflexivity.
Qed.

Lemma exec_getID_ack n idBytes :
  exec getID
    [EvWrite [0x02; 0xFD]; EvRead (Num 1) None [ACK];
     EvRead (Num 1) None [n]; EvRead (Num (n + 1)) None idBytes;
     EvRead (Num 1) None [ACK]]
    (Returns {| pid := pid_of idBytes; projectID := idBytes !! 4%nat |}).
Proof.
  unfold getID, pid_of.
  eapply (exec_bind _ _ [_; _] tt); [apply exec_sendCommand_ack|].
  cbn. repeat constructor.
Qed.

(** C2.  For every five-byte identification payload, [getID] returns
    [pid = (byte2 << 24) | (byte3 << 16) | (byte0 << 8) | byte1], which is a
    value in [0, 2^32), and returns byte 4 as the project id. *)
Theorem getID_reassembly (i0 i1 i2 i3 i4 : Z) :
  Forall is_byte [i0; i1; i2; i3; i4] ->
  let expected :=
    Z.lor (Z.lor (Z.lor (Z.shiftl i2 24) (Z.shiftl i3 16)) (Z.shiftl i0 8)) i1 in
  0 <= expected < 2 ^ 32
  /\ (forall tr r c t,
        exec getID tr (Returns r) ->
        tr !! 3%nat = Some (EvRead c t [i0; i1; i2; i3; i4]) ->
        pid r = expected /\ projectID r = Some i4)
  /\ exec getID
       [EvWrite [0x02; 0xFD]; EvRead (Num 1) None [ACK];
        EvRead (Num 1) None [4]; EvRead (Num 5) None [i0; i1; i2; i3; i4];
        EvRead (Num 1) None [ACK]]
       (Returns {| pid := expected; projectID := Some i4 |}).
Proof.
  intros Hbytes expected.
  destruct (pid_of_bytes _ _ _ _ _ Hbytes) as [Hpid Hrange].
  fold expected in Hpid. rewrite Hpid in Hrange.
  split; [exact Hrange|split].
  - intros tr r c t H Hread.
    apply exec_getID in H as [(e & [=])|(a1 & lb & ib & a2 & -> & _ & _ & [= ->])].
    cbn in Hread. injection Hread as _ _ ->.
    cbn [pid projectID]. split; [exact Hpid|reflexivity].
  - rewrite <- Hpid. apply (exec_getID_ack 4).
Qed.

Lemma getID_reassembly_witness :
  exec getID
    [EvWrite [0x02; 0xFD]; EvRead (Num 1) None [ACK];
     EvRead (Num 1) None [4]; EvRead (Num 5) None [0x12; 0x34; 0xAB; 0xCD; 0x07];
     EvRead (Num 1) None [ACK]]
    (Returns {| pid := 0xABCD1234; projectID := Some 0x07 |}).
Proof.
  assert (Hbytes : Forall is_byte [0x12; 0x34; 0xAB; 0xCD; 0x07]).
  { repeat (apply Forall_cons_2; [unfold is_byte; lia|]). apply Forall_nil_2. }
  pose proof (getID_reassembly 0x12 0x34 0xAB 0xCD 0x07 Hbytes) as H.
  cbv zeta in H. destruct H as (_ & _ & H). exact H.
Defined.

(** The exchange of the specification's example: the device acknowledges
    the command, then sends 04 41 54 33 32 01 79. *)
Definition example_exchange : list event :=
  [EvWrite [0x02; 0xFD]; EvRead (Num 1) None [0x79];
   EvRead (Num 1) None [0x04];
   EvRead (Num 5) None [0x41; 0x54; 0x33; 0x32; 0x01];
   EvRead (Num 1) None [0x79]].

Definition example_state : WebSerialInterface.state :=
  {| WebSerialInterface.portOpen := true;
     WebSerialInterface.keepReading := true;
     WebSerialInterface.buffer :=
       [0x79; 0x04; 0x41; 0x54; 0x33; 0x32; 0x01; 0x79];
     WebSerialInterface.now := 0;
     WebSerialInterface.wire := [] |}.

(** C3, as the code has it.  Given the device bytes 04 41 54 33 32 01 79
    after the acknowledgement of the command, [getID] returns the product
    id 0x33324154 (byte 2, byte 3, byte 0, byte 1) and the project id 1. *)
Theorem getID_example :
  (forall o, exec getID example_exchange o ->
     o = Returns {| pid := 0x33324154; projectID := Some 1 |})
  /\ exec getID example_exchange
       (Returns {| pid := 0x33324154; projectID := Some 1 |})
  /\ (forall sched,
        WebSerialInterface.run getID example_state sched
        = (WebSerialInterface.Settled
             (Returns {| pid := 0x33324154; projectID := Some 1 |}),
           {| WebSerialInterface.portOpen := true;
              WebSerialInterface.keepReading := true;
              WebSerialInterface.buffer := [];
              WebSerialInterface.now := 0;
              WebSerialInterface.wire := [[0x02; 0xFD]] |},
           sched)).
Proof.
  split; [|split].
  - intros o H. unfold getID, example_exchange in H. cbn in H.
    repeat match goal with
      | H : exec (Write _ _) (_ :: _) _ |- _ => inversion H; subst; clear H
      | H : exec (Read _ _ _) (_ :: _) _ |- _ =>
          inversion H; subst; clear H; cbn in *
      | H : exec (Ret _) _ _ |- _ => inversion H; subst; clear H
      end.
    vm_compute. reflexivity.
  - apply (exec_getID_ack 4).
  - intros [|t sched]; vm_compute; reflexivity.
Qed.

Lemma getID_example_witness :
  fst (fst (WebSerialInterface.run getID example_state []))
  = WebSerialInterface.Settled
      (Returns {| pid := 0x33324154; projectID := Some 1 |}).
Proof.
  destruct getID_example as (_ & _ & Hrun).
  rewrite Hrun. reflexivity.
Defined.

(** On these bytes [getID] returns 0x33324154; the product id of the
    specification's example, 0x33325441, is not what it returns. *)
Lemma getID_example_not_33325441 :
  exec getID example_exchange
    (Returns {| pid := 0x33324154; projectID := Some 1 |})
  /\ ~ exec getID example_exchange
        (Returns {| pid := 0x33325441; projectID := Some 1 |}).
Proof.
  split; [apply (exec_getID_ack 4)|].
  intros H.
  apply exec_getID in H as [(e & [=])|(a1 & lb & ib & a2 & E & _ & _ & R)].
  unfold example_exchange in E. inversion E; subst.
  vm_compute in R. discriminate R.
Qed.

End AT32ProtocolFacts.

(* ================================================================== *)
(** * Properties of WebSerialInterface *)
(* ================================================================== *)

Module WebSerialInterfaceFacts.
Import WebSerialInterface JSFacts.

#[global] Arguments number_toString : simpl never.

Lemma push_all_app value : forall buffer,
  push_all buffer value = buffer ++ value.
Proof.
  induction value as [|v value IH]; intros buffer; cbn [push_all].
  - rewrite app_nil_r. reflexivity.
  - rewrite IH, <- app_assoc. reflexivity.
Qed.

Lemma chunks_buffer chunks : forall st,
  buffer (fold_left (fun s value => readLoop_chunk value s) chunks st)
  = buffer st ++ concat chunks.
Proof.
  induction chunks as [|value chunks IH]; intros st; cbn [fold_left concat].
  - rewrite app_nil_r. reflexivity.
  - rewrite IH. cbn [readLoop_chunk buffer].
    rewrite push_all_app, <- app_assoc. reflexivity.
Qed.

Lemma chunks_wire chunks : forall st,
  wire (fold_left (fun s value => readLoop_chunk value s) chunks st) = wire st.
Proof.
  induction chunks as [|value chunks IH]; intros st; cbn [fold_left];
    [reflexivity|]. rewrite IH. reflexivity.
Qed.

Lemma sleep_buffer t st : buffer (sleep t st) = buffer st ++ concat (arrived t).
Proof. unfold sleep. cbn [buffer]. apply chunks_buffer. Qed.

Lemma sleep_wire t st : wire (sleep t st) = wire st.
Proof. unfold sleep. cbn [wire]. apply chunks_wire. Qed.

Lemma arrivals_cons t ticks :
  arrivals (t :: ticks) = concat (arrived t) ++ arrivals ticks.
Proof. unfold arrivals. cbn [map concat]. apply concat_app. Qed.

Lemma arrivals_app ticks1 ticks2 :
  arrivals (ticks1 ++ ticks2) = arrivals ticks1 ++ arrivals ticks2.
Proof.
  unfold arrivals. rewrite map_app, !concat_app. reflexivity.
Qed.

(** The message of the error that [read] throws on a timeout. *)
Definition timeout_message (count : number) (got : nat) : string :=
  "Timeout reading " +++ number_toString count +++ " bytes. Got "
  +++ toString10 (Z.of_nat got) +++ ".".

(** What the waiting loop of [read] guarantees when it leaves. *)
Lemma read_wait_spec sched : forall count timeoutMs startTime st c st' sched',
  read_wait count timeoutMs startTime sched st = (c, st', sched') ->
  exists slept,
    sched = slept ++ sched'
    /\ buffer st' = buffer st ++ arrivals slept
    /\ wire st' = wire st
    /\ match c with
       | Settled (Returns _) =>
           lt (Num (Z.of_nat (length (buffer st')))) count = false
       | Settled (Throws e) =>
           lt (Num (Z.of_nat (length (buffer st')))) count = true
           /\ ((keepReading st' = false
                /\ e = Error "Port disconnected during read")
               \/ (keepReading st' = true
                   /\ now st' - startTime > timeoutMs
                   /\ e = Error (timeout_message count (length (buffer st')))))
       | Pending =>
           lt (Num (Z.of_nat (length (buffer st')))) count = true
           /\ sched' = []
       end.
Proof.
  assert (Hstop : forall count timeoutMs startTime st (sched0 : list tick)
                          c st' (sched' : list tick),
    (if lt (Num (Z.of_nat (length (buffer st)))) count then
       if negb (keepReading st) then
         (Settled (Throws (Error "Port disconnected during read")), st, sched0)
       else if now st - startTime >? timeoutMs then
         (Settled (Throws (Error (timeout_message count (length (buffer st))))),
          st, sched0)
       else (@Pending unit, st, [])
     else (Settled (Returns tt), st, sched0)) = (c, st', sched') ->
    (c = Pending -> sched0 = []) ->
    sched0 = [] ++ sched'
    /\ buffer st' = buffer st ++ arrivals []
    /\ wire st' = wire st
    /\ match c with
       | Settled (Returns _) =>
           lt (Num (Z.of_nat (length (buffer st')))) count = false
       | Settled (Throws e) =>
           lt (Num (Z.of_nat (length (buffer st')))) count = true
           /\ ((keepReading st' = false
                /\ e = Error "Port disconnected during read")
               \/ (keepReading st' = true
                   /\ now st' - startTime > timeoutMs
                   /\ e = Error (timeout_message count (length (buffer st')))))
       | Pending =>
           lt (Num (Z.of_nat (length (buffer st')))) count = true
           /\ sched' = []
       end).
  { intros count timeoutMs startTime st sched0 c st' sched' H Hp.
    unfold arrivals. cbn [map concat]. rewrite app_nil_r.
    destruct (lt _ count) eqn:Hlt.
    - destruct (keepReading st) eqn:Hk; cbn [negb] in H.
      + destruct (now st - startTime >? timeoutMs) eqn:Ht.
        * injection H as <- <- <-. rewrite Hlt, Hk.
          repeat split. right. repeat split. lia.
        * injection H as <- <- <-. rewrite Hlt, (Hp eq_refl).
          repeat split.
      + injection H as <- <- <-. rewrite Hlt, Hk. repeat split. left. auto.
    - injection H as <- <- <-. rewrite Hlt. repeat split. }
  induction sched as [|t sched IH];
    intros count timeoutMs startTime st c st' sched' H.
  - exists []. cbn [read_wait] in H.
    apply (Hstop count timeoutMs startTime st [] c st' sched'); [exact H|auto].
  - cbn [read_wait] in H.
    destruct (lt (Num (Z.of_nat (length (buffer st)))) count) eqn:Hlt.
    + destruct (negb (keepReading st)) eqn:Hk.
      * exists []. apply (Hstop count timeoutMs startTime st (t :: sched)).
        -- rewrite Hlt, Hk. exact H.
        -- intros ->. discriminate H.
      * destruct (now st - startTime >? timeoutMs) eqn:Ht.
        -- exists []. apply (Hstop count timeoutMs startTime st (t :: sched)).
           ++ rewrite Hlt, Hk, Ht. exact H.
           ++ intros ->. discriminate H.
        -- apply IH in H as (slept & -> & Hbuf & Hwire & Hc).
           exists (t :: slept). split; [reflexivity|].
           rewrite sleep_buffer in Hbuf. rewrite sleep_wire in Hwire.
           rewrite arrivals_cons, app_assoc.
           repeat split; assumption.
    + exists []. apply (Hstop count timeoutMs startTime st (t :: sched)).
      * rewrite Hlt. exact H.
      * intros ->. discriminate H.
Qed.

Lemma Uint8Array_of_bytes (l : list Z) :
  Forall is_byte l -> Uint8Array_of (map Num l) = l.
Proof.
  induction 1 as [|b l Hb _ IH]; [reflexivity|].
  unfold Uint8Array_of in *. cbn [map]. rewrite IH, ToUint8_byte by exact Hb.
  reflexivity.
Qed.

Lemma slice_split (a : list Z) c : slice_to a c ++ slice_from a c = a.
Proof. apply take_drop. Qed.

Lemma relative_index_count len (count : Z) :
  0 <= count <= Z.of_nat len -> relative_index len (Num count) = Z.to_nat count.
Proof.
  intros H. unfold relative_index.
  destruct (count <? 0) eqn:E; [lia|]. f_equal. lia.
Qed.

Definition set_buffer (b : list Z) (st : state) : state :=
  {| portOpen := portOpen st; keepReading := keepReading st;
     buffer := b; now := now st; wire := wire st |}.

(** [read] in terms of its waiting loop. *)
Lemma read_unfold count timeoutMs st sched :
  read count timeoutMs st sched =
  match read_wait count (default 1000 timeoutMs) (now st) sched st with
  | (Settled (Returns _), st', sched') =>
      (Settled (Returns (Uint8Array_of (map Num (slice_to (buffer st') count)))),
       set_buffer (slice_from (buffer st') count) st', sched')
  | (Settled (Throws e), st', sched') => (Settled (Throws e), st', sched')
  | (Pending, st', sched') => (Pending, st', sched')
  end.
Proof. reflexivity. Qed.

Lemma read_wait_ready count timeoutMs startTime sched st :
  lt (Num (Z.of_nat (length (buffer st)))) count = false ->
  read_wait count timeoutMs startTime sched st = (Settled (Returns tt), st, sched).
Proof. intros H. destruct sched; cbn [read_wait]; rewrite H; reflexivity. Qed.

(** A read that finds enough bytes takes them from the front. *)
Lemma read_ready (count : Z) timeoutMs st sched :
  Forall is_byte (buffer st) ->
  0 <= count <= Z.of_nat (length (buffer st)) ->
  read (Num count) timeoutMs st sched
  = (Settled (Returns (take (Z.to_nat count) (buffer st))),
     set_buffer (drop (Z.to_nat count) (buffer st)) st, sched).
Proof.
  intros Hbytes Hcount. rewrite read_unfold.
  rewrite read_wait_ready by (cbn [lt]; lia).
  unfold slice_to, slice_from.
  rewrite relative_index_count by exact Hcount.
  rewrite Uint8Array_of_bytes by (apply Forall_take; exact Hbytes).
  reflexivity.
Qed.

(** Whatever the outcome of a read: the ticks it slept through are an
    initial part of the schedule, and the bytes returned followed by the
    bytes left are the bytes that were there followed by the bytes that
    arrived meanwhile. *)
Lemma read_conserves count timeoutMs st sched res st' sched' :
  Forall is_byte (buffer st ++ arrivals sched) ->
  read count timeoutMs st sched = (res, st', sched') ->
  exists slept,
    sched = slept ++ sched'
    /\ wire st' = wire st
    /\ match res with
       | Settled (Returns r) =>
           r ++ buffer st' = buffer st ++ arrivals slept
           /\ r = slice_to (buffer st ++ arrivals slept) count
       | Settled (Throws e) =>
           buffer st' = buffer st ++ arrivals slept
           /\ lt (Num (Z.of_nat (length (buffer st')))) count = true
           /\ (e = Error "Port disconnected during read"
               \/ (now st' - now st > default 1000 timeoutMs
                   /\ e = Error (timeout_message count (length (buffer st')))))
       | Pending => buffer st' = buffer st ++ arrivals slept /\ sched' = []
       end.
Proof.
  intros Hbytes H. rewrite read_unfold in H.
  destruct (read_wait count (default 1000 timeoutMs) (now st) sched st)
    as [[c st1] sched1] eqn:Hwait.
  apply read_wait_spec in Hwait as (slept & -> & Hbuf & Hwire & Hc).
  exists slept.
  destruct c as [[[]|e]|].
  - injection H as <- <- <-. cbn [buffer wire set_buffer].
    split; [reflexivity|split; [exact Hwire|]].
    rewrite Uint8Array_of_bytes.
    + rewrite slice_split, Hbuf. split; reflexivity.
    + apply Forall_take. rewrite Hbuf.
      rewrite arrivals_app, app_assoc in Hbytes.
      apply Forall_app in Hbytes as [Hbytes _]. exact Hbytes.
  - injection H as <- <- <-.
    split; [reflexivity|split; [exact Hwire|]].
    destruct Hc as [Hlt [[_ ->]|(_ & Ht & ->)]]; auto.
  - injection H as <- <- <-.
    split; [reflexivity|split; [exact Hwire|]].
    destruct Hc as [_ ->]. auto.
Qed.

Lemma take_slept (slept sched' : list tick) :
  take (length (slept ++ sched') - length sched') (slept ++ sched') = slept.
Proof.
  rewrite length_app.
  replace (length slept + length sched' - length sched')%nat
    with (length slept) by lia.
  apply take_app_length.
Qed.

(** The ticks of a list of actions. *)
Definition background (acts : list action) : list tick :=
  flat_map (fun a => match a with Background t => [t] | DoRead _ _ => [] end) acts.

(** Across any sequence of reads and background activity, the bytes
    handed out, in the order of the reads, followed by the bytes still
    buffered, are the bytes initially buffered followed by the bytes
    received, in their order of arrival. *)
Lemma run_actions_fifo acts : forall st sched rs past st' sched',
  Forall is_byte (buffer st ++ arrivals sched ++ arrivals (background acts)) ->
  run_actions acts st sched = (rs, past, st', sched') ->
  concat rs ++ buffer st' = buffer st ++ arrivals past.
Proof.
  induction acts as [|[c t|t] acts IH]; intros st sched rs past st' sched' Hb H.
  - injection H as <- <- <- <-. unfold arrivals. cbn.
    rewrite app_nil_r. reflexivity.
  - cbn [run_actions] in H.
    destruct (read c t st sched) as [[res st1] sched1] eqn:Hread.
    cbn [background flat_map app] in Hb. fold (background acts) in Hb.
    apply read_conserves in Hread as (slept & -> & _ & Hres).
    2:{ rewrite app_assoc in Hb. apply Forall_app in Hb as [Hb _]. exact Hb. }
    rewrite take_slept in H.
    assert (Hb1 : forall b1, b1 = buffer st ++ arrivals slept ->
              Forall is_byte (b1 ++ arrivals sched1 ++ arrivals (background acts))).
    { intros b1 ->. rewrite arrivals_app in Hb.
      rewrite <- !app_assoc in Hb |- *. exact Hb. }
    destruct res as [[r|e]|].
    + destruct Hres as [Hr _].
      destruct (run_actions acts st1 sched1) as [[[rs1 past1] st2] sched2] eqn:Hrun.
      injection H as <- <- <- <-.
      apply IH in Hrun.
      2:{ rewrite <- Hr in Hb1. specialize (Hb1 _ eq_refl).
          rewrite <- app_assoc in Hb1.
          apply Forall_app in Hb1 as [_ Hb1]. exact Hb1. }
      cbn [concat]. rewrite <- app_assoc, Hrun, app_assoc, Hr.
      rewrite arrivals_app, app_assoc. reflexivity.
    + destruct Hres as (Hbuf & _).
      destruct (run_actions acts st1 sched1) as [[[rs1 past1] st2] sched2] eqn:Hrun.
      injection H as <- <- <- <-.
      apply IH in Hrun; [|apply Hb1; exact Hbuf].
      rewrite Hrun, Hbuf, arrivals_app, app_assoc. reflexivity.
    + destruct Hres as [Hbuf _]. injection H as <- <- <- <-.
      cbn [concat app]. exact Hbuf.
  - cbn [run_actions] in H.
    destruct (run_actions acts (sleep t st) sched)
      as [[[rs1 past1] st2] sched2] eqn:Hrun.
    injection H as <- <- <- <-.
    cbn [background flat_map] in Hb. fold (background acts) in Hb.
    apply IH in Hrun.
    + rewrite Hrun, sleep_buffer, arrivals_cons, app_assoc. reflexivity.
    + rewrite sleep_buffer. change ([t] ++ background acts)
        with (t :: background acts) in Hb.
      rewrite arrivals_cons in Hb.
      rewrite !Forall_app in Hb |- *. tauto.
Qed.

(** A sleep during which nothing else happens. *)
Definition quiet : tick := {| elapsed := 10; arrived := []; stopped := false |}.

Definition advance (ms : Z) (st : state) : state :=
  {| portOpen := portOpen st; keepReading := keepReading st;
     buffer := buffer st; now := now st + ms; wire := wire st |}.

Lemma read_wait_quiet count timeoutMs startTime rest k : forall st,
  keepReading st = true ->
  lt (Num (Z.of_nat (length (buffer st)))) count = true ->
  now st - startTime + 10 * Z.of_nat k > timeoutMs ->
  now st - startTime + 10 * (Z.of_nat k - 1) <= timeoutMs ->
  read_wait count timeoutMs startTime (replicate k quiet ++ rest) st
  = (Settled (Throws (Error (timeout_message count (length (buffer st))))),
     advance (10 * Z.of_nat k) st, rest).
Proof.
  induction k as [|k IH]; intros st Hk Hlt Hover Hunder.
  - assert (E : advance (10 * Z.of_nat 0) st = st).
    { destruct st. unfold advance. cbn. f_equal. lia. }
    rewrite E. cbn [replicate app].
    destruct rest; cbn [read_wait]; rewrite Hlt, Hk; cbn [negb];
      (replace (now st - startTime >? timeoutMs) with true by (symmetry; lia));
      reflexivity.
  - cbn [replicate app read_wait]. rewrite Hlt, Hk. cbn [negb].
    replace (now st - startTime >? timeoutMs) with false by (symmetry; lia).
    assert (E : sleep quiet st = advance 10 st).
    { destruct st as [po kr bf nw wr]. unfold sleep, advance, quiet. cbn.
      rewrite andb_true_r. reflexivity. }
    rewrite E, IH.
    + unfold advance. cbn [portOpen keepReading buffer now wire].
      replace (now st + 10 + 10 * Z.of_nat k)
        with (now st + 10 * Z.of_nat (S k)) by lia.
      reflexivity.
    + exact Hk.
    + exact Hlt.
    + cbn [advance now]. lia.
    + cbn [advance now]. lia.
Qed.

(** C8.  For every state of the transport whose buffer holds bytes:
    (1) when the buffer holds at least [count] bytes, [read] returns
    exactly the first [count] bytes in their order and leaves the others,
    in order, without waiting;
    (2) a read that is rejected consumes nothing, and when it is rejected
    for a timeout the error message carries the number of bytes available
    at that moment (fewer than [count]);
    (3) a read that never receives enough bytes does time out, with that
    message, once more than [timeoutMs] milliseconds have passed;
    (4) across every sequence of reads, the bytes returned followed by the
    bytes still buffered are the bytes buffered at the start followed by
    the bytes received since, in their order of arrival. *)
Theorem read_is_fifo (st : state) :
  Forall is_byte (buffer st) ->
  (forall (count : Z) timeoutMs sched,
     0 <= count <= Z.of_nat (length (buffer st)) ->
     read (Num count) timeoutMs st sched
     = (Settled (Returns (take (Z.to_nat count) (buffer st))),
        set_buffer (drop (Z.to_nat count) (buffer st)) st, sched)
     /\ take (Z.to_nat count) (buffer st) ++ drop (Z.to_nat count) (buffer st)
        = buffer st
     /\ length (take (Z.to_nat count) (buffer st)) = Z.to_nat count)
  /\ (forall count timeoutMs sched e st' sched',
       Forall is_byte (arrivals sched) ->
       read count timeoutMs st sched = (Settled (Throws e), st', sched') ->
       exists slept,
         sched = slept ++ sched'
         /\ buffer st' = buffer st ++ arrivals slept
         /\ lt (Num (Z.of_nat (length (buffer st')))) count = true
         /\ (e = Error "Port disconnected during read"
             \/ (now st' - now st > default 1000 timeoutMs
                 /\ e = Error ("Timeout reading " +++ number_toString count
                               +++ " bytes. Got "
                               +++ toString10 (Z.of_nat (length (buffer st')))
                               +++ "."))))
  /\ (forall count timeoutMs rest,
       keepReading st = true ->
       lt (Num (Z.of_nat (length (buffer st)))) count = true ->
       0 <= timeoutMs ->
       read count (Some timeoutMs) st
         (replicate (Z.to_nat (timeoutMs / 10) + 1) quiet ++ rest)
       = (Settled (Throws (Error
            ("Timeout reading " +++ number_toString count +++ " bytes. Got "
             +++ toString10 (Z.of_nat (length (buffer st))) +++ "."))),
          advance (10 * (timeoutMs / 10 + 1)) st, rest))
  /\ (forall acts sched rs past st' sched',
       Forall is_byte (arrivals sched ++ arrivals (background acts)) ->
       run_actions acts st sched = (rs, past, st', sched') ->
       concat rs ++ buffer st' = buffer st ++ arrivals past).
Proof.
  intros Hbytes. split; [|split; [|split]].
  - intros count timeoutMs sched Hcount.
    split; [apply read_ready; assumption|].
    split; [apply take_drop|]. rewrite length_take. lia.
  - intros count timeoutMs sched e st' sched' Harr H.
    apply read_conserves in H as (slept & Hs & _ & Hres).
    + exists slept. destruct Hres as (Hbuf & Hlt & He). auto.
    + apply Forall_app. auto.
  - intros count timeoutMs rest Hk Hlt Ht.
    rewrite read_unfold. change (default 1000 (Some timeoutMs)) with timeoutMs.
    pose proof (Z.div_mod timeoutMs 10 ltac:(lia)) as Hdm.
    pose proof (Z.mod_pos_bound timeoutMs 10 ltac:(lia)) as Hm.
    assert (0 <= timeoutMs / 10) by (apply Z.div_pos; lia).
    rewrite read_wait_quiet; try assumption; try lia.
    replace (Z.of_nat (Z.to_nat (timeoutMs / 10) + 1))
      with (timeoutMs / 10 + 1) by lia.
    reflexivity.
  - intros acts sched rs past st' sched' Harr H.
    apply run_actions_fifo in H; [exact H|].
    apply Forall_app. auto.
Qed.

Definition witness_state : state :=
  {| portOpen := true; keepReading := true; buffer := [0x79; 0x04; 0x41];
     now := 0; wire := [] |}.

Lemma read_is_fifo_witness :
  read (Num 2) None witness_state []
  = (Settled (Returns [0x79; 0x04]),
     {| portOpen := true; keepReading := true; buffer := [0x41];
        now := 0; wire := [] |}, []).
Proof.
  assert (Hbytes : Forall is_byte (buffer witness_state)).
  { repeat (apply Forall_cons_2; [unfold is_byte; lia|]). apply Forall_nil_2. }
  destruct (read_is_fifo witness_state Hbytes) as (H & _).
  destruct (H 2 None [] ltac:(cbn; lia)) as (Hread & _).
  exact Hread.
Defined.

End WebSerialInterfaceFacts.

(* ================================================================== *)
(** * Properties of FileParsers.parseElf *)
(* ================================================================== *)

Module ParseElfFacts.
Import FileParsers.

Definition unsupported : exn :=
  Error "64-bit ELF not supported yet (Target is likely 32-bit MCU)".

Section Headers.
Variables (buffer : list Z) (littleEndian : bool) (phOff phEntSize phNum : Z).

(** Header [i] leaves the list of segments as it is. *)
Definition skipped (i : Z) : Prop :=
  forall segs, elf_header buffer littleEndian phOff phEntSize i segs
               = Returns segs.

(** Header [i] appends the segment [seg]. *)
Definition loads (i : Z) (seg : FirmwareSegment) : Prop :=
  forall segs, elf_header buffer littleEndian phOff phEntSize i segs
               = Returns (segs ++ [seg]).

Lemma elf_headers_one_load (j : Z) (seg : FirmwareSegment) :
  0 <= j < phNum ->
  (forall i, 0 <= i < phNum -> i <> j -> skipped i) ->
  loads j seg ->
  forall fuel i segs,
    0 <= i -> i + Z.of_nat fuel = phNum ->
    elf_headers fuel buffer littleEndian phOff phEntSize phNum i segs
    = Returns (if i <=? j then segs ++ [seg] else segs).
Proof.
  intros Hj Hskip Hload.
  induction fuel as [|fuel IH]; intros i segs Hi Hfuel; cbn [elf_headers].
  - replace (i <=? j) with false by (symmetry; lia). reflexivity.
  - replace (i <? phNum) with true by (symmetry; lia).
    destruct (Z.eq_dec i j) as [->|Hne].
    + rewrite Hload. cbn [mbind outcome_bind].
      rewrite IH by lia.
      replace (j + 1 <=? j) with false by (symmetry; lia).
      replace (j <=? j) with true by (symmetry; lia). reflexivity.
    + rewrite (Hskip i) by lia. cbn [mbind outcome_bind].
      rewrite IH by lia.
      replace (i + 1 <=? j) with (i <=? j); [reflexivity|].
      destruct (i <=? j) eqn:E; symmetry; lia.
Qed.

(** The loop over the program headers throws nothing but [RangeError]. *)
Lemma elf_header_throws i segs e :
  elf_header buffer littleEndian phOff phEntSize i segs = Throws e ->
  e = RangeError.
Proof.
  unfold elf_header, getUint32, getUint, view_bytes, Uint8Array_view.
  cbn [mbind outcome_bind].
  repeat match goal with
    | |- context [if ?c then _ else _] => destruct c; cbn [mbind outcome_bind]
    end; congruence.
Qed.

Lemma elf_headers_throws fuel : forall i segs e,
  elf_headers fuel buffer littleEndian phOff phEntSize phNum i segs = Throws e ->
  e = RangeError.
Proof.
  induction fuel as [|fuel IH]; intros i segs e; cbn [elf_headers];
    [discriminate|].
  destruct (i <? phNum); [|discriminate].
  destruct (elf_header buffer littleEndian phOff phEntSize i segs)
    as [segs'|e'] eqn:E; cbn [mbind outcome_bind].
  - apply IH.
  - intros [= <-]. eapply elf_header_throws, E.
Qed.
End Headers.

(** The path that [parseElf] takes when [is64Bit] is false. *)
Definition elf32_path (buffer : list Z) : outcome (list FirmwareSegment) :=
  encoding ← getUint8 buffer 5;
  let littleEndian := encoding =? 1 in
  phOff ← getUint32 buffer 28 littleEndian;
  phEntSize ← getUint16 buffer 42 littleEndian;
  phNum ← getUint16 buffer 44 littleEndian;
  elf_headers (Z.to_nat phNum) buffer littleEndian phOff phEntSize phNum 0 [].

Lemma parseElf_not_class2 buffer c :
  getUint32 buffer 0 false = Returns 0x7F454C46 ->
  getUint8 buffer 4 = Returns c -> c <> 2 ->
  parseElf buffer = elf32_path buffer.
Proof.
  intros Hmagic Hclass Hc. unfold parseElf, elf32_path.
  rewrite Hmagic, Hclass. cbn [mbind outcome_bind].
  replace (c =? 2) with false by (symmetry; lia).
  destruct (getUint8 buffer 5); reflexivity.
Qed.

Lemma elf32_path_throws buffer e :
  elf32_path buffer = Throws e -> e = RangeError.
Proof.
  unfold elf32_path, getUint8, getUint16, getUint32, getUint, view_bytes.
  cbn [mbind outcome_bind].
  repeat match goal with
    | |- context [if ?c then _ else _] =>
        destruct c; cbn [mbind outcome_bind]; try congruence
    end;
    apply elf_headers_throws.
Qed.

(** C10.  When the first four bytes are the ELF magic and the class byte
    at offset 4 is not 2 (in particular when it is neither 1 nor 2),
    [parseElf] takes the 32-bit path exactly as for class 1: no error is
    raised for the class byte, and the only thing it can throw is the
    [RangeError] of a read outside the buffer. *)
Theorem parseElf_class_unchecked (buffer : list Z) (c : Z) :
  getUint32 buffer 0 false = Returns 0x7F454C46 ->
  getUint8 buffer 4 = Returns c ->
  c <> 2 ->
  parseElf buffer = elf32_path buffer
  /\ (forall msg, parseElf buffer <> Throws (Error msg))
  /\ (forall e, parseElf buffer = Throws e -> e = RangeError).
Proof.
  intros Hmagic Hclass Hc.
  pose proof (parseElf_not_class2 buffer c Hmagic Hclass Hc) as E.
  split; [exact E|]. rewrite E. split.
  - intros msg H. apply elf32_path_throws in H. discriminate H.
  - intros e. apply elf32_path_throws.
Qed.

(** A read within an initial part of the buffer does not depend on what
    follows it. *)
Lemma view_bytes_app pre rest byteOffset size :
  0 <= byteOffset ->
  byteOffset + Z.of_nat size <= Z.of_nat (length pre) ->
  view_bytes (pre ++ rest) byteOffset size = view_bytes pre byteOffset size.
Proof.
  intros Hoff Hfit. unfold view_bytes. rewrite length_app.
  replace (byteOffset <? 0) with false by (symmetry; lia).
  replace (Z.of_nat (length pre + length rest) <? byteOffset + Z.of_nat size)
    with false by (symmetry; apply Z.ltb_ge; rewrite Nat2Z.inj_add; lia).
  replace (Z.of_nat (length pre) <? byteOffset + Z.of_nat size)
    with false by (symmetry; lia).
  cbn [orb]. f_equal.
  rewrite drop_app_le by lia.
  apply take_app_le. rewrite length_drop. lia.
Qed.

Lemma parseElf_class2 encoding rest :
  parseElf ([0x7F; 0x45; 0x4C; 0x46; 2; encoding] ++ rest) = Throws unsupported.
Proof.
  unfold parseElf, getUint32, getUint8, getUint.
  rewrite (view_bytes_app _ _ 0 4), (view_bytes_app _ _ 4 1),
    (view_bytes_app _ _ 5 1) by (cbn [length]; lia).
  reflexivity.
Qed.

(** ** A 32-bit little-endian file with one loadable segment *)

Definition le16 (v : Z) : list Z := [v mod 256; (v / 256) mod 256].
Definition le32 (v : Z) : list Z :=
  [v mod 256; (v / 256) mod 256; (v / 65536) mod 256; (v / 16777216) mod 256].

(** A file of 148 bytes: the 52-byte header, one 32-byte program header
    at offset 52 (PT_LOAD, p_offset 84, p_paddr 0x08000000, p_filesz 64)
    and 64 bytes of content; the class byte is [class]. *)
Definition example_elf (class : Z) : list Z :=
  [0x7F; 0x45; 0x4C; 0x46; class; 1; 1; 0] ++ replicate 8 0
  ++ le16 2 ++ le16 40 ++ le32 1 ++ le32 0x08000000
  ++ le32 52 ++ le32 0 ++ le32 0 ++ le16 52
  ++ le16 32 ++ le16 1 ++ le16 40 ++ le16 0 ++ le16 0
  ++ le32 1 ++ le32 84 ++ le32 0x08000000 ++ le32 0x08000000
  ++ le32 64 ++ le32 64 ++ le32 5 ++ le32 4
  ++ map Z.of_nat (seq 0 64).

Lemma parseElf_class_unchecked_witness :
  parseElf (example_elf 0)
  = Returns [ {| address := Num 0x08000000; data := map Z.of_nat (seq 0 64) |} ].
Proof.
  destruct (parseElf_class_unchecked (example_elf 0) 0) as (E & _);
    [reflexivity|reflexivity|lia|].
  rewrite E. vm_compute. reflexivity.
Defined.

(** C6, first part and amended second part.  On a 32-bit little-endian
    file whose program header table has one PT_LOAD entry with
    [p_paddr = 0x08000000] and [p_filesz = 64], every other entry being
    either of another type or a PT_LOAD entry with [p_filesz = 0],
    [parseElf] returns exactly one segment: the 64 bytes at file offset
    [p_offset], at address 0x08000000.  On an input of at least six bytes
    whose class byte is 2 it throws the "64-bit ELF not supported" error,
    having read the encoding byte at offset 5 and nothing after it. *)
Theorem parseElf_one_load (buffer : list Z) (phOff phEntSize phNum j pOffset : Z) :
  getUint32 buffer 0 false = Returns 0x7F454C46 ->
  getUint8 buffer 4 = Returns 1 ->
  getUint8 buffer 5 = Returns 1 ->
  getUint32 buffer 28 true = Returns phOff ->
  getUint16 buffer 42 true = Returns phEntSize ->
  getUint16 buffer 44 true = Returns phNum ->
  0 <= j < phNum ->
  getUint32 buffer (phOff + j * phEntSize) true = Returns 1 ->
  getUint32 buffer (phOff + j * phEntSize + 4) true = Returns pOffset ->
  getUint32 buffer (phOff + j * phEntSize + 12) true = Returns 0x08000000 ->
  getUint32 buffer (phOff + j * phEntSize + 16) true = Returns 64 ->
  0 <= pOffset -> pOffset + 64 <= Z.of_nat (length buffer) ->
  (forall i, 0 <= i < phNum -> i <> j ->
     exists pType, getUint32 buffer (phOff + i * phEntSize) true = Returns pType
       /\ (pType = 1 ->
           exists o a,
             getUint32 buffer (phOff + i * phEntSize + 4) true = Returns o
             /\ getUint32 buffer (phOff + i * phEntSize + 12) true = Returns a
             /\ getUint32 buffer (phOff + i * phEntSize + 16) true = Returns 0)) ->
  let segment := take 64 (drop (Z.to_nat pOffset) buffer) in
  parseElf buffer = Returns [ {| address := Num 0x08000000; data := segment |} ]
  /\ length segment = 64%nat
  /\ (forall encoding rest,
        parseElf ([0x7F; 0x45; 0x4C; 0x46; 2; encoding] ++ rest)
        = Throws unsupported).
Proof.
  intros Hmagic Hclass Henc HphOff HphEntSize HphNum Hj
    Htype Hoffset Hpaddr Hfilesz Hpos Hfits Hothers segment.
  split; [|split].
  - unfold parseElf. rewrite Hmagic, Hclass, Henc. cbn [mbind outcome_bind].
    change (0x7F454C46 =? 0x7F454C46) with true.
    change (1 =? 2) with false. change (1 =? 1) with true. cbn [negb].
    rewrite HphOff, HphEntSize, HphNum. cbn [mbind outcome_bind].
    rewrite (elf_headers_one_load buffer true phOff phEntSize phNum j
               {| address := Num 0x08000000; data := segment |}).
    + replace (0 <=? j) with true by (symmetry; lia). reflexivity.
    + exact Hj.
    + intros i Hi Hne segs.
      destruct (Hothers i Hi Hne) as (pType & Hty & Hload).
      unfold elf_header. rewrite Hty. cbn [mbind outcome_bind].
      destruct (pType =? 1) eqn:E; [|reflexivity].
      apply Z.eqb_eq in E.
      destruct (Hload E) as (o & a & -> & -> & ->). reflexivity.
    + intros segs. unfold elf_header.
      rewrite Htype, Hoffset, Hpaddr, Hfilesz. cbn [mbind outcome_bind].
      change (1 =? 1) with true. change (64 >? 0) with true. cbn beta iota.
      unfold Uint8Array_view.
      replace (Z.of_nat (length buffer) <? pOffset + 64) with false
        by (symmetry; lia).
      reflexivity.
    + lia.
    + pose proof HphNum as Hn. unfold getUint16, getUint, view_bytes in Hn.
      destruct ((44 <? 0) || _) in Hn; [discriminate|].
      cbn [mbind outcome_bind] in Hn. lia.
  - unfold segment. rewrite length_take, length_drop. lia.
  - apply parseElf_class2.
Qed.

Lemma parseElf_one_load_witness :
  parseElf (example_elf 1)
  = Returns [ {| address := Num 0x08000000; data := map Z.of_nat (seq 0 64) |} ].
Proof.
  destruct (parseElf_one_load (example_elf 1) 52 32 1 0 84) as (H & _).
  1-6: reflexivity.
  1: lia.
  1-4: reflexivity.
  1: lia.
  1: vm_compute; discriminate.
  1: intros i Hi Hne; lia.
  vm_compute in H. exact H.
Defined.

(** With only five bytes, the class byte 2 does not lead to the
    "64-bit ELF not supported" error: the read of the encoding byte at
    offset 5 comes first and is out of range. *)
Lemma parseElf_class2_five_bytes :
  getUint8 [0x7F; 0x45; 0x4C; 0x46; 2] 4 = Returns 2
  /\ parseElf [0x7F; 0x45; 0x4C; 0x46; 2] = Throws RangeError
  /\ parseElf [0x7F; 0x45; 0x4C; 0x46; 2] <> Throws unsupported.
Proof. repeat split. discriminate. Qed.

(** All that [parseElf] can throw. *)
Lemma parseElf_throws buffer e :
  parseElf buffer = Throws e ->
  e = RangeError \/ e = Error "Invalid ELF Magic" \/ e = unsupported.
Proof.
  unfold parseElf.
  destruct (getUint32 buffer 0 false) as [magic|e0] eqn:Hmagic;
    cbn [mbind outcome_bind].
  2:{ intros [= <-]. left. revert Hmagic.
      unfold getUint32, getUint, view_bytes.
      destruct (_ || _); cbn [mbind outcome_bind]; congruence. }
  destruct (negb (magic =? 0x7F454C46)); [intros [= <-]; auto|].
  destruct (getUint8 buffer 4) as [class|e0] eqn:Hclass;
    cbn [mbind outcome_bind].
  2:{ intros [= <-]. left. revert Hclass.
      unfold getUint8, getUint, view_bytes.
      destruct (_ || _); cbn [mbind outcome_bind]; congruence. }
  destruct (class =? 2) eqn:Hc; cbn [negb].
  - destruct (getUint8 buffer 5) as [enc|e0] eqn:Henc;
      cbn [mbind outcome_bind]; intros [= <-]; [auto|].
    left. revert Henc. unfold getUint8, getUint, view_bytes.
    destruct (_ || _); cbn [mbind outcome_bind]; congruence.
  - intros H. left. apply (elf32_path_throws buffer). unfold elf32_path.
    destruct (getUint8 buffer 5); exact H.
Qed.

Lemma parseElf_bad_magic buffer magic :
  getUint32 buffer 0 false = Returns magic -> magic <> 0x7F454C46 ->
  parseElf buffer = Throws (Error "Invalid ELF Magic").
Proof.
  intros H Hne. unfold parseElf. rewrite H. cbn [mbind outcome_bind].
  replace (magic =? 0x7F454C46) with false by (symmetry; lia). reflexivity.
Qed.

(** A file with two PT_LOAD program headers: the first describes the 64
    bytes at offset 116, the second a range that ends [excess] bytes after
    the end of the file. *)
Definition two_loads (excess : Z) : list Z :=
  [0x7F; 0x45; 0x4C; 0x46; 1; 1; 1; 0] ++ replicate 8 0
  ++ le16 2 ++ le16 40 ++ le32 1 ++ le32 0x08000000
  ++ le32 52 ++ le32 0 ++ le32 0 ++ le16 52
  ++ le16 32 ++ le16 2 ++ le16 40 ++ le16 0 ++ le16 0
  ++ le32 1 ++ le32 116 ++ le32 0x08000000 ++ le32 0x08000000
  ++ le32 64 ++ le32 64 ++ le32 5 ++ le32 4
  ++ le32 1 ++ le32 (148 + excess) ++ le32 0x08001000 ++ le32 0x08001000
  ++ le32 32 ++ le32 32 ++ le32 5 ++ le32 4
  ++ map Z.of_nat (seq 0 64).

End ParseElfFacts.

(* ================================================================== *)
(** * Properties of FileParsers.parseHex and of the three parsers *)
(* ================================================================== *)

Module ParseHexFacts.
Import FileParsers JSString ParseElfFacts.

Definition LF : string := String (ascii_of_nat 10) EmptyString.

(** The text made of the given lines, separated by line feeds. *)
Definition text_of (lines : list string) : string := String.concat LF lines.

(** ** What [commitSegment] does *)

Lemma commitSegment_closes st d ds :
  currentData st = d :: ds ->
  strict_eq (currentAddress st) (Num (-1)) = false ->
  commitSegment st
  = {| segments := segments st ++
         [ {| address := currentAddress st;
              data := Uint8Array_of (currentData st) |} ];
       extendedAddress := extendedAddress st;
       currentData := [];
       currentAddress := Num (-1) |}.
Proof.
  intros Hd Ha. unfold commitSegment. rewrite Ha, Hd. reflexivity.
Qed.

Lemma commitSegment_nothing_pending st :
  currentData st = [] -> commitSegment st = st.
Proof. intros Hd. unfold commitSegment. rewrite Hd. reflexivity. Qed.

(** When the address of the pending data is -1, the value that also
    stands for "no segment open", the pending data are not committed. *)
Lemma commitSegment_sentinel st :
  currentAddress st = Num (-1) -> commitSegment st = st.
Proof.
  intros Ha. unfold commitSegment. rewrite Ha.
  cbn [strict_eq]. rewrite Z.eqb_refl, andb_false_r. reflexivity.
Qed.

(** ** Data records *)


Section DataRecord.
Variables (line : string) (st : hex_state) (len addr : number).
Hypothesis Hlen : parseInt16 (substring line (Num 1) (Num 3)) = len.
Hypothesis Haddr : parseInt16 (substring line (Num 3) (Num 7)) = addr.
Hypothesis Htype : parseInt16 (substring line (Num 7) (Num 9)) = Num 0.
Hypothesis Hopen : strict_eq (currentAddress st) (Num (-1)) = false.

Let absoluteAddr := add (Num (extendedAddress st)) addr.
Let bytes :=
  push_data (iterations len) 0 len
    (substring line (Num 9) (add (Num 9) (mul len (Num 2)))) [].


End DataRecord.



(** ** Lines that are not records *)

Lemma hex_lines_no_colon lines : forall st,
  Forall (fun l => startsWith_colon l = false) lines ->
  hex_lines lines st = st.
Proof.
  induction lines as [|l lines IH]; intros st H; [reflexivity|].
  apply Forall_cons in H as [Hl H]. cbn [hex_lines].
  rewrite Hl. cbn [negb]. apply IH, H.
Qed.

Lemma parseHex_no_records text :
  Forall (fun l => startsWith_colon l = false) (split_lines text) ->
  parseHex text = [].
Proof.
  intros H. unfold parseHex. rewrite hex_lines_no_colon by exact H.
  reflexivity.
Qed.

(** ** What follows the data field is never read *)

Lemma length_append s cc :
  String.length (s +++ cc) = (String.length s + String.length cc)%nat.
Proof. induction s as [|c s IH]; cbn; [reflexivity|]. rewrite IH. reflexivity. Qed.

Lemma substring_append s : forall n m cc,
  (n + m <= String.length s)%nat ->
  String.substring n m (s +++ cc) = String.substring n m s.
Proof.
  induction s as [|c s IH]; intros n m cc H; cbn [String.length] in H.
  - assert (n = 0%nat) as -> by lia. assert (m = 0%nat) as -> by lia.
    destruct cc; reflexivity.
  - destruct n as [|n]; [destruct m as [|m]|]; cbn; [reflexivity| |].
    + rewrite IH by lia. reflexivity.
    + apply IH. lia.
Qed.

Lemma substring_prefix s cc (a b : Z) :
  0 <= a <= Z.of_nat (String.length s) ->
  0 <= b <= Z.of_nat (String.length s) ->
  substring (s +++ cc) (Num a) (Num b) = substring s (Num a) (Num b).
Proof.
  intros Ha Hb. unfold substring, clamp_index. rewrite length_append.
  rewrite Nat2Z.inj_add.
  pose proof (Nat2Z.is_nonneg (String.length cc)) as Hcc.
  replace (Z.min (Z.max a 0) (Z.of_nat (String.length s) + Z.of_nat (String.length cc)))
    with a by lia.
  replace (Z.min (Z.max b 0) (Z.of_nat (String.length s) + Z.of_nat (String.length cc)))
    with b by lia.
  replace (Z.min (Z.max a 0) (Z.of_nat (String.length s))) with a by lia.
  replace (Z.min (Z.max b 0) (Z.of_nat (String.length s))) with b by lia.
  apply substring_append. lia.
Qed.

(** A record is decoded from its first [9 + 2 * len] characters alone:
    the checksum, and anything else after the data field, is ignored. *)
Lemma hex_record_ignores_tail line cc st (l : Z) :
  parseInt16 (substring line (Num 1) (Num 3)) = Num l ->
  0 <= l ->
  9 + l * 2 <= Z.of_nat (String.length line) ->
  hex_record (line +++ cc) st = hex_record line st.
Proof.
  intros Hlen Hl Hfit. unfold hex_record.
  rewrite (substring_prefix line cc 1 3), (substring_prefix line cc 3 7),
    (substring_prefix line cc 7 9) by lia.
  rewrite Hlen. cbn [mul add].
  rewrite (substring_prefix line cc 9 (9 + l * 2)) by lia.
  reflexivity.
Qed.

(** ** The examples of the specification *)

Definition record_0000 : string := ":10000000000102030405060708090A0B0C0D0E0F78".
Definition record_0010 : string := ":10001000101112131415161718191A1B1C1D1E1F68".
Definition record_linear_0000 : string := ":020000040000FA".
Definition record_eof : string := ":00000001FF".


(** ** A data record at 0xFFFFFFFF *)

(** One byte AA at address 0xFFFFFFFF (extended linear address FFFF,
    offset FFFF), then one byte BB at address 0x08000000. *)
Definition record_linear_FFFF : string := ":02000004FFFFFC".
Definition record_FFFF_AA : string := ":01FFFF00AA57".
Definition record_linear_0800 : string := ":020000040800F2".
Definition record_0000_BB : string := ":01000000BB44".

Definition sentinel_text : string :=
  text_of [ record_linear_FFFF; record_FFFF_AA;
            record_linear_0800; record_0000_BB; record_eof ].

(** C5, at the input where the code departs from it.  [0xFFFF << 16] is
    -65536 in 32-bit arithmetic, so the data record at offset FFFF gets the
    absolute address -1, the value by which [parseHex] marks "no segment
    open".  The extended linear address record that follows does not close
    the segment, and the next data record, which is not contiguous, is
    appended to the pending byte: the result is one segment of two bytes
    at 0x08000000 instead of two segments. *)
Theorem parseHex_sentinel_collision :
  parseHex sentinel_text
  = [ {| address := Num 0x08000000; data := [0xAA; 0xBB] |} ]
  /\ shl (Num 0xFFFF) 16 = -65536
  /\ fst (hex_record record_FFFF_AA
           (fst (hex_record record_linear_FFFF hex_init)))
     = {| segments := []; extendedAddress := -65536;
          currentData := [Num 0xAA]; currentAddress := Num (-1) |}.
Proof. vm_compute. repeat split. Qed.

(** ** Malformed input *)

(** Reference definition, after the format comment of [parseHex],
    [:LLAAAATTDD...CC]: a record is a colon followed by pairs of
    hexadecimal digits, namely the length LL, two address bytes, the type,
    LL data bytes and a checksum that makes the sum of all bytes a multiple
    of 256. *)
Fixpoint hex_pairs (s : string) : option (list Z) :=
  match s with
  | EmptyString => Some []
  | String c1 (String c2 s') =>
      match hex_digit c1, hex_digit c2, hex_pairs s' with
      | Some h, Some l, Some bs => Some (16 * h + l :: bs)
      | _, _, _ => None
      end
  | String _ EmptyString => None
  end.

Definition record_wellformed (line : string) : bool :=
  match line with
  | String ":" body =>
      match hex_pairs body with
      | Some (len :: rest) =>
          (Z.of_nat (length rest) =? len + 4)
          && (fold_left Z.add (len :: rest) 0 mod 256 =? 0)
      | _ => false
      end
  | _ => false
  end.

Lemma examples_wellformed :
  forallb record_wellformed
    [ record_0000; record_0010; record_linear_0000; record_eof;
      record_linear_FFFF; record_FFFF_AA; record_linear_0800; record_0000_BB ]
  = true.
Proof. vm_compute. reflexivity. Qed.

(** The record [:02000000GG] announces two data bytes but carries
    characters that are not hexadecimal digits and no checksum; the record
    [:0100000055FF] has a wrong checksum.  [parseHex] raises on neither: it
    returns a segment, with the undecodable bytes stored as 0. *)
Lemma parseHex_accepts_malformed :
  record_wellformed ":02000000GG" = false
  /\ parseHex ":02000000GG" = [ {| address := Num 0; data := [0; 0] |} ]
  /\ record_wellformed ":0100000055FF" = false
  /\ parseHex ":0100000055FF" = [ {| address := Num 0; data := [0x55] |} ].
Proof. vm_compute. repeat split. Qed.

(** C9, amended.  [parseBin] and [parseHex] never raise: [parseBin]
    returns its single segment for every input, and [parseHex] performs no
    validation: it skips every line that does not start with a colon, never
    reads the checksum or anything else after the data field, and returns
    the segments it decoded from malformed records, undecodable bytes being
    stored as 0.  [parseElf] raises "Invalid ELF Magic" on a wrong magic
    number and the 64-bit error on class byte 2, and whatever it throws is
    one of these two errors or a [RangeError]; when it throws, nothing is
    returned, even if an earlier program header had produced a segment. *)
Theorem parsers_error_behaviour :
  (forall buffer baseAddress,
     parseBin buffer baseAddress
     = [ {| address := default (Num 0x08000000) baseAddress; data := buffer |} ])
  /\ (forall text,
        Forall (fun l => startsWith_colon l = false) (split_lines text) ->
        parseHex text = [])
  /\ (forall line cc st (l : Z),
        parseInt16 (substring line (Num 1) (Num 3)) = Num l ->
        0 <= l -> 9 + l * 2 <= Z.of_nat (String.length line) ->
        hex_record (line +++ cc) st = hex_record line st)
  /\ parseHex ":02000000GG" = [ {| address := Num 0; data := [0; 0] |} ]
  /\ parseHex ":0100000055FF" = [ {| address := Num 0; data := [0x55] |} ]
  /\ (forall encoding rest,
        parseElf ([0x7F; 0x45; 0x4C; 0x46; 2; encoding] ++ rest)
        = Throws unsupported)
  /\ (forall buffer magic,
        getUint32 buffer 0 false = Returns magic -> magic <> 0x7F454C46 ->
        parseElf buffer = Throws (Error "Invalid ELF Magic"))
  /\ (forall buffer e,
        parseElf buffer = Throws e ->
        e = RangeError \/ e = Error "Invalid ELF Magic" \/ e = unsupported)
  /\ (exists first second, parseElf (two_loads (-32)) = Returns [first; second])
  /\ parseElf (two_loads 1) = Throws RangeError.
Proof.
  split; [reflexivity|].
  split; [exact parseHex_no_records|].
  split; [exact hex_record_ignores_tail|].
  split; [vm_compute; reflexivity|].
  split; [vm_compute; reflexivity|].
  split; [exact parseElf_class2|].
  split; [exact parseElf_bad_magic|].
  split; [exact parseElf_throws|].
  split; [|vm_compute; reflexivity].
  do 2 eexists. vm_compute. reflexivity.
Qed.

Lemma parsers_error_behaviour_witness :
  parseHex "no record here" = []
  /\ parseElf [0x7F; 0x45; 0x4C; 0x00] = Throws (Error "Invalid ELF Magic").
Proof.
  destruct parsers_error_behaviour as (_ & Hhex & _ & _ & _ & _ & Hmagic & _).
  split.
  - apply Hhex. vm_compute. repeat constructor.
  - apply (Hmagic _ 0x7F454C00); [reflexivity|lia].
Defined.

End ParseHexFacts.

(* ================================================================== *)
(** * Further properties of AT32Protocol *)
(* ================================================================== *)

Module AT32ProtocolMore.
Import AT32Protocol ExecFacts JSFacts AT32ProtocolFacts.

(** ** Bytes *)

(** A property of bytes that holds of the 256 values holds of all. *)
Lemma byte_cases (P : Z -> bool) :
  forallb P (map Z.of_nat (seq 0 256)) = true ->
  forall b, is_byte b -> P b = true.
Proof.
  intros H b Hb. rewrite forallb_forall in H. apply H.
  apply in_map_iff. exists (Z.to_nat b). unfold is_byte in Hb.
  split; [lia|]. apply in_seq. lia.
Qed.

Lemma lxor_255 b : is_byte b -> Z.lxor b 255 = 255 - b.
Proof.
  intros Hb. apply Z.eqb_eq.
  apply (byte_cases (fun b => Z.lxor b 255 =? 255 - b)); [|exact Hb].
  vm_compute. reflexivity.
Qed.

Lemma lxor_complement b : is_byte b -> Z.lxor b (255 - b) = 255.
Proof.
  intros Hb. apply Z.eqb_eq.
  apply (byte_cases (fun b => Z.lxor b (255 - b) =? 255)); [|exact Hb].
  vm_compute. reflexivity.
Qed.

Lemma command_frame_byte cmd :
  is_byte cmd -> command_frame cmd = [cmd; 255 - cmd].
Proof.
  intros Hb. unfold command_frame, Uint8Array_of. cbn [map].
  rewrite bxor_bytes by (assumption || (unfold is_byte; lia)).
  rewrite lxor_255 by exact Hb.
  rewrite !ToUint8_byte; [reflexivity| |exact Hb].
  unfold is_byte in *. lia.
Qed.

(** ** Big-endian assembly with the 32-bit operators *)

Lemma lor_low x y k :
  0 <= k -> 0 <= y < 2 ^ k -> Z.lor (x * 2 ^ k) y = x * 2 ^ k + y.
Proof.
  intros Hk Hy.
  assert (Hland : Z.land (x * 2 ^ k) y = 0).
  { apply Z.bits_inj'. intros i Hi. rewrite Z.land_spec, Z.bits_0.
    destruct (Z.lt_ge_cases i k) as [Hlt|Hge].
    - rewrite Z.mul_pow2_bits_low by lia. reflexivity.
    - destruct (Z.eq_dec y 0) as [->|Hne].
      + rewrite Z.bits_0, andb_false_r. reflexivity.
      + assert (Z.log2 y < i).
        { apply Z.lt_le_trans with k; [apply Z.log2_lt_pow2; lia|lia]. }
        rewrite (Z.bits_above_log2 y i) by lia.
        rewrite andb_false_r. reflexivity. }
  rewrite <- Z.lxor_lor by exact Hland.
  symmetry. apply Z.add_nocarry_lxor. exact Hland.
Qed.

(** [((a << 24) | (b << 16) | (c << 8) | d) >>> 0] on four bytes. *)
Lemma assemble32 a b c d :
  is_byte a -> is_byte b -> is_byte c -> is_byte d ->
  ushr0 (Num (bor (Num (bor (Num (bor (Num (shl (Num a) 24))
                                       (Num (shl (Num b) 16))))
                            (Num (shl (Num c) 8))))
                  (Num d)))
  = a * 2 ^ 24 + b * 2 ^ 16 + c * 2 ^ 8 + d.
Proof.
  intros Ha Hb Hc Hd.
  rewrite ushr0_bor, bor_mod32, bor_mod32.
  rewrite !shl_byte_mod32 by (assumption || lia).
  rewrite (Z.mod_small d) by (unfold is_byte in Hd; unfold two32; lia).
  rewrite !Z.shiftl_mul_pow2 by lia.
  unfold is_byte in *.
  rewrite (lor_low a (b * 2 ^ 16) 24) by lia.
  replace (a * 2 ^ 24 + b * 2 ^ 16) with ((a * 2 ^ 8 + b) * 2 ^ 16) by lia.
  rewrite (lor_low _ (c * 2 ^ 8) 16) by lia.
  replace ((a * 2 ^ 8 + b) * 2 ^ 16 + c * 2 ^ 8)
    with ((a * 2 ^ 16 + b * 2 ^ 8 + c) * 2 ^ 8) by lia.
  rewrite (lor_low _ d 8) by lia. lia.
Qed.

(** ** The common opening: command, then address *)

Lemma exec_command_address {A} cmd addr (k : proto A) tr o :
  exec (sendCommand cmd;; sendAddress addr;; k) tr o ->
  (writes tr `prefix_of` [command_frame cmd; address_frame addr]
   /\ exists e, o = Throws e)
  \/ exists r1 r2 tr',
       tr = [EvWrite (command_frame cmd); EvRead (Num 1) None r1;
             EvWrite (address_frame addr); EvRead (Num 1) None r2] ++ tr'
       /\ r1 !! 0%nat = Some ACK /\ r2 !! 0%nat = Some ACK
       /\ exec k tr' o.
Proof.
  intros H.
  apply exec_bind_inv in H
    as [(e & H & ->)|([] & tr1 & tr' & -> & H1 & H)].
  { left. split; [|eauto]. apply exec_sendCommand in H.
    destruct H as [e0 -> _|e0 -> _|resp e0 -> _ _|resp -> _ _]; cbn [writes].
    - apply prefix_nil.
    - exists [address_frame addr]. reflexivity.
    - exists [address_frame addr]. reflexivity.
    - exists [address_frame addr]. reflexivity. }
  apply exec_sendCommand, acked_Returns in H1 as (r1 & -> & Hr1).
  apply exec_bind_inv in H
    as [(e & H & ->)|([] & tr2 & tr'' & -> & H2 & H)].
  { left. split; [|eauto]. apply exec_sendAddress in H.
    destruct H as [e0 -> _|e0 -> _|resp e0 -> _ _|resp -> _ _];
      cbn [app writes].
    - exists [address_frame addr]. reflexivity.
    - exists []. reflexivity.
    - exists []. reflexivity.
    - exists []. reflexivity. }
  apply exec_sendAddress, acked_Returns in H2 as (r2 & -> & Hr2).
  right. exists r1, r2, tr''. repeat split; assumption.
Qed.

Lemma exec_command_address_ack {A} cmd addr (k : proto A) tr o :
  exec k tr o ->
  exec (sendCommand cmd;; sendAddress addr;; k)
    (EvWrite (command_frame cmd) :: EvRead (Num 1) None [ACK]
     :: EvWrite (address_frame addr) :: EvRead (Num 1) None [ACK] :: tr) o.
Proof.
  intros H.
  apply (exec_bind _ _ [_; _] tt); [apply exec_sendCommand_ack|].
  apply (exec_bind _ _ [_; _] tt); [apply exec_sendAddress_ack|].
  exact H.
Qed.

(** ** sendCommand *)

(** X3.  For every opcode byte, [sendCommand] writes exactly the two
    bytes [cmd, 255 - cmd], whose XOR is 0xFF, and then reads one byte; it
    returns if and only if that byte is ACK, and otherwise throws an error
    whose message carries the opcode and the byte received, both in
    hexadecimal. *)
Theorem sendCommand_complement (cmd : Z) :
  is_byte cmd ->
  Z.lxor cmd (255 - cmd) = 255
  /\ is_byte (255 - cmd)
  /\ (exists k, sendCommand cmd = Write [cmd; 255 - cmd] (Read (Num 1) None k))
  /\ (forall tr o, exec (sendCommand cmd) tr o ->
        (o = Returns tt <->
         exists resp, tr = [EvWrite [cmd; 255 - cmd]; EvRead (Num 1) None resp]
                      /\ resp !! 0%nat = Some ACK)
        /\ (tr = [] \/ writes tr = [[cmd; 255 - cmd]]))
  /\ (forall b rest, b <> ACK ->
        exec (sendCommand cmd)
          [EvWrite [cmd; 255 - cmd]; EvRead (Num 1) None (b :: rest)]
          (Throws (Error ("Command 0x" +++ toString16 cmd
                          +++ " failed. Got 0x" +++ toString16 b)))).
Proof.
  intros Hb. pose proof (command_frame_byte cmd Hb) as Hframe.
  split; [apply lxor_complement, Hb|].
  split; [unfold is_byte in *; lia|].
  split; [|split].
  - eexists. unfold sendCommand. fold (command_frame cmd). rewrite Hframe.
    reflexivity.
  - intros tr o H. apply exec_sendCommand in H. rewrite Hframe in H.
    destruct H as [e -> ->|e -> ->|resp e -> Hn ->|resp -> Ha ->].
    + split; [|auto]. split; [discriminate|]. intros (r & [=] & _).
    + split; [|auto]. split; [discriminate|]. intros (r & [=] & _).
    + split; [|auto]. split; [discriminate|].
      intros (r & [= <-] & Hr). contradiction.
    + split; [|auto]. split; [eauto|reflexivity].
  - intros b rest Hne. unfold sendCommand. fold (command_frame cmd).
    rewrite Hframe. cbn. do 2 constructor. cbn.
    destruct (Z.eqb_spec b ACK) as [Heq|_]; [contradiction|].
    cbn. constructor.
Qed.

Lemma sendCommand_complement_witness :
  exec (sendCommand 0x31)
    [EvWrite [0x31; 0xCE]; EvRead (Num 1) None [0x1F]]
    (Throws (Error "Command 0x31 failed. Got 0x1f")).
Proof.
  destruct (sendCommand_complement 0x31 ltac:(unfold is_byte; lia))
    as (_ & _ & _ & _ & H).
  apply (H 0x1F []). discriminate.
Defined.

(** ** readMemory *)

Lemma readMemory_valid address (len : Z) :
  1 <= len <= 256 ->
  readMemory address (Num len) =
    (sendCommand CMD.READ_MEMORY;;
     sendAddress address;;
     Write [len - 1; 255 - (len - 1)]
       (Read (Num 1) None (fun ack =>
          if negb (elem_is (ack !! 0%nat) ACK) then
            Throw (Error "ReadMemory: Length NACK")
          else Read (Num len) None (fun data => Ret data)))).
Proof.
  intros Hlen. unfold readMemory. cbn [le lt].
  replace (len <=? 0) with false by (symmetry; lia).
  replace (256 <? len) with false by (symmetry; lia).
  cbn [orb sub].
  assert (Hn : is_byte (len - 1)) by (unfold is_byte; lia).
  assert (E : Uint8Array_of [Num (len - 1); Num (bxor 0xFF (Num (len - 1)))]
              = [len - 1; 255 - (len - 1)]).
  { unfold Uint8Array_of. cbn [map].
    rewrite bxor_bytes by (assumption || (unfold is_byte; lia)).
    rewrite Z.lxor_comm, lxor_255 by exact Hn.
    rewrite !ToUint8_byte; [reflexivity| |exact Hn].
    unfold is_byte in *. lia. }
  rewrite E. reflexivity.
Qed.

(** X4.  For an integer length from 1 to 256, [readMemory] writes the
    command frame 11 EE, the five address bytes and the length frame
    [length - 1, 255 - (length - 1)]; whatever the device answers, what it
    writes is an initial part of these three arrays.  When the three are
    acknowledged it calls [read(length)] and returns the array read, as it
    is.  An integer length below 1 or above 256 throws "Invalid read
    length" without any call of the serial interface; [NaN] passes the
    range check. *)
Theorem readMemory_request (address : number) (len : Z) :
  let n := len - 1 in
  let sent := [[0x11; 0xEE]; address_frame address; [n; 255 - n]] in
  (1 <= len <= 256 ->
     Z.lxor n (255 - n) = 255
     /\ (forall tr o, exec (readMemory address (Num len)) tr o ->
           writes tr `prefix_of` sent)
     /\ (forall tr data, exec (readMemory address (Num len)) tr (Returns data) ->
           writes tr = sent
           /\ last tr = Some (EvRead (Num len) None data))
     /\ (forall data,
           exec (readMemory address (Num len))
             [EvWrite [0x11; 0xEE]; EvRead (Num 1) None [ACK];
              EvWrite (address_frame address); EvRead (Num 1) None [ACK];
              EvWrite [n; 255 - n]; EvRead (Num 1) None [ACK];
              EvRead (Num len) None data]
             (Returns data)))
  /\ (len <= 0 \/ 256 < len ->
      readMemory address (Num len) = Throw (Error "Invalid read length"))
  /\ (forall data,
        exec (readMemory address NaN)
          [EvWrite [0x11; 0xEE]; EvRead (Num 1) None [ACK];
           EvWrite (address_frame address); EvRead (Num 1) None [ACK];
           EvWrite [0; 255]; EvRead (Num 1) None [ACK];
           EvRead NaN None data]
          (Returns data)).
Proof.
  intros n sent. split; [|split].
  - intros Hlen.
    assert (Hn : is_byte n) by (unfold is_byte, n; lia).
    split; [apply lxor_complement, Hn|].
    pose proof (readMemory_valid address len Hlen) as E. fold n in E.
    split; [|split].
    + intros tr o H. rewrite E in H.
      apply exec_command_address in H
        as [[H _]|(r1 & r2 & tr' & -> & _ & _ & H)].
      { destruct H as [k Hk]. exists (k ++ [[n; 255 - n]]).
        change sent with ([command_frame CMD.READ_MEMORY; address_frame address]
                          ++ [[n; 255 - n]]).
        rewrite Hk, <- app_assoc. reflexivity. }
      cbn [app writes].
      apply exec_Write_inv in H as [(tr1 & -> & H)|(-> & e & ->)].
      2:{ exists [[n; 255 - n]]. reflexivity. }
      cbn [writes].
      apply exec_Read_inv in H as [(resp & tr2 & -> & H)|(-> & e & ->)].
      2:{ exists []. reflexivity. }
      cbn in H. cbn [writes].
      destruct (elem_is (resp !! 0%nat) ACK); cbn in H.
      * apply exec_Read_inv in H as [(data & tr3 & -> & H)|(-> & e & ->)].
        -- apply exec_Ret_inv in H as [-> ->]. exists []. reflexivity.
        -- exists []. reflexivity.
      * apply exec_Throw_inv in H as [-> ->]. exists []. reflexivity.
    + intros tr data H. rewrite E in H.
      apply exec_command_address in H
        as [[_ (e & [=])]|(r1 & r2 & tr' & -> & _ & _ & H)].
      apply exec_Write_inv in H as [(tr1 & -> & H)|(-> & e & [=])].
      apply exec_Read_inv in H as [(resp & tr2 & -> & H)|(-> & e & [=])].
      cbn in H.
      destruct (elem_is (resp !! 0%nat) ACK); cbn in H.
      * apply exec_Read_inv in H as [(data' & tr3 & -> & H)|(-> & e & [=])].
        apply exec_Ret_inv in H as [-> [= <-]]. split; reflexivity.
      * apply exec_Throw_inv in H as [_ [=]].
    + intros data. rewrite E.
      apply exec_command_address_ack.
      repeat constructor.
  - intros Hlen. unfold readMemory. cbn [le lt].
    destruct Hlen as [Hlen|Hlen].
    + replace (len <=? 0) with true by (symmetry; lia). reflexivity.
    + replace (256 <? len) with true by (symmetry; lia).
      rewrite orb_true_r. reflexivity.
  - intros data. unfold readMemory. cbn [le lt orb sub].
    apply exec_command_address_ack.
    repeat constructor.
Qed.

Lemma readMemory_request_witness :
  exec (readMemory (Num 0x08000000) (Num 256))
    [EvWrite [0x11; 0xEE]; EvRead (Num 1) None [ACK];
     EvWrite [0x08; 0x00; 0x00; 0x00; 0x08]; EvRead (Num 1) None [ACK];
     EvWrite [0xFF; 0x00]; EvRead (Num 1) None [ACK];
     EvRead (Num 256) None [1; 2; 3]]
    (Returns [1; 2; 3]).
Proof.
  pose proof (readMemory_request (Num 0x08000000) 256) as H.
  cbv zeta in H. destruct H as (H & _).
  destruct (H ltac:(lia)) as (_ & _ & _ & Hex).
  exact (Hex [1; 2; 3]).
Defined.

(** ** firmwareCRC *)

(** The value [firmwareCRC] computes from the array [crcBytes]. *)
Definition crc_of (crcBytes : list Z) : Z :=
  ushr0 (Num
    (bor (Num (bor (Num (bor (Num (shl (ToNumber (crcBytes !! 0%nat)) 24))
                              (Num (shl (ToNumber (crcBytes !! 1%nat)) 16))))
                   (Num (shl (ToNumber (crcBytes !! 2%nat)) 8))))
         (ToNumber (crcBytes !! 3%nat)))).

Lemma firmwareCRC_valid startAddress (count : Z) :
  1 <= count <= 0x10000 ->
  let n := count - 1 in
  let msb := n / 256 in
  let lsb := n mod 256 in
  firmwareCRC startAddress (Num count) =
    (sendCommand CMD.FIRMWARE_CRC;;
     sendAddress startAddress;;
     Write [msb; lsb; Z.lxor (Z.lxor msb lsb) 255]
       (Read (Num 1) None (fun ack =>
          if negb (elem_is (ack !! 0%nat) ACK) then
            Throw (Error "Firmware CRC: NACK during sector count")
          else
            Read (Num 4) (Some 10000) (fun crcBytes =>
              Ret (crc_of crcBytes)))))
  /\ is_byte msb /\ is_byte lsb.
Proof.
  intros Hcount n msb lsb.
  assert (Hmsb : is_byte msb).
  { unfold is_byte, msb, n. split.
    - apply Z.div_pos; lia.
    - apply Z.div_lt_upper_bound; lia. }
  assert (Hlsb : is_byte lsb) by apply mod_256_byte.
  split; [|split; assumption].
  unfold firmwareCRC. cbn [le lt].
  replace (count <=? 0) with false by (symmetry; lia).
  replace (65536 <? count) with false by (symmetry; lia).
  cbn [orb sub]. fold n.
  assert (E : Uint8Array_of
                [Num (band (Num (sar (Num n) 8)) 0xFF);
                 Num (band (Num n) 0xFF);
                 Num (bxor (Num (bxor (Num (band (Num (sar (Num n) 8)) 0xFF))
                                      (Num (band (Num n) 0xFF))))
                           0xFF)]
              = [msb; lsb; Z.lxor (Z.lxor msb lsb) 255]).
  { rewrite (sar_field n 8) by lia. rewrite band_255.
    change (2 ^ 8) with 256. fold lsb.
    replace ((n / 256) mod 256) with msb
      by (symmetry; apply Z.mod_small; exact Hmsb).
    rewrite (bxor_bytes msb lsb) by assumption.
    rewrite bxor_bytes
      by first [apply lxor_byte; assumption | unfold is_byte; lia].
    unfold Uint8Array_of. cbn [map].
    rewrite !ToUint8_byte
      by first [assumption
               | apply lxor_byte;
                 [apply lxor_byte; assumption | unfold is_byte; lia]].
    reflexivity. }
  rewrite E. unfold crc_of. reflexivity.
Qed.

(** X5.  For a sector count from 1 to 0x10000, [firmwareCRC] writes the
    command frame AC 53, the five address bytes and the frame
    [msb, lsb, msb xor lsb xor 0xFF], where [msb * 256 + lsb] is the sector
    count minus one; once the three are acknowledged it reads four bytes
    with a timeout of 10000 ms and returns their big-endian value, which
    lies in [0, 2^32).  An integer count below 1 or above 0x10000 throws
    "Invalid sector count" without any call of the serial interface. *)
Theorem firmwareCRC_request (startAddress : number) (count : Z) :
  let n := count - 1 in
  let msb := n / 256 in
  let lsb := n mod 256 in
  let frame := [msb; lsb; Z.lxor (Z.lxor msb lsb) 255] in
  let sent := [[0xAC; 0x53]; address_frame startAddress; frame] in
  (1 <= count <= 0x10000 ->
     Forall is_byte frame
     /\ msb * 256 + lsb = count - 1
     /\ (forall tr o, exec (firmwareCRC startAddress (Num count)) tr o ->
           writes tr `prefix_of` sent)
     /\ (forall tr crc,
           exec (firmwareCRC startAddress (Num count)) tr (Returns crc) ->
           writes tr = sent /\ 0 <= crc < 2 ^ 32)
     /\ (forall c0 c1 c2 c3,
           Forall is_byte [c0; c1; c2; c3] ->
           exec (firmwareCRC startAddress (Num count))
             [EvWrite [0xAC; 0x53]; EvRead (Num 1) None [ACK];
              EvWrite (address_frame startAddress); EvRead (Num 1) None [ACK];
              EvWrite frame; EvRead (Num 1) None [ACK];
              EvRead (Num 4) (Some 10000) [c0; c1; c2; c3]]
             (Returns (c0 * 2 ^ 24 + c1 * 2 ^ 16 + c2 * 2 ^ 8 + c3))))
  /\ (count <= 0 \/ 0x10000 < count ->
      firmwareCRC startAddress (Num count) = Throw (Error "Invalid sector count")).
Proof.
  intros n msb lsb frame sent. split.
  - intros Hcount.
    destruct (firmwareCRC_valid startAddress count Hcount) as (E & Hmsb & Hlsb).
    fold n msb lsb in E, Hmsb, Hlsb.
    split; [|split; [|split; [|split]]].
    + unfold frame. repeat (apply Forall_cons_2; [|]); try assumption.
      * apply lxor_byte; [apply lxor_byte; assumption|unfold is_byte; lia].
      * apply Forall_nil_2.
    + unfold msb, lsb. pose proof (Z.div_mod n 256 ltac:(lia)). lia.
    + intros tr o H. rewrite E in H.
      apply exec_command_address in H
        as [[H _]|(r1 & r2 & tr' & -> & _ & _ & H)].
      { destruct H as [k Hk]. exists (k ++ [frame]).
        change sent with ([command_frame CMD.FIRMWARE_CRC;
                           address_frame startAddress] ++ [frame]).
        rewrite Hk, <- app_assoc. reflexivity. }
      cbn [app writes].
      apply exec_Write_inv in H as [(tr1 & -> & H)|(-> & e & ->)].
      2:{ exists [frame]. reflexivity. }
      cbn [writes].
      apply exec_Read_inv in H as [(resp & tr2 & -> & H)|(-> & e & ->)].
      2:{ exists []. reflexivity. }
      cbn beta in H. cbn [writes].
      destruct (elem_is (resp !! 0%nat) ACK); cbn [negb] in H.
      * apply exec_Read_inv in H as [(data & tr3 & -> & H)|(-> & e & ->)].
        -- apply exec_Ret_inv in H as [-> ->]. exists []. reflexivity.
        -- exists []. reflexivity.
      * apply exec_Throw_inv in H as [-> ->]. exists []. reflexivity.
    + intros tr crc H. rewrite E in H.
      apply exec_command_address in H
        as [[_ (e & [=])]|(r1 & r2 & tr' & -> & _ & _ & H)].
      apply exec_Write_inv in H as [(tr1 & -> & H)|(-> & e & [=])].
      apply exec_Read_inv in H as [(resp & tr2 & -> & H)|(-> & e & [=])].
      cbn beta in H.
      destruct (elem_is (resp !! 0%nat) ACK); cbn [negb] in H.
      * apply exec_Read_inv in H as [(data' & tr3 & -> & H)|(-> & e & [=])].
        apply exec_Ret_inv in H as [-> [= ->]]. split; [reflexivity|].
        unfold crc_of, ushr0. change (2 ^ 32) with two32.
        apply Z.mod_pos_bound. reflexivity.
      * apply exec_Throw_inv in H as [_ [=]].
    + intros c0 c1 c2 c3 Hc. rewrite E.
      apply Forall_cons in Hc as [H0 Hc]. apply Forall_cons in Hc as [H1 Hc].
      apply Forall_cons in Hc as [H2 Hc]. apply Forall_cons in Hc as [H3 _].
      rewrite <- (assemble32 c0 c1 c2 c3) by assumption.
      apply exec_command_address_ack.
      do 2 constructor. cbn [lookup list_lookup elem_is].
      rewrite Z.eqb_refl. cbn [negb]. constructor.
      unfold crc_of. cbn [lookup list_lookup ToNumber]. constructor.
  - intros Hcount. unfold firmwareCRC. cbn [le lt].
    destruct Hcount as [Hcount|Hcount].
    + replace (count <=? 0) with true by (symmetry; lia). reflexivity.
    + replace (65536 <? count) with true by (symmetry; lia).
      rewrite orb_true_r. reflexivity.
Qed.

Lemma firmwareCRC_request_witness :
  exec (firmwareCRC (Num 0x08000000) (Num 0x10000))
    [EvWrite [0xAC; 0x53]; EvRead (Num 1) None [ACK];
     EvWrite [0x08; 0x00; 0x00; 0x00; 0x08]; EvRead (Num 1) None [ACK];
     EvWrite [0xFF; 0xFF; 0xFF]; EvRead (Num 1) None [ACK];
     EvRead (Num 4) (Some 10000) [0xDE; 0xAD; 0xBE; 0xEF]]
    (Returns 0xDEADBEEF).
Proof.
  pose proof (firmwareCRC_request (Num 0x08000000) 0x10000) as H.
  cbv zeta in H. destruct H as (H & _).
  destruct (H ltac:(lia)) as (_ & _ & _ & _ & Hex).
  apply (Hex 0xDE 0xAD 0xBE 0xEF).
  repeat (apply Forall_cons_2; [unfold is_byte; lia|]). apply Forall_nil_2.
Defined.

(** ** Stopping at the first response that is not ACK *)

(** A call of the interface that the device answered with ACK; a call
    that is not a read counts as answered. *)
Definition answered_ack (ev : event) : Prop :=
  match ev with
  | EvRead _ _ resp => resp !! 0%nat = Some ACK
  | _ => True
  end.

(** After a response that is not ACK nothing more is called, and the
    method throws. *)
Definition stops_at_nack {A} (tr : list event) (o : outcome A) : Prop :=
  forall pre ev post,
    tr = pre ++ ev :: post -> ~ answered_ack ev ->
    post = [] /\ exists e, o = Throws e.

Definition disciplined {A} (p : proto A) : Prop :=
  (forall tr o, exec p tr o -> stops_at_nack tr o)
  /\ (forall tr a, exec p tr (Returns a) -> Forall answered_ack tr).

Lemma stops_nil {A} (o : outcome A) : stops_at_nack [] o.
Proof. intros [|? ?] ev post E; discriminate E. Qed.

Lemma stops_cons {A} ev0 tr (o : outcome A) :
  answered_ack ev0 -> stops_at_nack tr o -> stops_at_nack (ev0 :: tr) o.
Proof.
  intros H0 H [|e pre] ev post E Hn.
  - injection E as -> _. contradiction.
  - injection E as _ E. exact (H pre ev post E Hn).
Qed.

Lemma stops_app {A} tr1 tr2 (o : outcome A) :
  Forall answered_ack tr1 -> stops_at_nack tr2 o ->
  stops_at_nack (tr1 ++ tr2) o.
Proof.
  induction 1 as [|ev tr1 Hev _ IH]; intros H; [exact H|].
  cbn [app]. apply stops_cons; auto.
Qed.

Lemma stops_last {A} ev (o : outcome A) :
  (~ answered_ack ev -> exists e, o = Throws e) -> stops_at_nack [ev] o.
Proof.
  intros H [|e [|? ?]] ev' post E Hn; try discriminate E.
  injection E as -> <-. auto.
Qed.

Lemma stops_Throws {A B} tr e :
  stops_at_nack tr (@Throws A e) -> stops_at_nack tr (@Throws B e).
Proof.
  intros H pre ev post E Hn. destruct (H pre ev post E Hn) as [-> _]. eauto.
Qed.

Lemma disciplined_Throw {A} e : disciplined (@Throw A e).
Proof.
  split; intros tr o H; apply exec_Throw_inv in H as [-> H].
  - apply stops_nil.
  - discriminate H.
Qed.

Lemma disciplined_bind {A B} (m : proto A) (f : A -> proto B) :
  disciplined m -> (forall a, disciplined (f a)) -> disciplined (m ≫= f).
Proof.
  intros [Hm1 Hm2] Hf. split.
  - intros tr o H.
    apply exec_bind_inv in H as [(e & H & ->)|(a & tr1 & tr2 & -> & H1 & H2)].
    + eapply stops_Throws, Hm1, H.
    + apply stops_app; [eapply Hm2, H1|]. eapply Hf, H2.
  - intros tr b H.
    apply exec_bind_inv in H as [(e & _ & [=])|(a & tr1 & tr2 & -> & H1 & H2)].
    apply Forall_app. split; [eapply Hm2, H1|]. eapply Hf, H2.
Qed.

(** A write followed by the read of an acknowledgement. *)
Lemma disciplined_write_ack frame c t (k : list Z -> proto unit) :
  (forall resp, resp !! 0%nat = Some ACK -> k resp = Ret tt) ->
  (forall resp, resp !! 0%nat <> Some ACK -> exists e, k resp = Throw e) ->
  disciplined (Write frame (Read c t k)).
Proof.
  intros Hack Hnack. split.
  - intros tr o H.
    apply exec_Write_inv in H as [(tr1 & -> & H)|(-> & e & ->)];
      [|apply stops_nil].
    apply stops_cons; [exact I|].
    apply exec_Read_inv in H as [(resp & tr2 & -> & H)|(-> & e & ->)];
      [|apply stops_nil].
    destruct (decide (resp !! 0%nat = Some ACK)) as [Hr|Hr].
    + rewrite (Hack resp Hr) in H. apply exec_Ret_inv in H as [-> ->].
      apply stops_last. intros Hn. contradiction.
    + destruct (Hnack resp Hr) as [e He]. rewrite He in H.
      apply exec_Throw_inv in H as [-> ->].
      apply stops_last. eauto.
  - intros tr a H.
    apply exec_Write_inv in H as [(tr1 & -> & H)|(-> & e & [=])].
    apply exec_Read_inv in H as [(resp & tr2 & -> & H)|(-> & e & [=])].
    destruct (decide (resp !! 0%nat = Some ACK)) as [Hr|Hr].
    + rewrite (Hack resp Hr) in H. apply exec_Ret_inv in H as [-> _].
      repeat constructor. exact Hr.
    + destruct (Hnack resp Hr) as [e He]. rewrite He in H.
      apply exec_Throw_inv in H as [_ [=]].
Qed.

Lemma disciplined_sendCommand cmd : disciplined (sendCommand cmd).
Proof.
  unfold sendCommand. apply disciplined_write_ack.
  - intros resp Hr. cbn. rewrite Hr. cbn. rewrite ?Z.eqb_refl. reflexivity.
  - intros resp Hr. cbn. apply elem_is_false in Hr. rewrite Hr. cbn.
    destruct (resp !! 0%nat); cbn; eauto.
Qed.

Lemma disciplined_sendAddress addr : disciplined (sendAddress addr).
Proof.
  unfold sendAddress. apply disciplined_write_ack.
  - intros resp Hr. cbn. rewrite Hr. cbn. rewrite ?Z.eqb_refl. reflexivity.
  - intros resp Hr. cbn. apply elem_is_false in Hr. rewrite Hr. cbn. eauto.
Qed.

Lemma disciplined_eraseAll : disciplined eraseAll.
Proof.
  unfold eraseAll. apply disciplined_bind; [apply disciplined_sendCommand|].
  intros []. apply disciplined_write_ack.
  - intros resp Hr. cbn. rewrite Hr. cbn. rewrite ?Z.eqb_refl. reflexivity.
  - intros resp Hr. cbn. apply elem_is_false in Hr. rewrite Hr. cbn. eauto.
Qed.

Lemma disciplined_writeMemory address data :
  disciplined (writeMemory address data).
Proof.
  unfold writeMemory.
  destruct (_ || _); [apply disciplined_Throw|].
  apply disciplined_bind; [apply disciplined_sendCommand|]. intros [].
  apply disciplined_bind; [apply disciplined_sendAddress|]. intros [].
  apply disciplined_write_ack.
  - intros resp Hr. cbn. rewrite Hr. cbn. rewrite ?Z.eqb_refl. reflexivity.
  - intros resp Hr. cbn. apply elem_is_false in Hr. rewrite Hr. cbn. eauto.
Qed.

(** X6.  [sendCommand], [sendAddress], [writeMemory] and [eraseAll] stop
    at the first response whose first byte is not ACK: in every execution,
    a read answered otherwise is the last call the method makes, and the
    method throws; and when the method returns, every read was answered
    with ACK.  In particular [writeMemory] never sends the address after a
    rejected command, nor the data after a rejected address. *)
Theorem ack_discipline (cmd : Z) (address : number) (data : list Z) :
  (forall tr o pre c t resp post,
     exec (sendCommand cmd) tr o \/ exec (sendAddress address) tr o
     \/ exec (writeMemory address data) tr o \/ exec eraseAll tr o ->
     tr = pre ++ EvRead c t resp :: post ->
     resp !! 0%nat <> Some ACK ->
     post = [] /\ exists e, o = Throws e)
  /\ (forall tr c t resp,
        exec (sendCommand cmd) tr (Returns tt)
        \/ exec (sendAddress address) tr (Returns tt)
        \/ exec (writeMemory address data) tr (Returns tt)
        \/ exec eraseAll tr (Returns tt) ->
        EvRead c t resp ∈ tr -> resp !! 0%nat = Some ACK).
Proof.
  destruct (disciplined_sendCommand cmd) as [Hc1 Hc2].
  destruct (disciplined_sendAddress address) as [Ha1 Ha2].
  destruct (disciplined_writeMemory address data) as [Hw1 Hw2].
  destruct disciplined_eraseAll as [He1 He2].
  split.
  - intros tr o pre c t resp post H E Hn.
    assert (Hs : stops_at_nack tr o).
    { destruct H as [H|[H|[H|H]]]; auto. }
    exact (Hs pre (EvRead c t resp) post E Hn).
  - intros tr c t resp H Hin.
    assert (Hs : Forall answered_ack tr).
    { destruct H as [H|[H|[H|H]]]; eauto. }
    rewrite Forall_forall in Hs. exact (Hs _ Hin).
Qed.

Lemma ack_discipline_witness :
  exec (writeMemory (Num 0x08000000) [1; 2; 3])
    [EvWrite [0x31; 0xCE]; EvRead (Num 1) None [0x1F]]
    (Throws (Error "Command 0x31 failed. Got 0x1f"))
  /\ forall o,
       ~ exec (writeMemory (Num 0x08000000) [1; 2; 3])
           [EvWrite [0x31; 0xCE]; EvRead (Num 1) None [0x1F];
            EvWrite [0x08; 0x00; 0x00; 0x00; 0x08]] o.
Proof.
  split.
  - unfold writeMemory. cbn. repeat constructor.
  - intros o H.
    destruct (ack_discipline 0x31 (Num 0x08000000) [1; 2; 3]) as [Hstop _].
    destruct (Hstop _ o [EvWrite [0x31; 0xCE]] (Num 1) None [0x1F]
                [EvWrite [0x08; 0x00; 0x00; 0x00; 0x08]]
                (or_intror (or_intror (or_introl H))) eq_refl)
      as [Hpost _]; [discriminate|discriminate Hpost].
Defined.

End AT32ProtocolMore.

(* ================================================================== *)
(** * The exchanges of eraseAll and getVersion *)
(* ================================================================== *)

Module AT32ProtocolExchanges.
Import AT32Protocol ExecFacts JSFacts AT32ProtocolFacts.

Definition erase_frame : list Z := [0xFF; 0xFF; 0x00].

Lemma eraseAll_unfold_command :
  eraseAll =
  (sendCommand CMD.ERASE ≫= fun _ =>
   Write erase_frame
     (Read (Num 1) (Some 10000) (fun ack =>
        if negb (elem_is (ack !! 0%nat) ACK) then
          Throw (Error "Erase All failed")
        else Ret tt))).
Proof. reflexivity. Qed.

Lemma getVersion_unfold_command :
  getVersion =
  (sendCommand CMD.GET_VERSION ≫= fun _ =>
   Read (Num 1) None (fun ver =>
     Read (Num 1) None (fun opt1 =>
       Read (Num 1) None (fun opt2 =>
         Read (Num 1) None (fun ack =>
           if negb (elem_is (ack !! 0%nat) ACK) then
             Throw (Error "GetVersion: Missing final ACK")
           else
             Ret {| version := ver !! 0%nat;
                    optionBytes := [opt1 !! 0%nat; opt2 !! 0%nat] |}))))).
Proof. reflexivity. Qed.

Lemma exec_sendCommand_acked cmd resp :
  resp !! 0%nat = Some ACK ->
  exec (sendCommand cmd)
    [EvWrite (command_frame cmd); EvRead (Num 1) None resp] (Returns tt).
Proof.
  intros H. apply elem_is_spec in H. unfold sendCommand.
  cbn [mbind proto_mbind proto_bind]. do 2 constructor.
  cbn [proto_bind]. rewrite H. cbn [negb proto_bind]. constructor.
Qed.

(** What follows an acknowledged command. *)
Lemma exec_command_then {A} cmd (k : proto A) tr o :
  exec (sendCommand cmd ≫= fun _ => k) tr o ->
  (writes tr `prefix_of` [command_frame cmd] /\ exists e, o = Throws e)
  \/ (exists resp tr2,
        tr = EvWrite (command_frame cmd) :: EvRead (Num 1) None resp :: tr2
        /\ resp !! 0%nat = Some ACK /\ exec k tr2 o).
Proof.
  intros H.
  apply exec_bind_inv in H as [(e & H & ->)|([] & tr1 & tr2 & -> & H1 & H2)].
  - left. split; [|eauto].
    apply exec_sendCommand, acked_writes in H as [[-> _]| ->];
      [apply prefix_nil|reflexivity].
  - right. apply exec_sendCommand, acked_Returns in H1 as (resp & -> & Hr).
    exists resp, tr2. auto.
Qed.

Lemma exec_command_acked {A} cmd (k : proto A) resp tr2 o :
  resp !! 0%nat = Some ACK -> exec k tr2 o ->
  exec (sendCommand cmd ≫= fun _ => k)
    (EvWrite (command_frame cmd) :: EvRead (Num 1) None resp :: tr2) o.
Proof.
  intros Hr Hk.
  apply (exec_bind (fun _ => k) (sendCommand cmd)
           [EvWrite (command_frame cmd); EvRead (Num 1) None resp] tt tr2 o);
    [apply exec_sendCommand_acked, Hr|exact Hk].
Qed.

(** X19.  [eraseAll] writes the command frame 44 BB and, once it is
    acknowledged, the frame FF FF 00 of a global erase, and nothing else;
    it returns exactly when both are answered with ACK, the second answer
    being awaited with a timeout of 10000 ms instead of the default; an
    answer to the second frame that is not ACK makes it throw "Erase All
    failed". *)
Theorem eraseAll_exchange :
  (forall tr o, exec eraseAll tr o ->
     writes tr `prefix_of` [[0x44; 0xBB]; erase_frame])
  /\ (forall tr,
        exec eraseAll tr (Returns tt) <->
        exists r1 r2,
          tr = [EvWrite [0x44; 0xBB]; EvRead (Num 1) None r1;
                EvWrite erase_frame; EvRead (Num 1) (Some 10000) r2]
          /\ r1 !! 0%nat = Some ACK /\ r2 !! 0%nat = Some ACK)
  /\ (forall r1 r2,
        r1 !! 0%nat = Some ACK -> r2 !! 0%nat <> Some ACK ->
        exec eraseAll
          [EvWrite [0x44; 0xBB]; EvRead (Num 1) None r1;
           EvWrite erase_frame; EvRead (Num 1) (Some 10000) r2]
          (Throws (Error "Erase All failed"))).
Proof.
  rewrite eraseAll_unfold_command.
  change [0x44; 0xBB] with (command_frame CMD.ERASE).
  split; [|split].
  - intros tr o H.
    apply exec_command_then in H
      as [[H _]|(r1 & tr2 & -> & _ & H)].
    { destruct H as [rest E]. exists (rest ++ [erase_frame]).
      rewrite app_assoc, <- E. reflexivity. }
    cbn [writes].
    apply exec_Write_inv in H as [(tr3 & -> & H)|(-> & e & ->)];
      [|exists [erase_frame]; reflexivity].
    apply exec_Read_inv in H as [(r2 & tr4 & -> & H)|(-> & e & ->)];
      [|exists []; reflexivity].
    destruct (negb (elem_is (r2 !! 0%nat) ACK)); exec_inv;
      exists []; reflexivity.
  - intros tr. split.
    + intros H.
      apply exec_command_then in H
        as [[_ [e [=]]]|(r1 & tr2 & -> & H1 & H)].
      apply exec_Write_inv in H as [(tr3 & -> & H)|(_ & e & [=])].
      apply exec_Read_inv in H as [(r2 & tr4 & -> & H)|(_ & e & [=])].
      destruct (elem_is (r2 !! 0%nat) ACK) eqn:E2; cbn [negb] in H;
        [|apply exec_Throw_inv in H as [_ [=]]].
      apply exec_Ret_inv in H as [-> _].
      exists r1, r2. split; [reflexivity|].
      split; [exact H1|apply elem_is_spec, E2].
    + intros (r1 & r2 & -> & H1 & H2).
      apply elem_is_spec in H2.
      apply exec_command_acked; [exact H1|].
      do 2 constructor. rewrite H2. cbn [negb]. constructor.
  - intros r1 r2 H1 H2.
    apply elem_is_false in H2.
    apply exec_command_acked; [exact H1|].
    do 2 constructor. rewrite H2. cbn [negb]. constructor.
Qed.

(** X20.  [getVersion] writes the command frame 01 FE and nothing else.
    It returns exactly when the frame is acknowledged and the fourth of
    the four one-byte reads that follow is answered with ACK; the version
    is then the byte of the first of these reads and the option bytes are
    those of the second and third, as they came.  When the fourth read is
    answered otherwise it throws "GetVersion: Missing final ACK". *)
Theorem getVersion_exchange :
  (forall tr o, exec getVersion tr o -> writes tr `prefix_of` [[0x01; 0xFE]])
  /\ (forall tr v,
        exec getVersion tr (Returns v) <->
        exists r0 ver opt1 opt2 ack,
          tr = [EvWrite [0x01; 0xFE]; EvRead (Num 1) None r0;
                EvRead (Num 1) None ver; EvRead (Num 1) None opt1;
                EvRead (Num 1) None opt2; EvRead (Num 1) None ack]
          /\ r0 !! 0%nat = Some ACK /\ ack !! 0%nat = Some ACK
          /\ v = {| version := ver !! 0%nat;
                    optionBytes := [opt1 !! 0%nat; opt2 !! 0%nat] |})
  /\ (forall r0 ver opt1 opt2 ack,
        r0 !! 0%nat = Some ACK -> ack !! 0%nat <> Some ACK ->
        exec getVersion
          [EvWrite [0x01; 0xFE]; EvRead (Num 1) None r0;
           EvRead (Num 1) None ver; EvRead (Num 1) None opt1;
           EvRead (Num 1) None opt2; EvRead (Num 1) None ack]
          (Throws (Error "GetVersion: Missing final ACK"))).
Proof.
  rewrite getVersion_unfold_command.
  change [0x01; 0xFE] with (command_frame CMD.GET_VERSION).
  split; [|split].
  - intros tr o H.
    apply exec_command_then in H
      as [[H _]|(r0 & tr2 & -> & _ & H)]; [exact H|].
    cbn [writes].
    apply exec_Read_inv in H as [(ver & tr3 & -> & H)|(-> & e & ->)];
      [|exists []; reflexivity].
    apply exec_Read_inv in H as [(opt1 & tr4 & -> & H)|(-> & e & ->)];
      [|exists []; reflexivity].
    apply exec_Read_inv in H as [(opt2 & tr5 & -> & H)|(-> & e & ->)];
      [|exists []; reflexivity].
    apply exec_Read_inv in H as [(ack & tr6 & -> & H)|(-> & e & ->)];
      [|exists []; reflexivity].
    destruct (negb (elem_is (ack !! 0%nat) ACK)); exec_inv;
      exists []; reflexivity.
  - intros tr v. split.
    + intros H.
      apply exec_command_then in H
        as [[_ [e [=]]]|(r0 & tr2 & -> & H0 & H)].
      apply exec_Read_inv in H as [(ver & tr3 & -> & H)|(_ & e & [=])].
      apply exec_Read_inv in H as [(opt1 & tr4 & -> & H)|(_ & e & [=])].
      apply exec_Read_inv in H as [(opt2 & tr5 & -> & H)|(_ & e & [=])].
      apply exec_Read_inv in H as [(ack & tr6 & -> & H)|(_ & e & [=])].
      destruct (elem_is (ack !! 0%nat) ACK) eqn:E1; cbn [negb] in H;
        [|apply exec_Throw_inv in H as [_ [=]]].
      apply exec_Ret_inv in H as [-> Hv]. injection Hv as Hv. subst v.
      exists r0, ver, opt1, opt2, ack. split; [reflexivity|].
      split; [exact H0|]. split; [apply elem_is_spec, E1|reflexivity].
    + intros (r0 & ver & opt1 & opt2 & ack & -> & H0 & H1 & Hv). subst v.
      apply elem_is_spec in H1.
      apply exec_command_acked; [exact H0|].
      do 4 constructor. rewrite H1. cbn [negb]. constructor.
  - intros r0 ver opt1 opt2 ack H0 H1.
    apply elem_is_false in H1.
    apply exec_command_acked; [exact H0|].
    do 4 constructor. rewrite H1. cbn [negb]. constructor.
Qed.

End AT32ProtocolExchanges.

(* ================================================================== *)
(** * The protocol engine on WebSerialInterface *)
(* ================================================================== *)

(** The three calls of the interface, as trees. *)
Lemma proto_write_eq data : write data = Write data (Ret tt).
Proof. reflexivity. Qed.

Lemma proto_read_eq count timeoutMs : read count timeoutMs = Read count timeoutMs Ret.
Proof. reflexivity. Qed.

Lemma proto_flush_eq : flush = Flush (Ret tt).
Proof. reflexivity. Qed.

Module WebSerialInterfaceMore.
Import AT32Protocol WebSerialInterface ExecFacts JSFacts.
Import WebSerialInterfaceFacts.

(** ** What [read] leaves alone *)

Lemma chunks_portOpen chunks : forall st,
  portOpen (fold_left (fun s value => readLoop_chunk value s) chunks st)
  = portOpen st.
Proof.
  induction chunks as [|value chunks IH]; intros st; cbn [fold_left];
    [reflexivity|]. rewrite IH. reflexivity.
Qed.

Lemma chunks_keepReading chunks : forall st,
  keepReading (fold_left (fun s value => readLoop_chunk value s) chunks st)
  = keepReading st.
Proof.
  induction chunks as [|value chunks IH]; intros st; cbn [fold_left];
    [reflexivity|]. rewrite IH. reflexivity.
Qed.

Lemma sleep_portOpen t st : portOpen (sleep t st) = portOpen st.
Proof. unfold sleep. cbn [portOpen]. apply chunks_portOpen. Qed.

Lemma sleep_keepReading t st :
  keepReading (sleep t st) = keepReading st && negb (stopped t).
Proof. unfold sleep. cbn [keepReading]. rewrite chunks_keepReading. reflexivity. Qed.

Lemma read_wait_portOpen sched : forall count timeoutMs startTime st c st' sched',
  read_wait count timeoutMs startTime sched st = (c, st', sched') ->
  portOpen st' = portOpen st.
Proof.
  induction sched as [|t sched IH];
    intros count timeoutMs startTime st c st' sched' H; cbn [read_wait] in H.
  - repeat match type of H with
      | (if ?b then _ else _) = _ => destruct b
      end; injection H as _ <- _; reflexivity.
  - repeat match type of H with
      | (if ?b then _ else _) = _ => destruct b
      end; try (injection H as _ <- _; reflexivity).
    apply IH in H. rewrite H. apply sleep_portOpen.
Qed.

(** A call of [read] changes neither what was written nor whether the
    port is open, and sleeps through an initial part of the schedule. *)
Lemma read_frame count timeoutMs st sched res st' sched' :
  read count timeoutMs st sched = (res, st', sched') ->
  wire st' = wire st /\ portOpen st' = portOpen st
  /\ exists slept, sched = slept ++ sched'.
Proof.
  intros H. rewrite read_unfold in H.
  destruct (read_wait count (default 1000 timeoutMs) (now st) sched st)
    as [[c st1] sched1] eqn:Hwait.
  pose proof (read_wait_portOpen _ _ _ _ _ _ _ _ Hwait) as Hport.
  apply read_wait_spec in Hwait as (slept & -> & _ & Hwire & _).
  destruct c as [[[]|e]|]; injection H as <- <- <-;
    cbn [wire portOpen set_buffer]; eauto.
Qed.

(** ** Composition *)

(** Running a sequence is running its parts in turn. *)
Lemma run_bind {A B} (m : proto A) (f : A -> proto B) : forall st sched,
  run (m ≫= f) st sched =
  match run m st sched with
  | (Settled (Returns a), st', sched') => run (f a) st' sched'
  | (Settled (Throws e), st', sched') => (Settled (Throws e), st', sched')
  | (Pending, st', sched') => (Pending, st', sched')
  end.
Proof.
  unfold mbind, proto_mbind.
  induction m as [a|e|k IH|d k IH|c t k IH]; intros st sched;
    cbn [proto_bind run].
  - reflexivity.
  - reflexivity.
  - apply IH.
  - destruct (write d st) as [[[]|e] st1]; [apply IH|reflexivity].
  - destruct (read c t st sched) as [[[[resp|e]|] st1] sched1];
      [apply IH|reflexivity|reflexivity].
Qed.



(** ** A port that is not open *)

Lemma run_closed_wire {A} (p : proto A) : forall st sched,
  portOpen st = false ->
  wire (snd (fst (run p st sched))) = wire st
  /\ portOpen (snd (fst (run p st sched))) = false.
Proof.
  induction p as [a|e|k IH|d k IH|c t k IH]; intros st sched Hclosed;
    cbn [run].
  - auto.
  - auto.
  - apply (IH (flush st) sched). exact Hclosed.
  - unfold write. rewrite Hclosed. cbn [negb fst snd]. auto.
  - destruct (read c t st sched) as [[res st1] sched1] eqn:Hread.
    apply read_frame in Hread as (Hwire1 & Hport1 & _).
    rewrite Hclosed in Hport1.
    destruct res as [[resp|e]|]; cbn [fst snd]; auto.
    destruct (IH resp st1 sched1 Hport1) as [Hw Hp].
    rewrite Hw, Hwire1. auto.
Qed.

Definition port_not_open {A} : completion A :=
  Settled (Throws (Error "Port not open")).

Lemma run_sendCommand_closed {A} cmd (k : unit -> proto A) st sched :
  portOpen st = false ->
  run (sendCommand cmd ≫= k) st sched = (port_not_open, st, sched).
Proof.
  intros Hclosed. rewrite run_bind. unfold sendCommand.
  rewrite proto_write_eq. cbn [mbind proto_mbind proto_bind run].
  unfold write. rewrite Hclosed. reflexivity.
Qed.

(** X8.  While the port is not open, nothing is ever handed to it: no
    method tree of the protocol engine changes what was written, and each
    public method is rejected with "Port not open" at its first write,
    before it sleeps or reads anything ([sync] having flushed the buffer
    first). *)
Theorem closed_port_writes_nothing (st : state) (sched : list tick) :
  portOpen st = false ->
  (forall A (p : proto A), wire (snd (fst (run p st sched))) = wire st)
  /\ run sync st sched = (port_not_open, flush st, sched)
  /\ run getID st sched = (port_not_open, st, sched)
  /\ run getVersion st sched = (port_not_open, st, sched)
  /\ run eraseAll st sched = (port_not_open, st, sched)
  /\ (forall address data,
        (1 <= length data <= 256)%nat ->
        run (writeMemory address data) st sched = (port_not_open, st, sched))
  /\ (forall address (len : Z),
        1 <= len <= 256 ->
        run (readMemory address (Num len)) st sched = (port_not_open, st, sched))
  /\ (forall address (count : Z),
        1 <= count <= 0x10000 ->
        run (firmwareCRC address (Num count)) st sched
        = (port_not_open, st, sched)).
Proof.
  intros Hclosed.
  split; [intros A p; apply run_closed_wire, Hclosed|].
  split.
  { unfold sync. rewrite proto_flush_eq, proto_write_eq.
    cbn [mbind proto_mbind proto_bind run].
    unfold write. cbn [portOpen flush]. rewrite Hclosed. reflexivity. }
  split; [apply run_sendCommand_closed, Hclosed|].
  split; [apply run_sendCommand_closed, Hclosed|].
  split; [apply run_sendCommand_closed, Hclosed|].
  split; [|split].
  - intros address data Hlen.
    rewrite AT32ProtocolFacts.writeMemory_valid by exact Hlen.
    apply run_sendCommand_closed, Hclosed.
  - intros address len Hlen.
    rewrite AT32ProtocolMore.readMemory_valid by exact Hlen.
    apply run_sendCommand_closed, Hclosed.
  - intros address count Hcount.
    destruct (AT32ProtocolMore.firmwareCRC_valid address count Hcount) as [E _].
    rewrite E. apply run_sendCommand_closed, Hclosed.
Qed.

Definition closed_state : state :=
  {| portOpen := false; keepReading := false; buffer := [0x79];
     now := 0; wire := [] |}.

Lemma closed_port_writes_nothing_witness :
  run sync closed_state []
  = (port_not_open,
     {| portOpen := false; keepReading := false; buffer := [];
        now := 0; wire := [] |}, []).
Proof.
  destruct (closed_port_writes_nothing closed_state [] eq_refl)
    as (_ & H & _).
  exact H.
Defined.

(** ** sync answers to fresh bytes only *)




(** ** A disconnection during a read *)

Lemma read_wait_stopped count timeoutMs startTime sched st :
  keepReading st = false ->
  exists o, read_wait count timeoutMs startTime sched st = (Settled o, st, sched).
Proof.
  intros Hk. destruct sched; cbn [read_wait]; rewrite Hk; cbn [negb];
    destruct (lt _ count); eauto.
Qed.

Lemma read_wait_settles count timeoutMs startTime t sched2 sched1 : forall st,
  stopped t = true ->
  exists o st' slept sched',
    read_wait count timeoutMs startTime (sched1 ++ t :: sched2) st
    = (Settled o, st', sched')
    /\ sched1 ++ t :: sched2 = slept ++ sched'
    /\ (length slept <= S (length sched1))%nat.
Proof.
  induction sched1 as [|t1 sched1 IH]; intros st Hstop;
    cbn [app read_wait length].
  - destruct (lt _ count);
      [destruct (negb (keepReading st));
       [|destruct (now st - startTime >? timeoutMs)]|];
      try (do 2 eexists; exists []; eexists;
           split; [reflexivity|split; [reflexivity|cbn; lia]]).
    destruct (read_wait_stopped count timeoutMs startTime sched2 (sleep t st))
      as [o Ho].
    { rewrite sleep_keepReading, Hstop. apply andb_false_r. }
    rewrite Ho. exists o, (sleep t st), [t], sched2.
    split; [reflexivity|split; [reflexivity|cbn; lia]].
  - destruct (lt _ count);
      [destruct (negb (keepReading st));
       [|destruct (now st - startTime >? timeoutMs)]|];
      try (do 2 eexists; exists []; eexists;
           split; [reflexivity|split; [reflexivity|cbn; lia]]).
    destruct (IH (sleep t1 st) Hstop) as (o & st' & slept & sched' & -> & E & Hl).
    exists o, st', (t1 :: slept), sched'.
    split; [reflexivity|]. cbn [app length]. rewrite E. split; [reflexivity|lia].
Qed.

(** X10.  A read does not hang across a disconnection: if some sleep of
    the schedule sees [keepReading] cleared, the read settles (it returns
    the bytes, or is rejected) no later than at the poll that follows that
    sleep, whatever its timeout and however long the schedule goes on; and
    if it is rejected, it is with "Port disconnected during read" or with
    the timeout error. *)
Theorem read_settles_after_disconnect
    (count : number) (timeoutMs : option Z) (st : state)
    (sched1 : list tick) (t : tick) (sched2 : list tick) :
  stopped t = true ->
  exists o st' slept sched',
    read count timeoutMs st (sched1 ++ t :: sched2) = (Settled o, st', sched')
    /\ sched1 ++ t :: sched2 = slept ++ sched'
    /\ (length slept <= S (length sched1))%nat
    /\ (forall e, o = Throws e ->
          e = Error "Port disconnected during read"
          \/ e = Error (timeout_message count (length (buffer st')))).
Proof.
  intros Hstop. rewrite read_unfold.
  destruct (read_wait_settles count (default 1000 timeoutMs) (now st)
              t sched2 sched1 st Hstop)
    as (o & st1 & slept & sched' & Hwait & E & Hl).
  rewrite Hwait.
  pose proof (read_wait_spec _ _ _ _ _ _ _ _ Hwait) as (_ & _ & _ & _ & Hc).
  destruct o as [[]|e].
  - do 4 eexists. split; [reflexivity|].
    split; [exact E|split; [exact Hl|]]. intros e [=].
  - exists (Throws e), st1, slept, sched'. split; [reflexivity|].
    split; [exact E|split; [exact Hl|]]. intros e' [= <-].
    destruct Hc as [_ [[_ ->]|(_ & _ & ->)]]; auto.
Qed.

Lemma read_settles_after_disconnect_witness :
  read (Num 4) (Some 60000)
    {| portOpen := true; keepReading := true; buffer := [0x79];
       now := 0; wire := [] |}
    [quiet; {| elapsed := 10; arrived := []; stopped := true |}; quiet; quiet]
  = (Settled (Throws (Error "Port disconnected during read")),
     {| portOpen := true; keepReading := false; buffer := [0x79];
        now := 20; wire := [] |},
     [quiet; quiet]).
Proof.
  destruct (read_settles_after_disconnect (Num 4) (Some 60000)
              {| portOpen := true; keepReading := true; buffer := [0x79];
                 now := 0; wire := [] |}
              [quiet] {| elapsed := 10; arrived := []; stopped := true |}
              [quiet; quiet] eq_refl)
    as (o & st' & slept & sched' & H & _).
  vm_compute in H. vm_compute. injection H as <- <- <-. reflexivity.
Defined.

End WebSerialInterfaceMore.

(* ================================================================== *)
(** * The protocol engine on MockSerialInterface *)
(* ================================================================== *)

Module MockSerialInterfaceFacts.
Import AT32Protocol ExecFacts JSFacts AT32ProtocolFacts.
Import WebSerialInterfaceFacts AT32ProtocolMore.
Import WebSerialInterface MockSerialInterface.

Definition with_buffer (b : list Z) (st : state) : state :=
  {| status := status st; buffer := b; now := now st; timers := timers st |}.

(** The reply that the mock schedules for the Get ID command. *)
Definition id_reply : list Z := [0x04; 0x41; 0x54; 0x33; 0x32; 0x01; 0x79].

(** The sleeps that a browser gives to [setTimeout(r, 10)]: never less
    than the delay asked for, and here no more than 200 ms. *)
Definition realistic (sched : list Z) : Prop :=
  Forall (fun elapsed => 10 <= elapsed <= 200) sched.

(** ** Running a sequence *)

Lemma mock_run_bind {A B} (m : proto A) (f : A -> proto B) : forall st sched,
  run (m ≫= f) st sched =
  match run m st sched with
  | (Settled (Returns a), st', sched') => run (f a) st' sched'
  | (Settled (Throws e), st', sched') => (Settled (Throws e), st', sched')
  | (Pending, st', sched') => (Pending, st', sched')
  end.
Proof.
  unfold mbind, proto_mbind.
  induction m as [a|e|k IH|d k IH|c t k IH]; intros st sched;
    cbn [proto_bind run].
  - reflexivity.
  - reflexivity.
  - apply IH.
  - apply IH.
  - destruct (read c t st sched) as [[[[resp|e]|] st1] sched1];
      [apply IH|reflexivity|reflexivity].
Qed.

(** ** Reading what the buffer holds *)

Lemma mock_read_unfold count timeoutMs st sched :
  read count timeoutMs st sched =
  match read_wait count (default 1000 timeoutMs) (now st) sched st with
  | (Settled (Returns _), st', sched') =>
      (Settled (Returns (Uint8Array_of
                           (map Num (slice_to (buffer st') count)))),
       with_buffer (slice_from (buffer st') count) st', sched')
  | (Settled (Throws e), st', sched') => (Settled (Throws e), st', sched')
  | (Pending, st', sched') => (Pending, st', sched')
  end.
Proof. reflexivity. Qed.

Lemma mock_read_wait_ready count timeoutMs startTime sched st :
  lt (Num (Z.of_nat (length (buffer st)))) count = false ->
  read_wait count timeoutMs startTime sched st = (Settled (Returns tt), st, sched).
Proof. intros H. destruct sched; cbn [read_wait]; rewrite H; reflexivity. Qed.

Lemma mock_read_ready (count : Z) timeoutMs st sched :
  Forall is_byte (buffer st) ->
  0 <= count <= Z.of_nat (length (buffer st)) ->
  read (Num count) timeoutMs st sched
  = (Settled (Returns (take (Z.to_nat count) (buffer st))),
     with_buffer (drop (Z.to_nat count) (buffer st)) st, sched).
Proof.
  intros Hbytes Hcount. rewrite mock_read_unfold.
  rewrite mock_read_wait_ready by (cbn [lt]; lia).
  unfold slice_to, slice_from.
  rewrite relative_index_count by exact Hcount.
  rewrite Uint8Array_of_bytes by (apply Forall_take; exact Hbytes).
  reflexivity.
Qed.

(** ** What the mock answers to *)

Lemma mock_push_app bytes st :
  push bytes st = with_buffer (buffer st ++ bytes) st.
Proof.
  unfold push, with_buffer. f_equal.
  generalize (buffer st). induction bytes as [|b bytes IH]; intros l;
    cbn [fold_left].
  - rewrite app_nil_r. reflexivity.
  - rewrite IH, <- app_assoc. reflexivity.
Qed.

(** Every command frame is acknowledged at once; the frame of Get ID
    also registers the reply that follows 50 ms later. *)
Lemma mock_write_command cmd st :
  is_byte cmd ->
  write (command_frame cmd) st
  = if cmd =? 0x02 then
      setTimeout id_reply 50 (with_buffer (buffer st ++ [ACK]) st)
    else with_buffer (buffer st ++ [ACK]) st.
Proof.
  intros Hb. rewrite command_frame_byte by exact Hb.
  unfold write, processCommand. cbn [length Z.of_nat].
  change (Z.of_nat 2 =? 0) with false. cbn iota.
  cbn [lookup list_lookup elem_is ToNumber].
  rewrite !mock_push_app.
  destruct (Z.eqb_spec cmd 0x7F) as [->|H7F]; [reflexivity|].
  destruct (Z.eqb_spec cmd 0x02) as [->|H02]; [reflexivity|].
  cbn [andb].
  rewrite bxor_bytes by (assumption || (unfold is_byte in *; lia)).
  rewrite lxor_complement by exact Hb. reflexivity.
Qed.

Lemma sendCommand_tree cmd :
  sendCommand cmd =
  Write (command_frame cmd)
    (Read (Num 1) None (fun resp =>
       if negb (elem_is (resp !! 0%nat) ACK) then
         match elem_toString16 (resp !! 0%nat) with
         | Returns h =>
             Throw (Error ("Command 0x" +++ toString16 cmd
                           +++ " failed. Got 0x" +++ h))
         | Throws e => Throw e
         end
       else Ret tt)).
Proof. reflexivity. Qed.

Lemma with_buffer_same st : with_buffer (buffer st) st = st.
Proof. destruct st. reflexivity. Qed.

Lemma mock_sendCommand cmd st sched :
  is_byte cmd -> buffer st = [] ->
  run (sendCommand cmd) st sched
  = (Settled (Returns tt),
     if cmd =? 0x02 then setTimeout id_reply 50 st else st,
     sched).
Proof.
  intros Hb Hbuf. rewrite sendCommand_tree. cbn [run].
  rewrite mock_write_command by exact Hb. rewrite Hbuf. cbn [app].
  destruct (cmd =? 0x02).
  - rewrite (mock_read_ready 1); cbn [buffer setTimeout with_buffer length];
      [|repeat constructor; unfold is_byte, ACK; lia|lia].
    cbn. unfold setTimeout. rewrite Hbuf. reflexivity.
  - rewrite (mock_read_ready 1); cbn [buffer with_buffer length];
      [|repeat constructor; unfold is_byte, ACK; lia|lia].
    cbn. rewrite <- Hbuf. destruct st; reflexivity.
Qed.

Lemma mock_sync st sched :
  run sync st sched = (Settled (Returns tt), with_buffer [] st, sched).
Proof.
  unfold sync. rewrite proto_flush_eq, proto_write_eq, proto_read_eq.
  cbn [mbind proto_mbind proto_bind run].
  change (Uint8Array_of [Num 0x7F]) with [0x7F].
  unfold write, processCommand. cbn [length Z.of_nat].
  change (Z.of_nat 1 =? 0) with false. cbn iota.
  cbn [lookup list_lookup elem_is]. change (0x7F =? 0x7F) with true.
  cbn iota. rewrite mock_push_app. cbn [flush buffer app].
  rewrite (mock_read_ready 1); cbn [buffer with_buffer length];
    [|repeat constructor; unfold is_byte; lia|lia].
  reflexivity.
Qed.

(** ** Sleeping *)

Definition later (elapsed : Z) (st : state) : state :=
  {| status := status st; buffer := buffer st; now := now st + elapsed;
     timers := timers st |}.

Lemma sleep_idle elapsed st :
  timers st = [] -> sleep elapsed st = later elapsed st.
Proof. intros H. unfold sleep, later. rewrite H. reflexivity. Qed.

Lemma sleep_early elapsed st due bytes :
  timers st = [(due, bytes)] -> now st + 10 < due ->
  sleep elapsed st = later elapsed st.
Proof.
  intros H Hlt. unfold sleep, later. rewrite H.
  rewrite filter_cons_False, filter_nil, filter_cons_True, filter_nil.
  - reflexivity.
  - unfold is_due. cbn [fst]. replace (due <=? now st + 10) with false
      by (symmetry; lia). exact I.
  - unfold is_due. cbn [fst]. replace (due <=? now st + 10) with false
      by (symmetry; lia). intros [].
Qed.

Lemma sleep_fires elapsed st due bytes :
  timers st = [(due, bytes)] -> due <= now st + 10 ->
  sleep elapsed st
  = {| status := status st; buffer := buffer st ++ bytes;
       now := now st + elapsed; timers := [] |}.
Proof.
  intros H Hle. unfold sleep. rewrite H.
  rewrite filter_cons_True, filter_nil, filter_cons_False, filter_nil.
  - cbn [fold_left snd]. rewrite mock_push_app. reflexivity.
  - unfold is_due. cbn [fst]. replace (due <=? now st + 10) with true
      by (symmetry; lia). intros [].
  - unfold is_due. cbn [fst]. replace (due <=? now st + 10) with true
      by (symmetry; lia). exact I.
Qed.

(** ** A read that nothing will answer *)

Definition starved {A} (c : completion A) : Prop :=
  c = Pending \/ c = Settled (Throws (Error "Mock Timeout")).

Lemma read_wait_starved count timeoutMs startTime sched : forall st,
  buffer st = [] -> timers st = [] -> lt (Num 0) count = true ->
  exists c st' sched',
    read_wait count timeoutMs startTime sched st = (c, st', sched')
    /\ starved c.
Proof.
  induction sched as [|elapsed sched IH]; intros st Hbuf Htim Hcount;
    cbn [read_wait]; rewrite Hbuf; cbn [length]; change (Z.of_nat 0) with 0; rewrite Hcount;
    destruct (now st - startTime >? timeoutMs);
    try (do 3 eexists; split; [reflexivity|unfold starved; auto]).
  rewrite sleep_idle by exact Htim.
  apply IH; assumption.
Qed.

Lemma read_wait_times_out count timeoutMs startTime sched : forall st,
  buffer st = [] -> timers st = [] -> lt (Num 0) count = true ->
  realistic sched ->
  timeoutMs - (now st - startTime) < 10 * Z.of_nat (length sched) ->
  exists st' sched',
    read_wait count timeoutMs startTime sched st
    = (Settled (Throws (Error "Mock Timeout")), st', sched').
Proof.
  induction sched as [|elapsed sched IH]; intros st Hbuf Htim Hcount Hreal Hlen;
    cbn [read_wait]; rewrite Hbuf; cbn [length]; change (Z.of_nat 0) with 0; rewrite Hcount.
  - cbn [length] in Hlen.
    replace (now st - startTime >? timeoutMs) with true by (symmetry; lia).
    eauto.
  - destruct (now st - startTime >? timeoutMs) eqn:E; [eauto|].
    rewrite sleep_idle by exact Htim.
    apply Forall_cons in Hreal as [He Hreal].
    apply IH; try assumption.
    cbn [length] in Hlen. cbn [later now]. lia.
Qed.

Lemma read_starved count timeoutMs st sched :
  buffer st = [] -> timers st = [] -> lt (Num 0) count = true ->
  exists c st' sched',
    read count timeoutMs st sched = (c, st', sched') /\ starved c.
Proof.
  intros Hbuf Htim Hcount. rewrite mock_read_unfold.
  destruct (read_wait_starved count (default 1000 timeoutMs) (now st) sched
              st Hbuf Htim Hcount) as (c & st' & sched' & -> & [->| ->]);
    do 3 eexists; (split; [reflexivity|unfold starved; auto]).
Qed.

Lemma read_times_out count timeoutMs st sched :
  buffer st = [] -> timers st = [] -> lt (Num 0) count = true ->
  realistic sched ->
  default 1000 timeoutMs < 10 * Z.of_nat (length sched) ->
  exists st' sched',
    read count timeoutMs st sched
    = (Settled (Throws (Error "Mock Timeout")), st', sched').
Proof.
  intros Hbuf Htim Hcount Hreal Hlen. rewrite mock_read_unfold.
  destruct (read_wait_times_out count (default 1000 timeoutMs) (now st) sched
              st Hbuf Htim Hcount Hreal) as (st' & sched' & ->); [lia|].
  eauto.
Qed.

(** ** A read that the pending reply will answer *)

Lemma read_wait_timer count timeoutMs startTime due bytes sched : forall st,
  buffer st = [] -> timers st = [(due, bytes)] ->
  lt (Num 0) count = true ->
  lt (Num (Z.of_nat (length bytes))) count = false ->
  exists c st' sched',
    read_wait count timeoutMs startTime sched st = (c, st', sched')
    /\ (starved c
        \/ (c = Settled (Returns tt) /\ buffer st' = bytes
            /\ timers st' = [] /\ status st' = status st)).
Proof.
  induction sched as [|elapsed sched IH]; intros st Hbuf Htim Hcount Hbytes;
    cbn [read_wait]; rewrite Hbuf; cbn [length]; change (Z.of_nat 0) with 0; rewrite Hcount;
    destruct (now st - startTime >? timeoutMs);
    try (do 3 eexists; split; [reflexivity|unfold starved; auto]).
  destruct (Z_lt_le_dec (now st + 10) due) as [Hearly|Hdue].
  - rewrite (sleep_early _ _ _ _ Htim Hearly).
    destruct (IH (later elapsed st) Hbuf Htim Hcount Hbytes)
      as (c & st' & sched' & -> & H).
    do 3 eexists; split; [reflexivity|exact H].
  - rewrite (sleep_fires _ _ _ _ Htim Hdue). rewrite Hbuf. cbn [app].
    rewrite mock_read_wait_ready by exact Hbytes.
    do 3 eexists; split; [reflexivity|]. right. auto.
Qed.

Lemma read_wait_timer_fires count timeoutMs startTime due bytes n :
  forall sched st,
  buffer st = [] -> timers st = [(due, bytes)] ->
  lt (Num 0) count = true ->
  lt (Num (Z.of_nat (length bytes))) count = false ->
  due - 10 - now st <= 10 * Z.of_nat n ->
  now st - startTime + 200 * Z.of_nat n <= timeoutMs ->
  realistic sched -> (n < length sched)%nat ->
  exists k st',
    (1 <= k <= S n)%nat
    /\ read_wait count timeoutMs startTime sched st
       = (Settled (Returns tt), st', drop k sched)
    /\ buffer st' = bytes /\ timers st' = [] /\ status st' = status st.
Proof.
  induction n as [|n IH];
    intros [|elapsed sched] st Hbuf Htim Hcount Hbytes Hdue Htime Hreal Hlen;
    cbn [length] in Hlen; try lia;
    cbn [read_wait]; rewrite Hbuf; cbn [length]; change (Z.of_nat 0) with 0; rewrite Hcount;
    (replace (now st - startTime >? timeoutMs) with false by (symmetry; lia)).
  - rewrite (sleep_fires _ _ _ _ Htim) by lia. rewrite Hbuf. cbn [app].
    rewrite mock_read_wait_ready by exact Hbytes.
    exists 1%nat. eexists. split; [lia|]. split; [reflexivity|]. auto.
  - apply Forall_cons in Hreal as [He Hreal].
    destruct (Z_lt_le_dec (now st + 10) due) as [Hearly|Hnow].
    + rewrite (sleep_early _ _ _ _ Htim Hearly).
      destruct (IH sched (later elapsed st) Hbuf Htim Hcount Hbytes)
        as (k & st' & Hk & -> & H); cbn [later now]; try lia; try assumption.
      exists (S k). eexists. split; [lia|]. split; [reflexivity|exact H].
    + rewrite (sleep_fires _ _ _ _ Htim Hnow). rewrite Hbuf. cbn [app].
      rewrite mock_read_wait_ready by exact Hbytes.
      exists 1%nat. eexists. split; [lia|]. split; [reflexivity|]. auto.
Qed.

(** ** Get ID *)

Definition mock_id : ChipID := {| pid := 0x33324154; projectID := Some 0x01 |}.

(** The reads of [getID] that follow the one of the length byte. *)
Definition getID_reads (lenBuf : list Z) : proto ChipID :=
  Read (add (ToNumber (lenBuf !! 0%nat)) 1) None (fun idBytes =>
    Read (Num 1) None (fun ack =>
      if negb (elem_is (ack !! 0%nat) ACK) then
        Throw (Error "GetID: Missing final ACK")
      else
        Ret {| pid :=
                 ushr0
                   (bor (bor (bor (shl (ToNumber (idBytes !! 2%nat)) 24)
                                  (shl (ToNumber (idBytes !! 3%nat)) 16))
                             (shl (ToNumber (idBytes !! 0%nat)) 8))
                        (ToNumber (idBytes !! 1%nat)));
               projectID := idBytes !! 4%nat |})).

Lemma getID_unfold :
  getID = (sendCommand CMD.GET_ID ≫= fun _ => Read (Num 1) None getID_reads).
Proof. reflexivity. Qed.

Lemma id_reply_bytes : Forall is_byte id_reply.
Proof.
  repeat (apply Forall_cons_2; [unfold is_byte; lia|]). apply Forall_nil_2.
Qed.

Lemma mock_getID_reads st sched :
  run (getID_reads [0x04]) (with_buffer (drop 1 id_reply) st) sched
  = (Settled (Returns mock_id), with_buffer [] st, sched).
Proof.
  unfold getID_reads.
  change (add (ToNumber ([0x04] !! 0%nat)) 1) with (Num 5).
  cbn [run].
  rewrite (mock_read_ready 5); cbn [buffer with_buffer];
    [|apply Forall_drop, id_reply_bytes|vm_compute; split; discriminate].
  rewrite (mock_read_ready 1); cbn [buffer with_buffer];
    [|do 2 apply Forall_drop; apply id_reply_bytes
     |vm_compute; split; discriminate].
  reflexivity.
Qed.

(** [getID] up to the read of the length byte. *)
Lemma mock_getID_wait st sched :
  buffer st = [] -> timers st = [] ->
  run getID st sched =
  match read_wait (Num 1) 1000 (now st) sched (setTimeout id_reply 50 st) with
  | (Settled (Returns _), st', sched') =>
      run (getID_reads
             (Uint8Array_of (map Num (slice_to (buffer st') (Num 1)))))
        (with_buffer (slice_from (buffer st') (Num 1)) st') sched'
  | (Settled (Throws e), st', sched') => (Settled (Throws e), st', sched')
  | (Pending, st', sched') => (Pending, st', sched')
  end.
Proof.
  intros Hbuf Htim. rewrite getID_unfold, mock_run_bind.
  rewrite mock_sendCommand by (assumption || (unfold is_byte, CMD.GET_ID; lia)).
  change (CMD.GET_ID =? 0x02) with true. cbn iota. cbn [run].
  rewrite mock_read_unfold. cbn [default now setTimeout].
  destruct (read_wait _ _ _ _ _) as [[[[[]|e]|] st1] sched1]; reflexivity.
Qed.

Lemma mock_getID_run st sched :
  buffer st = [] -> timers st = [] ->
  realistic sched -> (5 <= length sched)%nat ->
  exists k st',
    (1 <= k <= 5)%nat
    /\ run getID st sched = (Settled (Returns mock_id), st', drop k sched)
    /\ buffer st' = [] /\ timers st' = [] /\ status st' = status st.
Proof.
  intros Hbuf Htim Hreal Hlen. rewrite mock_getID_wait by assumption.
  destruct (read_wait_timer_fires (Num 1) 1000 (now st) (now st + 50) id_reply
              4 sched (setTimeout id_reply 50 st))
    as (k & st1 & Hk & -> & Hbuf1 & Htim1 & Hst1);
    cbn [buffer timers now setTimeout]; try reflexivity; try assumption;
    try lia.
  { rewrite Htim. reflexivity. }
  rewrite Hbuf1.
  change (Uint8Array_of (map Num (slice_to id_reply (Num 1)))) with [0x04].
  change (slice_from id_reply (Num 1)) with (drop 1 id_reply).
  rewrite mock_getID_reads.
  exists k, (with_buffer [] st1). split; [exact Hk|].
  split; [reflexivity|]. cbn [with_buffer buffer timers status]. auto.
Qed.

Lemma mock_getID_cases st sched :
  buffer st = [] -> timers st = [] ->
  exists c st' sched',
    run getID st sched = (c, st', sched')
    /\ (starved c
        \/ (c = Settled (Returns mock_id) /\ buffer st' = []
            /\ timers st' = [] /\ status st' = status st)).
Proof.
  intros Hbuf Htim. rewrite mock_getID_wait by assumption.
  destruct (read_wait_timer (Num 1) 1000 (now st) (now st + 50) id_reply
              sched (setTimeout id_reply 50 st))
    as (c & st1 & sched1 & -> & H);
    cbn [buffer timers now setTimeout]; try reflexivity; try assumption.
  { rewrite Htim. reflexivity. }
  destruct H as [[->| ->]|(-> & Hbuf1 & Htim1 & Hst1)].
  - do 3 eexists. split; [reflexivity|]. left. left. reflexivity.
  - do 3 eexists. split; [reflexivity|]. left. right. reflexivity.
  - rewrite Hbuf1.
    change (Uint8Array_of (map Num (slice_to id_reply (Num 1)))) with [0x04].
    change (slice_from id_reply (Num 1)) with (drop 1 id_reply).
    rewrite mock_getID_reads.
    do 3 eexists. split; [reflexivity|]. right.
    cbn [with_buffer buffer timers status]. auto.
Qed.

(** X11.  On the mock, with an empty buffer and no reply pending,
    [getID] identifies the chip as 0x33324154 with project id 1: whatever
    the schedule, it returns this value, or is still waiting, or has
    thrown "Mock Timeout", and nothing else; and when each sleep lasts
    between 10 and 200 ms it returns it after at most five sleeps, having
    emptied the buffer. *)
Theorem mock_getID (st : state) (sched : list Z) :
  buffer st = [] -> timers st = [] ->
  (exists c st' sched',
     run getID st sched = (c, st', sched')
     /\ (c = Pending \/ c = Settled (Throws (Error "Mock Timeout"))
         \/ c = Settled (Returns mock_id)))
  /\ (realistic sched -> (5 <= length sched)%nat ->
      exists k st',
        (1 <= k <= 5)%nat
        /\ run getID st sched = (Settled (Returns mock_id), st', drop k sched)
        /\ buffer st' = [] /\ timers st' = []).
Proof.
  intros Hbuf Htim. split.
  - destruct (mock_getID_cases st sched Hbuf Htim)
      as (c & st' & sched' & Hrun & [[H|H]|(H & _)]);
      exists c, st', sched'; auto.
  - intros Hreal Hlen.
    destruct (mock_getID_run st sched Hbuf Htim Hreal Hlen)
      as (k & st' & Hk & Hrun & Hb & Ht & _).
    exists k, st'. auto.
Qed.

Lemma mock_getID_witness :
  exists k st',
    (1 <= k <= 5)%nat
    /\ run getID (connect (initial 0)) [10; 15; 12; 10; 11; 10]
       = (Settled (Returns mock_id), st', drop k [10; 15; 12; 10; 11; 10])
    /\ buffer st' = [] /\ timers st' = [].
Proof.
  apply (mock_getID (connect (initial 0)) [10; 15; 12; 10; 11; 10]
           eq_refl eq_refl).
  - repeat (apply Forall_cons_2; [lia|]). apply Forall_nil_2.
  - cbn [length]. lia.
Defined.

End MockSerialInterfaceFacts.

(* ================================================================== *)
(** * App: what [program] sends *)
(* ================================================================== *)

Module AppFacts.
Import AT32Protocol App ExecFacts JSFacts AT32ProtocolFacts.
Import WebSerialInterfaceFacts.

(** The calls [writeMemory(addr, chunk)], one after the other. *)
Fixpoint write_all (cs : list (Z * list Z)) : proto unit :=
  match cs with
  | [] => Ret tt
  | (addr, chunk) :: cs => writeMemory (Num addr) chunk;; write_all cs
  end.

(** The [i]-th block of 256 bytes of the file, and where it goes. *)
Definition chunk_at (data : list Z) (i : nat) : Z * list Z :=
  (0x08000000 + 256 * Z.of_nat i, take 256 (drop (256 * i) data)).

Definition chunk_count (data : list Z) : nat :=
  Z.to_nat (ceil_div (Z.of_nat (length data)) chunkSize).

Definition chunks (data : list Z) : list (Z * list Z) :=
  map (chunk_at data) (seq 0 (chunk_count data)).

Lemma ceil_div_bounds n :
  0 <= n -> 256 * (ceil_div n 256 - 1) < n <= 256 * ceil_div n 256.
Proof.
  intros Hn. unfold ceil_div.
  pose proof (Z.div_mod (- n) 256 ltac:(lia)).
  pose proof (Z.mod_pos_bound (- n) 256 ltac:(lia)). lia.
Qed.

Lemma chunk_count_bounds data :
  256 * (Z.of_nat (chunk_count data) - 1) < Z.of_nat (length data)
  <= 256 * Z.of_nat (chunk_count data).
Proof.
  unfold chunk_count, chunkSize.
  pose proof (ceil_div_bounds (Z.of_nat (length data)) ltac:(lia)). lia.
Qed.

Lemma chunk_count_totalChunks data :
  Z.of_nat (chunk_count data) = ceil_div (Z.of_nat (length data)) chunkSize.
Proof.
  unfold chunk_count, chunkSize.
  pose proof (ceil_div_bounds (Z.of_nat (length data)) ltac:(lia)). lia.
Qed.

Lemma slice_chunk data i :
  (256 * i < length data)%nat ->
  slice data (Num (Z.of_nat i * chunkSize))
    (Num (Z.min (Z.of_nat i * chunkSize + chunkSize) (Z.of_nat (length data))))
  = take 256 (drop (256 * i) data).
Proof.
  intros Hi. unfold slice, chunkSize.
  rewrite !relative_index_count by lia.
  replace (Z.to_nat (Z.of_nat i * 256)) with (256 * i)%nat by lia.
  destruct (Z.le_gt_cases (Z.of_nat i * 256 + 256) (Z.of_nat (length data)))
    as [Hfull|Hlast].
  - f_equal. lia.
  - rewrite !take_ge by (rewrite length_drop; lia). reflexivity.
Qed.

Lemma program_loop_chunks data fuel : forall i,
  (i + fuel = chunk_count data)%nat ->
  program_loop data (Z.of_nat (chunk_count data)) fuel (Z.of_nat i)
  = write_all (map (chunk_at data) (seq i fuel)).
Proof.
  induction fuel as [|fuel IH]; intros i Hi; [reflexivity|].
  cbn [program_loop seq map write_all chunk_at].
  replace (Z.of_nat i <? Z.of_nat (chunk_count data)) with true
    by (symmetry; lia).
  cbv zeta. pose proof (chunk_count_bounds data) as Hb.
  rewrite slice_chunk by lia.
  replace (Z.of_nat i + 1) with (Z.of_nat (S i)) by lia.
  rewrite IH by lia.
  replace (baseAddress + Z.of_nat i * chunkSize)
    with (0x08000000 + 256 * Z.of_nat i)
    by (unfold baseAddress, chunkSize; lia).
  reflexivity.
Qed.

Lemma program_write_all data : program data = write_all (chunks data).
Proof.
  unfold program. cbv zeta. rewrite <- chunk_count_totalChunks.
  rewrite Nat2Z.id. apply (program_loop_chunks data (chunk_count data) 0%nat).
  reflexivity.
Qed.

Lemma concat_blocks (data : list Z) n :
  concat (map (fun i => take 256 (drop (256 * i) data)) (seq 0 n))
  = take (256 * n) data.
Proof.
  induction n as [|n IH]; [reflexivity|].
  rewrite seq_S, map_app, concat_app, IH. cbn [map concat Nat.add].
  rewrite app_nil_r, take_take_drop. f_equal. lia.
Qed.

Lemma chunk_length data i :
  (i < chunk_count data)%nat ->
  (1 <= length (take 256 (drop (256 * i) data)) <= 256)%nat.
Proof.
  intros Hi. pose proof (chunk_count_bounds data) as Hb.
  rewrite length_take, length_drop. lia.
Qed.

(** X12.  [program] sends the file in consecutive blocks of 256 bytes:
    it makes the calls [writeMemory(0x08000000 + 256 * i, block i)] for
    [i = 0, 1, ...] up to the number of blocks, in this order, each
    awaited before the next; block [i] is [data[256 i .. 256 i + 256)]
    cut at the end of the file; the blocks put end to end are the file;
    every block has between 1 and 256 bytes, so the length check of
    [writeMemory] never rejects one; and there are just as many blocks as
    it takes to cover the file. *)
Theorem program_sends_file_in_blocks (data : list Z) :
  program data = write_all (chunks data)
  /\ (forall i c, chunks data !! i = Some c ->
        c = (0x08000000 + 256 * Z.of_nat i, take 256 (drop (256 * i) data)))
  /\ concat (map snd (chunks data)) = data
  /\ Forall (fun c => (1 <= length (snd c) <= 256)%nat) (chunks data)
  /\ 256 * (Z.of_nat (length (chunks data)) - 1) < Z.of_nat (length data)
     <= 256 * Z.of_nat (length (chunks data)).
Proof.
  split; [apply program_write_all|]. split; [|split; [|split]].
  - intros i c Hc. unfold chunks in Hc.
    rewrite list_lookup_fmap in Hc.
    destruct (seq 0 (chunk_count data) !! i) as [j|] eqn:Ej; [|discriminate].
    apply lookup_seq in Ej as [-> _]. cbn in Hc. injection Hc as <-.
    reflexivity.
  - unfold chunks. rewrite map_map. cbn [chunk_at snd].
    rewrite concat_blocks. apply take_ge.
    pose proof (chunk_count_bounds data). lia.
  - unfold chunks. apply List.Forall_forall. intros c Hc.
    apply in_map_iff in Hc as (i & <- & Hi).
    apply in_seq in Hi. cbn [chunk_at snd]. apply chunk_length. lia.
  - unfold chunks. rewrite length_map, length_seq.
    apply chunk_count_bounds.
Qed.

End AppFacts.

(* ================================================================== *)
(** * App in MOCK mode *)
(* ================================================================== *)

Module MockAppFacts.
Import AT32Protocol App ExecFacts JSFacts AT32ProtocolFacts.
Import WebSerialInterfaceFacts AT32ProtocolMore AT32ProtocolExchanges.
Import WebSerialInterface MockSerialInterface MockSerialInterfaceFacts.
Import AppFacts.

(** A method that starts with a read that nothing answers. *)
Lemma run_Read_starved {A} count timeoutMs (k : list Z -> proto A) st sched :
  buffer st = [] -> timers st = [] -> lt (Num 0) count = true ->
  exists c st' sched',
    run (Read count timeoutMs k) st sched = (c, st', sched') /\ starved c.
Proof.
  intros Hbuf Htim Hcount. cbn [run].
  destruct (read_starved count timeoutMs st sched Hbuf Htim Hcount)
    as (c & st' & sched' & -> & [->| ->]);
    do 3 eexists; (split; [reflexivity|unfold starved; auto]).
Qed.

Lemma run_Read_times_out {A} count timeoutMs (k : list Z -> proto A) st sched :
  buffer st = [] -> timers st = [] -> lt (Num 0) count = true ->
  realistic sched ->
  default 1000 timeoutMs < 10 * Z.of_nat (length sched) ->
  exists st' sched',
    run (Read count timeoutMs k) st sched
    = (Settled (Throws (Error "Mock Timeout")), st', sched').
Proof.
  intros Hbuf Htim Hcount Hreal Hlen. cbn [run].
  destruct (read_times_out count timeoutMs st sched Hbuf Htim Hcount Hreal Hlen)
    as (st' & sched' & ->).
  eauto.
Qed.

(** A sequence whose first part is starved is starved. *)
Lemma run_bind_starved {A B} (m : proto A) (f : A -> proto B) st sched :
  (exists c st' sched', run m st sched = (c, st', sched') /\ starved c) ->
  exists c st' sched', run (m ≫= f) st sched = (c, st', sched') /\ starved c.
Proof.
  intros (c & st' & sched' & Hrun & [->| ->]); rewrite mock_run_bind, Hrun;
    do 3 eexists; (split; [reflexivity|unfold starved; auto]).
Qed.

Lemma run_bind_times_out {A B} (m : proto A) (f : A -> proto B) st sched :
  (exists st' sched',
     run m st sched = (Settled (Throws (Error "Mock Timeout")), st', sched')) ->
  exists st' sched',
    run (m ≫= f) st sched
    = (Settled (Throws (Error "Mock Timeout")), st', sched').
Proof.
  intros (st' & sched' & Hrun). rewrite mock_run_bind, Hrun. eauto.
Qed.

(** ** Get Version *)

Lemma mock_getVersion_starved st sched :
  buffer st = [] -> timers st = [] ->
  exists c st' sched', run getVersion st sched = (c, st', sched') /\ starved c.
Proof.
  intros Hbuf Htim. rewrite getVersion_unfold_command, mock_run_bind.
  rewrite mock_sendCommand
    by (assumption || (unfold is_byte, CMD.GET_VERSION; lia)).
  change (CMD.GET_VERSION =? 0x02) with false. cbn iota.
  apply run_Read_starved; auto.
Qed.

Lemma mock_getVersion_times_out st sched :
  buffer st = [] -> timers st = [] -> realistic sched ->
  (101 <= length sched)%nat ->
  exists st' sched',
    run getVersion st sched
    = (Settled (Throws (Error "Mock Timeout")), st', sched').
Proof.
  intros Hbuf Htim Hreal Hlen. rewrite getVersion_unfold_command, mock_run_bind.
  rewrite mock_sendCommand
    by (assumption || (unfold is_byte, CMD.GET_VERSION; lia)).
  change (CMD.GET_VERSION =? 0x02) with false. cbn iota.
  apply run_Read_times_out; auto. cbn [default id]. lia.
Qed.

(** X13.  In MOCK mode the exchange of [connect] never succeeds: on a
    mock with no reply pending, [sync] and [getID] get their answers, but
    the mock has no answer to Get Version beyond the ACK of the command,
    so that, whatever the schedule, the exchange is still waiting or has
    thrown "Mock Timeout"; and when each sleep lasts between 10 and 200 ms
    it has thrown "Mock Timeout" within 106 sleeps. *)
Theorem mock_connect_fails (st : state) (sched : list Z) :
  timers st = [] ->
  (exists c st' sched',
     run connect_exchange st sched = (c, st', sched')
     /\ (c = Pending \/ c = Settled (Throws (Error "Mock Timeout"))))
  /\ (realistic sched -> (106 <= length sched)%nat ->
      exists st' sched',
        run connect_exchange st sched
        = (Settled (Throws (Error "Mock Timeout")), st', sched')).
Proof.
  intros Htim. unfold connect_exchange.
  rewrite mock_run_bind, mock_sync, mock_run_bind. split.
  - destruct (mock_getID_cases (with_buffer [] st) sched eq_refl Htim)
      as (c & st1 & sched1 & -> & [[->| ->]|(-> & Hbuf1 & Htim1 & _)]).
    + do 3 eexists. split; [reflexivity|auto].
    + do 3 eexists. split; [reflexivity|auto].
    + apply run_bind_starved. apply mock_getVersion_starved; assumption.
  - intros Hreal Hlen.
    destruct (mock_getID_run (with_buffer [] st) sched eq_refl Htim Hreal)
      as (k & st1 & Hk & -> & Hbuf1 & Htim1 & _); [lia|].
    apply run_bind_times_out. apply mock_getVersion_times_out; try assumption.
    + apply Forall_drop. exact Hreal.
    + rewrite length_drop. lia.
Qed.

Lemma mock_connect_fails_witness :
  exists st' sched',
    run connect_exchange (connect (initial 0)) (replicate 106 16)
    = (Settled (Throws (Error "Mock Timeout")), st', sched').
Proof.
  apply (mock_connect_fails (connect (initial 0)) (replicate 106 16) eq_refl).
  - apply Forall_replicate. lia.
  - rewrite length_replicate. lia.
Defined.

(** ** Erase and program *)

Lemma sendAddress_base :
  sendAddress (Num 0x08000000) =
  Write [0x08; 0x00; 0x00; 0x00; 0x08]
    (Read (Num 1) None (fun ack =>
       if negb (elem_is (ack !! 0%nat) ACK) then Throw (Error "Address NACK")
       else Ret tt)).
Proof. reflexivity. Qed.

(** The first call of [program] on a file that is not empty. *)
Lemma program_first data :
  data <> [] ->
  program data =
  (sendCommand CMD.WRITE_MEMORY ≫= fun _ =>
   sendAddress (Num 0x08000000) ≫= fun _ =>
   Write (writeMemory_frame (take 256 data))
     (Read (Num 1) None (fun ack =>
        if negb (elem_is (ack !! 0%nat) ACK) then
          Throw (Error "WriteMemory: NACK during data write")
        else Ret tt)))
  ≫= fun _ => write_all (tail (chunks data)).
Proof.
  intros Hne. rewrite program_write_all.
  assert (Hcount : (0 < chunk_count data)%nat).
  { pose proof (chunk_count_bounds data).
    destruct data; [congruence|]. cbn [length] in *. lia. }
  unfold chunks. destruct (chunk_count data) as [|n]; [lia|].
  cbn [seq map tail write_all chunk_at].
  change (256 * 0)%nat with 0%nat. rewrite drop_0.
  change (0x08000000 + 256 * Z.of_nat 0) with 0x08000000.
  rewrite writeMemory_valid; [reflexivity|].
  rewrite length_take. destruct data; [congruence|]. cbn [length]. lia.
Qed.

(** X14.  In MOCK mode nothing can be erased or programmed: on a mock
    with an empty buffer and no reply pending, the mock acknowledges the
    command bytes of [eraseAll] and of [writeMemory] but has no answer to
    the 3-byte erase frame nor to the address frame 08 00 00 00 08, so
    that [eraseAll] and the [program] of a file that is not empty are,
    whatever the schedule, still waiting or have thrown "Mock Timeout";
    when each sleep lasts between 10 and 200 ms, [program] has thrown it
    within 101 sleeps and [eraseAll], which waits ten seconds, within
    1001. *)
Theorem mock_erase_and_program_fail (st : state) (sched : list Z) :
  buffer st = [] -> timers st = [] ->
  (exists c st' sched', run eraseAll st sched = (c, st', sched')
     /\ (c = Pending \/ c = Settled (Throws (Error "Mock Timeout"))))
  /\ (forall data, data <> [] ->
      exists c st' sched', run (program data) st sched = (c, st', sched')
        /\ (c = Pending \/ c = Settled (Throws (Error "Mock Timeout"))))
  /\ (realistic sched -> (1001 <= length sched)%nat ->
      exists st' sched',
        run eraseAll st sched
        = (Settled (Throws (Error "Mock Timeout")), st', sched'))
  /\ (realistic sched -> (101 <= length sched)%nat ->
      forall data, data <> [] ->
      exists st' sched',
        run (program data) st sched
        = (Settled (Throws (Error "Mock Timeout")), st', sched')).
Proof.
  intros Hbuf Htim.
  assert (Hcmd : forall cmd, is_byte cmd -> cmd <> 2 ->
            run (sendCommand cmd) st sched = (Settled (Returns tt), st, sched)).
  { intros cmd Hb Hne. rewrite mock_sendCommand by assumption.
    destruct (Z.eqb_spec cmd 2); [contradiction|reflexivity]. }
  split; [|split; [|split]].
  - rewrite eraseAll_unfold_command, mock_run_bind, Hcmd
      by (unfold is_byte, CMD.ERASE; lia).
    cbn [run]. apply (run_Read_starved (Num 1)); auto.
  - intros data Hne. rewrite (program_first data Hne).
    apply run_bind_starved.
    rewrite mock_run_bind, Hcmd by (unfold is_byte, CMD.WRITE_MEMORY; lia).
    apply run_bind_starved. rewrite sendAddress_base. cbn [run].
    apply (run_Read_starved (Num 1)); auto.
  - intros Hreal Hlen.
    rewrite eraseAll_unfold_command, mock_run_bind, Hcmd
      by (unfold is_byte, CMD.ERASE; lia).
    cbn [run]. apply (run_Read_times_out (Num 1)); auto.
    cbn [default id]. lia.
  - intros Hreal Hlen data Hne. rewrite (program_first data Hne).
    apply run_bind_times_out.
    rewrite mock_run_bind, Hcmd by (unfold is_byte, CMD.WRITE_MEMORY; lia).
    apply run_bind_times_out. rewrite sendAddress_base. cbn [run].
    apply (run_Read_times_out (Num 1)); auto.
    cbn [default id]. lia.
Qed.

Lemma mock_erase_and_program_fail_witness :
  exists st' sched',
    run (program [0x12; 0x34]) (connect (initial 0)) (replicate 101 10)
    = (Settled (Throws (Error "Mock Timeout")), st', sched').
Proof.
  destruct (mock_erase_and_program_fail (connect (initial 0))
              (replicate 101 10) eq_refl eq_refl) as (_ & _ & _ & H).
  apply H.
  - apply Forall_replicate. lia.
  - rewrite length_replicate. lia.
  - discriminate.
Defined.

End MockAppFacts.

(* ================================================================== *)
(** * What the parsers return *)
(* ================================================================== *)

Module ParserInvariants.
Import FileParsers JSString JSFacts ParseElfFacts ParseHexFacts.

(** ** parseHex *)

Lemma ToUint8_is_byte x : is_byte (ToUint8 x).
Proof.
  destruct x as [|z|s]; unfold ToUint8;
    [unfold is_byte; lia|apply mod_256_byte|unfold is_byte; lia].
Qed.

Lemma Uint8Array_of_is_bytes xs : Forall is_byte (Uint8Array_of xs).
Proof.
  unfold Uint8Array_of. induction xs as [|x xs IH]; cbn [map].
  - apply Forall_nil_2.
  - apply Forall_cons_2; [apply ToUint8_is_byte|exact IH].
Qed.

(** A segment as [commitSegment] makes them. *)
Definition committed (s : FirmwareSegment) : Prop :=
  data s <> [] /\ Forall is_byte (data s) /\ address s <> Num (-1).

Lemma commitSegment_committed st :
  Forall committed (segments st) ->
  Forall committed (segments (commitSegment st)).
Proof.
  intros H. unfold commitSegment.
  destruct (0 <? Z.of_nat (length (currentData st))) eqn:Hlen;
    [|exact H].
  destruct (strict_eq (currentAddress st) (Num (-1))) eqn:Haddr;
    cbn [andb negb]; [exact H|].
  cbn [segments]. apply Forall_app. split; [exact H|].
  apply Forall_cons_2; [|apply Forall_nil_2].
  unfold committed. cbn [data address]. split; [|split].
  - destruct (currentData st); [discriminate|]. discriminate.
  - apply Uint8Array_of_is_bytes.
  - intros E. rewrite E in Haddr. discriminate.
Qed.

Lemma hex_record_committed line st :
  Forall committed (segments st) ->
  Forall committed (segments (fst (hex_record line st))).
Proof.
  intros H. unfold hex_record.
  destruct (strict_eq _ (Num 0)).
  { cbn [fst segments].
    destruct (strict_eq (currentAddress st) (Num (-1))); [exact H|].
    destruct (negb _); [|exact H].
    cbn [set_currentAddress segments]. apply commitSegment_committed, H. }
  destruct (strict_eq _ (Num 2));
    [cbn [fst]; apply commitSegment_committed; exact H|].
  destruct (strict_eq _ (Num 4));
    [cbn [fst]; apply commitSegment_committed; exact H|].
  destruct (strict_eq _ (Num 1));
    [cbn [fst]; apply commitSegment_committed; exact H|].
  exact H.
Qed.

Lemma hex_lines_committed lines : forall st,
  Forall committed (segments st) ->
  Forall committed (segments (hex_lines lines st)).
Proof.
  induction lines as [|line lines IH]; intros st H; cbn [hex_lines];
    [exact H|].
  destruct (negb (startsWith_colon line)); [apply IH, H|].
  pose proof (hex_record_committed line st H) as H'.
  destruct (hex_record line st) as [st' []]; cbn [fst] in H';
    [apply IH, H'|exact H'].
Qed.

(** X15.  Whatever the text, every segment that [parseHex] returns holds
    at least one byte, holds bytes only (values from 0 to 255), and has an
    address other than -1, the value that the parser keeps for "no segment
    open". *)
Theorem parseHex_segments_committed (text : string) :
  Forall (fun s => data s <> [] /\ Forall is_byte (data s)
                   /\ address s <> Num (-1))
    (parseHex text).
Proof.
  unfold parseHex. apply commitSegment_committed, hex_lines_committed.
  apply Forall_nil_2.
Qed.

(** ** parseElf *)

Lemma big_endian_bound bs :
  Forall is_byte bs -> 0 <= big_endian bs < 256 ^ Z.of_nat (length bs).
Proof.
  intros Hbs. unfold big_endian.
  assert (H : forall acc, 0 <= acc ->
            0 <= fold_left (fun acc b => acc * 256 + b) bs acc
            < (acc + 1) * 256 ^ Z.of_nat (length bs)).
  { induction Hbs as [|b bs Hb _ IH]; intros acc Hacc.
    - cbn. lia.
    - cbn [fold_left length]. unfold is_byte in Hb.
      specialize (IH (acc * 256 + b) ltac:(lia)).
      rewrite Nat2Z.inj_succ, Z.pow_succ_r by lia.
      assert (0 < 256 ^ Z.of_nat (length bs)) by (apply Z.pow_pos_nonneg; lia).
      nia. }
  specialize (H 0 ltac:(lia)). lia.
Qed.

Lemma getUint_bound size buffer byteOffset littleEndian v :
  Forall is_byte buffer ->
  getUint size buffer byteOffset littleEndian = Returns v ->
  0 <= v < 256 ^ Z.of_nat size
  /\ byteOffset + Z.of_nat size <= Z.of_nat (length buffer).
Proof.
  intros Hb. unfold getUint, view_bytes.
  destruct (byteOffset <? 0) eqn:Hneg; [discriminate|].
  destruct (Z.of_nat (length buffer) <? byteOffset + Z.of_nat size) eqn:Hlen;
    [discriminate|].
  cbn [orb mbind outcome_bind]. intros [= <-].
  set (bs := take size (drop (Z.to_nat byteOffset) buffer)).
  assert (Hbs : Forall is_byte bs) by (apply Forall_take, Forall_drop, Hb).
  assert (Hlbs : length bs = size).
  { unfold bs. rewrite length_take, length_drop. lia. }
  split; [|lia]. clearbody bs. subst size.
  destruct littleEndian.
  - rewrite <- length_reverse. apply big_endian_bound, Forall_reverse, Hbs.
  - apply big_endian_bound, Hbs.
Qed.

Lemma bytes_check (l : list Z) :
  forallb (fun b => (0 <=? b) && (b <? 256)) l = true -> Forall is_byte l.
Proof.
  induction l as [|b l IH]; cbn [forallb]; intros H; [apply Forall_nil_2|].
  apply andb_prop in H as [Hb H].
  apply Forall_cons_2; [unfold is_byte; lia|apply IH, H].
Qed.

(** A segment cut out of the file. *)
Definition cut_from (buffer : list Z) (s : FirmwareSegment) : Prop :=
  exists (a : Z) (off n : nat),
    address s = Num a /\ 0 <= a < 2 ^ 32
    /\ data s = take n (drop off buffer)
    /\ (0 < n)%nat /\ (off + n <= length buffer)%nat.

Lemma elf_header_cut buffer littleEndian phOff phEntSize i segs segs' :
  Forall is_byte buffer ->
  elf_header buffer littleEndian phOff phEntSize i segs = Returns segs' ->
  Forall (cut_from buffer) segs ->
  Forall (cut_from buffer) segs' /\ (length segs' <= S (length segs))%nat.
Proof.
  intros Hb. unfold elf_header. cbv zeta.
  set (offset := phOff + i * phEntSize).
  destruct (getUint32 buffer offset littleEndian) as [pType|e];
    [|discriminate].
  cbn [mbind outcome_bind].
  destruct (pType =? 1); [|intros [= <-] H; split; [exact H|lia]].
  destruct (getUint32 buffer (offset + 4) littleEndian) as [pOffset|e] eqn:Hoff;
    [|discriminate].
  cbn [mbind outcome_bind].
  destruct (getUint32 buffer (offset + 12) littleEndian) as [pPaddr|e] eqn:Hpaddr;
    [|discriminate].
  cbn [mbind outcome_bind].
  destruct (getUint32 buffer (offset + 16) littleEndian) as [pFilesz|e] eqn:Hsz;
    [|discriminate].
  cbn [mbind outcome_bind].
  destruct (pFilesz >? 0) eqn:Hpos; [|intros [= <-] H; split; [exact H|lia]].
  unfold Uint8Array_view.
  destruct (Z.of_nat (length buffer) <? pOffset + pFilesz) eqn:Hfit;
    [discriminate|].
  cbn [mbind outcome_bind]. intros [= <-] H.
  apply (getUint_bound 4 _ _ _ _ Hb) in Hoff as [Hoff _].
  apply (getUint_bound 4 _ _ _ _ Hb) in Hpaddr as [Hpaddr _].
  split; [|rewrite length_app; cbn [length]; lia].
  apply Forall_app. split; [exact H|].
  apply Forall_cons_2; [|apply Forall_nil_2].
  exists pPaddr, (Z.to_nat pOffset), (Z.to_nat pFilesz).
  cbn [address data]. split; [reflexivity|].
  split; [exact Hpaddr|]. split; [reflexivity|]. lia.
Qed.

Lemma elf_headers_cut buffer littleEndian phOff phEntSize phNum fuel :
  forall i segs segs',
  Forall is_byte buffer ->
  elf_headers fuel buffer littleEndian phOff phEntSize phNum i segs
  = Returns segs' ->
  Forall (cut_from buffer) segs ->
  Forall (cut_from buffer) segs'
  /\ (length segs' <= length segs + fuel)%nat.
Proof.
  induction fuel as [|fuel IH]; intros i segs segs' Hb; cbn [elf_headers].
  - intros [= <-] H. split; [exact H|lia].
  - destruct (i <? phNum); [|intros [= <-] H; split; [exact H|lia]].
    destruct (elf_header buffer littleEndian phOff phEntSize i segs)
      as [segs1|e] eqn:Hone; [|discriminate].
    cbn [mbind outcome_bind]. intros Hrest H.
    destruct (elf_header_cut _ _ _ _ _ _ _ Hb Hone H) as [H1 Hl1].
    destruct (IH _ _ _ Hb Hrest H1) as [H2 Hl2]. split; [exact H2|lia].
Qed.

(** X16.  When [parseElf] returns, on a file of bytes, the file has at
    least 46 bytes, there are fewer than 65536 segments, and each segment
    is a stretch of the file that is not empty: its data are the [n > 0]
    bytes of the file from some offset on, all within the file, and its
    address is a number from 0 to 2^32 - 1. *)
Theorem parseElf_segments_cut_from_file
    (buffer : list Z) (segs : list FirmwareSegment) :
  Forall is_byte buffer ->
  parseElf buffer = Returns segs ->
  (46 <= length buffer)%nat
  /\ Z.of_nat (length segs) < 65536
  /\ Forall (fun s =>
       exists (a : Z) (off n : nat),
         address s = Num a /\ 0 <= a < 2 ^ 32
         /\ data s = take n (drop off buffer)
         /\ (0 < n)%nat /\ (off + n <= length buffer)%nat) segs.
Proof.
  intros Hb. unfold parseElf.
  destruct (getUint32 buffer 0 false) as [magic|e]; [|discriminate].
  cbn [mbind outcome_bind].
  destruct (negb (magic =? 0x7F454C46)); [discriminate|].
  destruct (getUint8 buffer 4) as [class|e]; [|discriminate].
  cbn [mbind outcome_bind].
  destruct (getUint8 buffer 5) as [encoding|e]; [|discriminate].
  cbn [mbind outcome_bind].
  destruct (negb (class =? 2)); [|discriminate].
  destruct (getUint32 buffer 28 _) as [phOff|e]; [|discriminate].
  cbn [mbind outcome_bind].
  destruct (getUint16 buffer 42 _) as [phEntSize|e]; [|discriminate].
  cbn [mbind outcome_bind].
  destruct (getUint16 buffer 44 _) as [phNum|e] eqn:Hnum; [|discriminate].
  cbn [mbind outcome_bind]. intros Hrun.
  apply (getUint_bound 2 _ _ _ _ Hb) in Hnum as [Hnum Hlen].
  destruct (elf_headers_cut _ _ _ _ _ _ _ _ _ Hb Hrun (Forall_nil_2 _))
    as [Hcut Hcount].
  cbn [length] in Hcount. change (256 ^ Z.of_nat 2) with 65536 in Hnum.
  split; [lia|]. split; [lia|]. exact Hcut.
Qed.

Lemma parseElf_segments_cut_from_file_witness :
  (46 <= length (example_elf 1))%nat
  /\ Z.of_nat (length [ {| address := Num 0x08000000;
                           data := map Z.of_nat (seq 0 64) |} ]) < 65536
  /\ Forall (fun s =>
       exists (a : Z) (off n : nat),
         address s = Num a /\ 0 <= a < 2 ^ 32
         /\ data s = take n (drop off (example_elf 1))
         /\ (0 < n)%nat /\ (off + n <= length (example_elf 1))%nat)
       [ {| address := Num 0x08000000; data := map Z.of_nat (seq 0 64) |} ].
Proof.
  apply (parseElf_segments_cut_from_file (example_elf 1)).
  - apply bytes_check. vm_compute. reflexivity.
  - vm_compute. reflexivity.
Defined.

End ParserInvariants.

(* ================================================================== *)
(** * parseHex on well-formed files *)
(* ================================================================== *)

Module ParseHexRoundTrip.
Import FileParsers JSString JSFacts ParseHexFacts ParserInvariants.
Import WebSerialInterfaceFacts.

(** ** Lines *)

Fixpoint no_newline (s : string) : bool :=
  match s with
  | EmptyString => true
  | String c s' =>
      negb (code c =? 10) && negb (code c =? 13) && no_newline s'
  end.

Lemma split_lines_single l : no_newline l = true -> split_lines l = [l].
Proof.
  induction l as [|c l IH]; [reflexivity|].
  cbn [no_newline split_lines]. intros H.
  apply andb_prop in H as [H Hl]. apply andb_prop in H as [H10 H13].
  apply negb_true_iff in H10, H13. rewrite H10, H13, (IH Hl). reflexivity.
Qed.

Lemma split_lines_line l rest :
  no_newline l = true ->
  split_lines (l +++ LF +++ rest) = l :: split_lines rest.
Proof.
  induction l as [|c l IH]; [reflexivity|].
  cbn [no_newline]. intros H.
  apply andb_prop in H as [H Hl]. apply andb_prop in H as [H10 H13].
  apply negb_true_iff in H10, H13.
  change (String c l +++ LF +++ rest) with (String c (l +++ LF +++ rest)).
  cbn [split_lines]. rewrite H10, H13, (IH Hl). reflexivity.
Qed.

Lemma split_lines_text_of l ls :
  Forall (fun l => no_newline l = true) (l :: ls) ->
  split_lines (text_of (l :: ls)) = l :: ls.
Proof.
  revert l. induction ls as [|l' ls IH]; intros l H;
    apply Forall_cons in H as [Hl H].
  - apply split_lines_single, Hl.
  - change (text_of (l :: l' :: ls)) with (l +++ LF +++ text_of (l' :: ls)).
    rewrite split_lines_line by exact Hl. rewrite IH by exact H.
    reflexivity.
Qed.

(** ** The End Of File record *)

Lemma hex_lines_stops eof ls2 ls1 : forall st,
  startsWith_colon eof = true ->
  parseInt16 (substring eof (Num 7) (Num 9)) = Num 1 ->
  hex_lines (ls1 ++ eof :: ls2) st = hex_lines (ls1 ++ [eof]) st.
Proof.
  induction ls1 as [|l ls1 IH]; intros st Hcolon Htype; cbn [app hex_lines].
  - rewrite Hcolon. cbn [negb]. unfold hex_record. rewrite Htype.
    reflexivity.
  - destruct (negb (startsWith_colon l)); [apply IH; assumption|].
    destruct (hex_record l st) as [st' []]; [apply IH; assumption|].
    reflexivity.
Qed.

(** X17.  [parseHex] reads nothing after the End Of File record: in a
    text of lines separated by line feeds, whatever follows a line that
    starts with a colon and has type 01, records included, changes
    nothing to the result. *)
Theorem parseHex_stops_at_eof (before after : list string) (eof : string) :
  Forall (fun l => no_newline l = true) (before ++ eof :: after) ->
  startsWith_colon eof = true ->
  parseInt16 (substring eof (Num 7) (Num 9)) = Num 1 ->
  parseHex (text_of (before ++ eof :: after))
  = parseHex (text_of (before ++ [eof])).
Proof.
  intros Hlines Hcolon Htype. unfold parseHex. cbv zeta.
  assert (Hshort : Forall (fun l => no_newline l = true) (before ++ [eof])).
  { apply Forall_app in Hlines as [H1 H2]. apply Forall_cons in H2 as [H2 _].
    apply Forall_app. split; [exact H1|].
    apply Forall_cons_2; [exact H2|apply Forall_nil_2]. }
  destruct before as [|l before]; cbn [app] in *.
  - rewrite !split_lines_text_of by assumption.
    apply (f_equal (fun st => segments (commitSegment st))).
    apply (hex_lines_stops eof after []); assumption.
  - rewrite !split_lines_text_of by assumption.
    apply (f_equal (fun st => segments (commitSegment st))).
    apply (hex_lines_stops eof after (l :: before)); assumption.
Qed.

Definition comment_line : string := "; written by the linker".

Lemma parseHex_stops_at_eof_witness :
  parseHex (text_of [record_0000; record_eof; record_0010; comment_line])
  = parseHex (text_of [record_0000; record_eof]).
Proof.
  apply (parseHex_stops_at_eof [record_0000] [record_0010; comment_line] record_eof).
  - repeat (apply Forall_cons_2; [reflexivity|]). apply Forall_nil_2.
  - reflexivity.
  - reflexivity.
Defined.

(** ** The Intel HEX format: [:LLAAAATTDD...CC] *)

(** The upper-case hexadecimal digit of value [d]. *)
Definition hex_char (d : Z) : ascii :=
  ascii_of_nat (Z.to_nat (if d <? 10 then 48 + d else 55 + d)).

Definition hex2 (b : Z) : string :=
  String (hex_char (b / 16)) (String (hex_char (b mod 16)) EmptyString).

Fixpoint hex_bytes (bs : list Z) : string :=
  match bs with
  | [] => EmptyString
  | b :: bs' => hex2 b +++ hex_bytes bs'
  end.

(** The last byte of a record makes the sum of its bytes 0 modulo 256. *)
Definition checksum (bs : list Z) : Z := (- fold_right Z.add 0 bs) mod 256.

(** The record of the given type and 16-bit address that carries
    [payload]. *)
Definition record (type addr : Z) (payload : list Z) : string :=
  let body :=
    [Z.of_nat (length payload); addr / 256; addr mod 256; type] ++ payload in
  String ":" (hex_bytes (body ++ [checksum body])).

(** Data records for consecutive blocks, the first at address [addr]. *)
Fixpoint data_records (addr : Z) (blocks : list (list Z)) : list string :=
  match blocks with
  | [] => []
  | block :: blocks' =>
      record 0 addr block
      :: data_records (addr + Z.of_nat (length block)) blocks'
  end.

(** A file for one stretch of memory that starts at [hi * 65536 + lo]:
    an Extended Linear Address record, the data records, and the End Of
    File record. *)
Definition hex_file (hi lo : Z) (blocks : list (list Z)) : string :=
  text_of (record 4 0 [hi / 256; hi mod 256]
           :: data_records lo blocks ++ [record 1 0 []]).

(** ** Digits *)

Definition is_digit (d : Z) : Prop := 0 <= d < 16.

Lemma digit_cases (P : Z -> Prop) :
  P 0 -> P 1 -> P 2 -> P 3 -> P 4 -> P 5 -> P 6 -> P 7 -> P 8 -> P 9 ->
  P 10 -> P 11 -> P 12 -> P 13 -> P 14 -> P 15 ->
  forall d, is_digit d -> P d.
Proof.
  intros ? ? ? ? ? ? ? ? ? ? ? ? ? ? ? ? d Hd. unfold is_digit in Hd.
  assert (Hcases : d = 0 \/ d = 1 \/ d = 2 \/ d = 3 \/ d = 4 \/ d = 5 \/ d = 6
              \/ d = 7 \/ d = 8 \/ d = 9 \/ d = 10 \/ d = 11 \/ d = 12
              \/ d = 13 \/ d = 14 \/ d = 15) by lia.
  repeat (destruct Hcases as [->|Hcases]; [assumption|]). subst d.
  assumption.
Qed.

Lemma byte_digits b : is_byte b -> is_digit (b / 16) /\ is_digit (b mod 16).
Proof.
  unfold is_byte, is_digit. intros Hb.
  pose proof (Z.mod_pos_bound b 16 ltac:(lia)).
  pose proof (Z.div_mod b 16 ltac:(lia)). lia.
Qed.

Lemma hex_digit_hex_char d : is_digit d -> hex_digit (hex_char d) = Some d.
Proof. revert d. apply digit_cases; reflexivity. Qed.

Lemma no_newline_hex_char d rest :
  is_digit d -> no_newline (String (hex_char d) rest) = no_newline rest.
Proof. revert d. apply digit_cases; reflexivity. Qed.

(** [parseInt] on a string that starts with two digits: no white space,
    sign or [0x] prefix is found, and the digits are accumulated. *)
Lemma parseInt16_digits d1 d2 rest :
  is_digit d1 -> is_digit d2 ->
  parseInt16 (String (hex_char d1) (String (hex_char d2) rest))
  = match hex_digits rest (Some (16 * d1 + d2)) with
    | Some m => nearest_number m
    | None => NaN
    end.
Proof.
  intros H1 H2. revert d2 H2. revert d1 H1.
  apply (digit_cases (fun d1 => forall d2, is_digit d2 -> _));
    apply digit_cases; reflexivity.
Qed.

Lemma hex_digits_hex_bytes bs : forall acc,
  Forall is_byte bs ->
  hex_digits (hex_bytes bs) (Some acc)
  = Some (fold_left (fun a b => a * 256 + b) bs acc).
Proof.
  induction bs as [|b bs IH]; intros acc H; [reflexivity|].
  apply Forall_cons in H as [Hb H].
  destruct (byte_digits b Hb) as [Hh Hl].
  cbn [hex_bytes hex2 append hex_digits fold_left].
  rewrite (hex_digit_hex_char _ Hh), (hex_digit_hex_char _ Hl).
  cbn [default]. rewrite IH by exact H. do 2 f_equal.
  pose proof (Z.div_mod b 16 ltac:(lia)). unfold id. lia.
Qed.

(** What [parseInt] reads in one byte, and in two. *)
Lemma parseInt16_hex2 b : is_byte b -> parseInt16 (hex_bytes [b]) = Num b.
Proof.
  intros Hb. destruct (byte_digits b Hb) as [Hh Hl].
  cbn [hex_bytes hex2 append]. rewrite parseInt16_digits by assumption.
  cbn [hex_digits]. unfold nearest_number.
  pose proof (Z.div_mod b 16 ltac:(lia)). unfold is_byte in Hb.
  replace (16 * (b / 16) + b mod 16) with b by lia.
  replace (b <? 2 ^ 53) with true by (symmetry; lia). reflexivity.
Qed.

Lemma parseInt16_hex4 v :
  0 <= v < 65536 -> parseInt16 (hex_bytes [v / 256; v mod 256]) = Num v.
Proof.
  intros Hv.
  assert (Hh : is_byte (v / 256)).
  { unfold is_byte. pose proof (Z.div_mod v 256 ltac:(lia)).
    pose proof (Z.mod_pos_bound v 256 ltac:(lia)). lia. }
  assert (Hl : is_byte (v mod 256)) by apply mod_256_byte.
  destruct (byte_digits _ Hh) as [Hhh Hhl].
  change (hex_bytes [v / 256; v mod 256])
    with (String (hex_char (v / 256 / 16))
            (String (hex_char ((v / 256) mod 16)) (hex_bytes [v mod 256]))).
  rewrite parseInt16_digits by assumption.
  rewrite hex_digits_hex_bytes
    by (apply Forall_cons_2; [exact Hl|apply Forall_nil_2]).
  cbn [fold_left]. unfold nearest_number.
  pose proof (Z.div_mod (v / 256) 16 ltac:(lia)).
  pose proof (Z.div_mod v 256 ltac:(lia)).
  replace ((16 * (v / 256 / 16) + (v / 256) mod 16) * 256 + v mod 256)
    with v by lia.
  replace (v <? 2 ^ 53) with true by (symmetry; lia). reflexivity.
Qed.

(** ** Fields of a record *)

Lemma length_hex_bytes bs :
  String.length (hex_bytes bs) = (2 * length bs)%nat.
Proof.
  induction bs as [|b bs IH]; [reflexivity|].
  cbn [hex_bytes hex2 append String.length length]. rewrite IH. lia.
Qed.

Lemma substring_nil n m : String.substring n m EmptyString = EmptyString.
Proof. destruct n, m; reflexivity. Qed.

Lemma substring_hex_bytes bs : forall i k,
  String.substring (2 * i) (2 * k) (hex_bytes bs)
  = hex_bytes (take k (drop i bs)).
Proof.
  induction bs as [|b bs IH]; intros i k.
  - rewrite drop_nil, take_nil. apply substring_nil.
  - destruct i as [|i].
    + destruct k as [|k]; [reflexivity|].
      replace (2 * S k)%nat with (S (S (2 * k))) by lia.
      cbn [hex_bytes hex2 append String.substring drop take].
      pose proof (IH 0%nat k) as E. change (2 * 0)%nat with 0%nat in E.
      rewrite E. reflexivity.
    + replace (2 * S i)%nat with (S (S (2 * i))) by lia.
      cbn [hex_bytes hex2 append String.substring drop]. apply IH.
Qed.

(** The bytes [i] to [i + k] of a record, as [substring] cuts them. *)
Lemma record_field all (i k : nat) :
  (i + k <= length all)%nat ->
  substring (String ":" (hex_bytes all))
    (Num (1 + 2 * Z.of_nat i)) (Num (1 + 2 * Z.of_nat (i + k)))
  = hex_bytes (take k (drop i all)).
Proof.
  intros Hik. unfold substring, clamp_index. cbv zeta.
  cbn [String.length]. rewrite length_hex_bytes.
  set (len := Z.of_nat (S (2 * length all))).
  set (a := 1 + 2 * Z.of_nat i). set (b := 1 + 2 * Z.of_nat (i + k)).
  replace (Z.min (Z.max a 0) len) with a by lia.
  replace (Z.min (Z.max b 0) len) with b by lia.
  replace (Z.min a b) with a by lia. replace (Z.max a b) with b by lia.
  replace (Z.to_nat a) with (S (2 * i)) by lia.
  replace (Z.to_nat (b - a)) with (2 * k)%nat by lia.
  cbn [String.substring]. apply substring_hex_bytes.
Qed.

(** The bytes of a record in front of its checksum. *)
Definition body (type addr : Z) (payload : list Z) : list Z :=
  [Z.of_nat (length payload); addr / 256; addr mod 256; type] ++ payload.

Lemma record_body type addr payload :
  record type addr payload
  = String ":" (hex_bytes (body type addr payload
                           ++ [checksum (body type addr payload)])).
Proof. reflexivity. Qed.

Section Fields.
Variables (type addr : Z) (payload : list Z).
Hypothesis Htype : is_byte type.
Hypothesis Haddr : 0 <= addr < 65536.
Hypothesis Hlen : (length payload < 256)%nat.

Let line := record type addr payload.
Let all := body type addr payload ++ [checksum (body type addr payload)].

Lemma length_all : length all = (length payload + 5)%nat.
Proof.
  unfold all, body. rewrite !length_app. cbn [length]. lia.
Qed.

Lemma field_len :
  parseInt16 (substring line (Num 1) (Num 3))
  = Num (Z.of_nat (length payload)).
Proof.
  unfold line. rewrite record_body. fold all.
  pose proof (record_field all 0 1) as E.
  change (1 + 2 * Z.of_nat 0) with 1 in E.
  change (1 + 2 * Z.of_nat (0 + 1)) with 3 in E.
  rewrite E by (rewrite length_all; lia).
  apply parseInt16_hex2. unfold is_byte. lia.
Qed.

Lemma field_addr :
  parseInt16 (substring line (Num 3) (Num 7)) = Num addr.
Proof.
  unfold line. rewrite record_body. fold all.
  pose proof (record_field all 1 2) as E.
  change (1 + 2 * Z.of_nat 1) with 3 in E.
  change (1 + 2 * Z.of_nat (1 + 2)) with 7 in E.
  rewrite E by (rewrite length_all; lia).
  apply parseInt16_hex4, Haddr.
Qed.

Lemma field_type :
  parseInt16 (substring line (Num 7) (Num 9)) = Num type.
Proof.
  unfold line. rewrite record_body. fold all.
  pose proof (record_field all 3 1) as E.
  change (1 + 2 * Z.of_nat 3) with 7 in E.
  change (1 + 2 * Z.of_nat (3 + 1)) with 9 in E.
  rewrite E by (rewrite length_all; lia).
  apply parseInt16_hex2, Htype.
Qed.

Lemma field_data :
  substring line (Num 9)
    (add (Num 9) (mul (Num (Z.of_nat (length payload))) (Num 2)))
  = hex_bytes payload.
Proof.
  unfold line. rewrite record_body. fold all. cbn [add mul].
  replace (9 + Z.of_nat (length payload) * 2)
    with (1 + 2 * Z.of_nat (4 + length payload)) by lia.
  pose proof (record_field all 4 (length payload)) as E.
  change (1 + 2 * Z.of_nat 4) with 9 in E.
  rewrite E by (rewrite length_all; lia).
  change (drop 4 all)
    with (payload ++ [checksum (body type addr payload)]).
  rewrite take_app_length. reflexivity.
Qed.

Lemma record_colon : startsWith_colon line = true.
Proof. reflexivity. Qed.
End Fields.

(** ** The data bytes *)

Lemma hex_field bs (i k : nat) :
  (i + k <= length bs)%nat ->
  substring (hex_bytes bs) (Num (2 * Z.of_nat i)) (Num (2 * Z.of_nat (i + k)))
  = hex_bytes (take k (drop i bs)).
Proof.
  intros Hik. unfold substring, clamp_index. cbv zeta.
  rewrite length_hex_bytes.
  set (len := Z.of_nat (2 * length bs)).
  set (a := 2 * Z.of_nat i). set (b := 2 * Z.of_nat (i + k)).
  replace (Z.min (Z.max a 0) len) with a by lia.
  replace (Z.min (Z.max b 0) len) with b by lia.
  replace (Z.min a b) with a by lia. replace (Z.max a b) with b by lia.
  replace (Z.to_nat a) with (2 * i)%nat by lia.
  replace (Z.to_nat (b - a)) with (2 * k)%nat by lia.
  apply substring_hex_bytes.
Qed.

Lemma push_data_hex payload :
  Forall is_byte payload ->
  forall fuel i cd,
    (i + fuel = length payload)%nat ->
    push_data fuel (Z.of_nat i) (Num (Z.of_nat (length payload)))
      (hex_bytes payload) cd
    = cd ++ map Num (drop i payload).
Proof.
  intros Hbytes. induction fuel as [|fuel IH]; intros i cd Hi;
    cbn [push_data].
  - rewrite drop_ge by lia. rewrite app_nil_r. reflexivity.
  - cbn [lt]. replace (Z.of_nat i <? Z.of_nat (length payload)) with true
      by (symmetry; lia).
    destruct (lookup_lt_is_Some_2 payload i ltac:(lia)) as [b Hb].
    replace (Z.of_nat i * 2) with (2 * Z.of_nat i) by lia.
    replace (2 * Z.of_nat i + 2) with (2 * Z.of_nat (i + 1)) by lia.
    rewrite hex_field by lia.
    rewrite (drop_S _ _ _ Hb). cbn [take map].
    rewrite take_0.
    rewrite parseInt16_hex2
      by (eapply Forall_lookup_1; [exact Hbytes|exact Hb]).
    replace (Z.of_nat i + 1) with (Z.of_nat (S i)) by lia.
    rewrite IH by lia. rewrite <- app_assoc. reflexivity.
Qed.

(** ** The three kinds of record *)

Lemma hex_record_data addr payload st :
  0 <= addr < 65536 -> Forall is_byte payload ->
  (length payload < 256)%nat ->
  hex_record (record 0 addr payload) st
  = (let absoluteAddr := Num (extendedAddress st + addr) in
     let st1 :=
       if strict_eq (currentAddress st) (Num (-1)) then
         set_currentAddress absoluteAddr st
       else if negb (strict_eq absoluteAddr
                       (add (currentAddress st)
                            (Num (Z.of_nat (length (currentData st)))))) then
         set_currentAddress absoluteAddr (commitSegment st)
       else st in
     ({| segments := segments st1; extendedAddress := extendedAddress st1;
         currentData := currentData st1 ++ map Num payload;
         currentAddress := currentAddress st1 |}, true)).
Proof.
  intros Haddr Hbytes Hlen. unfold hex_record.
  rewrite field_len, field_addr, field_type, field_data
    by (assumption || (unfold is_byte; lia)).
  change (strict_eq (Num 0) (Num 0)) with true. cbv iota zeta.
  cbn [add]. unfold iterations. rewrite Nat2Z.id.
  rewrite (push_data_hex payload Hbytes (length payload) 0%nat)
    by reflexivity.
  rewrite drop_0. reflexivity.
Qed.

Lemma hex_record_linear hi st :
  0 <= hi < 65536 ->
  hex_record (record 4 0 [hi / 256; hi mod 256]) st
  = (commitSegment (set_extendedAddress (shl (Num hi) 16) st), true).
Proof.
  intros Hhi. unfold hex_record.
  rewrite field_len, field_type, field_data
    by (cbn [length]; unfold is_byte; lia).
  change (strict_eq (Num 4) (Num 0)) with false.
  change (strict_eq (Num 4) (Num 2)) with false.
  change (strict_eq (Num 4) (Num 4)) with true. cbv iota zeta.
  rewrite parseInt16_hex4 by exact Hhi. reflexivity.
Qed.

Lemma hex_record_eof st :
  hex_record (record 1 0 []) st = (commitSegment st, false).
Proof. reflexivity. Qed.

(** ** The lines of a record hold no line break *)

Lemma no_newline_hex_bytes bs :
  Forall is_byte bs -> no_newline (hex_bytes bs) = true.
Proof.
  induction 1 as [|b bs Hb _ IH]; [reflexivity|].
  destruct (byte_digits b Hb) as [Hh Hl].
  cbn [hex_bytes hex2 append].
  rewrite !no_newline_hex_char by assumption. exact IH.
Qed.

Lemma no_newline_record type addr payload :
  is_byte type -> 0 <= addr < 65536 -> Forall is_byte payload ->
  (length payload < 256)%nat ->
  no_newline (record type addr payload) = true.
Proof.
  intros Htype Haddr Hbytes Hlen. rewrite record_body.
  change (no_newline (String ":" ?s)) with (no_newline s).
  apply no_newline_hex_bytes. apply Forall_app. split.
  - unfold body. apply Forall_app. split; [|exact Hbytes].
    repeat apply Forall_cons_2; try apply Forall_nil_2;
      try apply mod_256_byte; try assumption; unfold is_byte.
    + lia.
    + pose proof (Z.div_mod addr 256 ltac:(lia)).
      pose proof (Z.mod_pos_bound addr 256 ltac:(lia)). lia.
  - apply Forall_cons_2; [apply mod_256_byte|apply Forall_nil_2].
Qed.

(** ** The whole file *)

(** The signed 32-bit value of [hi << 16]. *)
Definition upper (hi : Z) : Z :=
  if hi <? 0x8000 then hi * 65536 else hi * 65536 - 4294967296.

Lemma shl_16 hi : 0 <= hi < 65536 -> shl (Num hi) 16 = upper hi.
Proof.
  intros Hhi. unfold shl, ToInt32, upper.
  rewrite (wrap32_id hi) by (unfold two31; lia).
  change (16 mod 32) with 16. rewrite Z.shiftl_mul_pow2 by lia.
  change (2 ^ 16) with 65536.
  destruct (Z.ltb_spec hi 0x8000) as [Hlow|Hhigh].
  - apply wrap32_id. unfold two31. lia.
  - unfold wrap32, two31, two32.
    rewrite <- (Z.mod_unique (hi * 65536 + 2147483648) 4294967296 1
                  (hi * 65536 + 2147483648 - 4294967296)); lia.
Qed.

(** A block that one data record can carry. *)
Definition block_ok (block : list Z) : Prop :=
  Forall is_byte block /\ (0 < length block < 256)%nat.

(** The state of the loop while the one segment of the file is open. *)
Definition open (ext base : Z) (cd : list number) : hex_state :=
  {| segments := []; extendedAddress := ext;
     currentData := cd; currentAddress := Num base |}.

Lemma hex_lines_data ext lo rest blocks : forall cd,
  Forall block_ok blocks ->
  0 <= lo ->
  lo + Z.of_nat (length cd) + Z.of_nat (length (concat blocks)) <= 65536 ->
  ext + lo <> -1 ->
  hex_lines (data_records (lo + Z.of_nat (length cd)) blocks ++ rest)
    (open ext (ext + lo) cd)
  = hex_lines rest (open ext (ext + lo) (cd ++ map Num (concat blocks))).
Proof.
  induction blocks as [|block blocks IH]; intros cd Hok Hlo Hfit Hne.
  - cbn [data_records app concat map]. rewrite app_nil_r. reflexivity.
  - apply Forall_cons in Hok as [[Hbytes Hlen] Hok].
    cbn [concat] in Hfit. rewrite length_app in Hfit.
    cbn [data_records app hex_lines].
    rewrite record_colon. cbn [negb].
    rewrite hex_record_data by (assumption || lia).
    cbv zeta. cbn [open currentAddress currentData extendedAddress strict_eq add].
    replace (ext + lo =? -1) with false by (symmetry; lia).
    replace (ext + (lo + Z.of_nat (length cd)) =? ext + lo + Z.of_nat (length cd))
      with true by (symmetry; lia).
    cbn [negb segments extendedAddress currentData currentAddress].
    fold (open ext (ext + lo) (cd ++ map Num block)).
    replace (lo + Z.of_nat (length cd) + Z.of_nat (length block))
      with (lo + Z.of_nat (length (cd ++ map Num block)))
      by (rewrite length_app, length_map; lia).
    rewrite IH; try assumption.
    + cbn [concat]. rewrite map_app, app_assoc. reflexivity.
    + rewrite length_app, length_map. lia.
Qed.

Lemma no_newline_data_records blocks : forall lo,
  Forall block_ok blocks -> 0 <= lo ->
  lo + Z.of_nat (length (concat blocks)) <= 65536 ->
  Forall (fun l => no_newline l = true) (data_records lo blocks).
Proof.
  induction blocks as [|block blocks IH]; intros lo Hok Hlo Hfit;
    cbn [data_records]; [apply Forall_nil_2|].
  apply Forall_cons in Hok as [[Hb Hl] Hok].
  cbn [concat] in Hfit. rewrite length_app in Hfit.
  apply Forall_cons_2.
  - apply no_newline_record; try assumption; unfold is_byte; lia.
  - apply IH; [exact Hok|lia|lia].
Qed.

(** X18.  [parseHex] reads back what the Intel HEX format writes.  For a
    stretch of memory cut in blocks of 1 to 255 bytes that do not run
    over the end of a 64 KiB page, the file made of the Extended Linear
    Address record for the upper half [hi] of the address, one data
    record per block at consecutive 16-bit addresses from [lo] on, and
    the End Of File record, is parsed as one segment that holds the
    blocks put end to end.  Its address is [hi * 65536 + lo] when [hi] is
    below 0x8000; from 0x8000 on, [hi << 16] is negative in JavaScript and
    the address comes out [2^32] too low. *)
Theorem parseHex_round_trip (hi lo : Z) (blocks : list (list Z)) :
  0 <= hi < 0xFFFF -> 0 <= lo ->
  blocks <> [] -> Forall block_ok blocks ->
  lo + Z.of_nat (length (concat blocks)) <= 65536 ->
  parseHex (hex_file hi lo blocks)
  = [ {| address :=
           Num ((if hi <? 0x8000 then hi * 65536
                 else hi * 65536 - 4294967296) + lo);
         data := concat blocks |} ].
Proof.
  intros Hhi Hlo Hne Hok Hfit. fold (upper hi).
  assert (Hext : upper hi + lo <> -1).
  { unfold upper. destruct (hi <? 0x8000) eqn:E; lia. }
  assert (Hbytes : Forall is_byte (concat blocks)).
  { apply Forall_concat. eapply Forall_impl; [exact Hok|].
    intros b [Hb _]. exact Hb. }
  assert (Hlines : Forall (fun l => no_newline l = true)
                     (data_records lo blocks ++ [record 1 0 []])).
  { apply Forall_app. split;
      [apply no_newline_data_records; assumption|].
    apply Forall_cons_2; [reflexivity|apply Forall_nil_2]. }
  unfold parseHex, hex_file. cbv zeta.
  rewrite split_lines_text_of.
  2:{ apply Forall_cons_2; [|exact Hlines].
      apply no_newline_record; cbn [length]; unfold is_byte; try lia.
      apply bytes_check. cbn [forallb].
      pose proof (Z.div_mod hi 256 ltac:(lia)).
      pose proof (Z.mod_pos_bound hi 256 ltac:(lia)).
      rewrite !andb_true_r. apply andb_true_intro.
      split; apply andb_true_intro; split; lia. }
  cbn [hex_lines]. rewrite record_colon. cbn [negb].
  rewrite hex_record_linear by lia. rewrite shl_16 by lia.
  change (commitSegment (set_extendedAddress (upper hi) hex_init))
    with {| segments := []; extendedAddress := upper hi;
            currentData := []; currentAddress := Num (-1) |}.
  destruct blocks as [|block blocks]; [congruence|].
  apply Forall_cons in Hok as [[Hb Hl] Hok].
  cbn [concat] in Hfit, Hbytes. rewrite length_app in Hfit.
  cbn [data_records app hex_lines].
  rewrite record_colon. cbn [negb].
  rewrite hex_record_data by (assumption || lia).
  cbv zeta. cbn [currentAddress strict_eq]. change (-1 =? -1) with true.
  cbv iota.
  cbn [set_currentAddress segments extendedAddress currentData
       currentAddress app].
  fold (open (upper hi) (upper hi + lo) (map Num block)).
  replace (lo + Z.of_nat (length block))
    with (lo + Z.of_nat (length (map Num block)))
    by (rewrite length_map; lia).
  rewrite hex_lines_data;
    [|exact Hok|exact Hlo|rewrite length_map; lia|exact Hext].
  cbn [hex_lines]. rewrite record_colon. cbn [negb].
  rewrite hex_record_eof.
  rewrite <- map_app.
  destruct block as [|b block]; [cbn [length] in Hl; lia|].
  rewrite (commitSegment_closes
             (open (upper hi) (upper hi + lo)
                (map Num ((b :: block) ++ concat blocks)))
             (Num b) (map Num (block ++ concat blocks)));
    [|reflexivity|].
  2:{ cbn [open currentAddress strict_eq].
      apply Z.eqb_neq. exact Hext. }
  rewrite commitSegment_nothing_pending by reflexivity.
  cbn [segments open app currentAddress currentData].
  rewrite Uint8Array_of_bytes by exact Hbytes. reflexivity.
Qed.

Lemma parseHex_round_trip_witness :
  parseHex (hex_file 0x0800 0xFFF0 [[0x12; 0x34; 0x56]; [0x78]; [0x9A; 0xBC]])
  = [ {| address := Num 0x0800FFF0;
         data := [0x12; 0x34; 0x56; 0x78; 0x9A; 0xBC] |} ].
Proof.
  apply (parseHex_round_trip 0x0800 0xFFF0
           [[0x12; 0x34; 0x56]; [0x78]; [0x9A; 0xBC]]).
  - lia.
  - lia.
  - discriminate.
  - repeat (apply Forall_cons_2;
            [split; [apply bytes_check; reflexivity|cbn [length]; lia]|]).
    apply Forall_nil_2.
  - cbn. lia.
Defined.

End ParseHexRoundTrip.
